(** * citest.json_predicate.binary_predicate: a shallow embedding

    The module [binary_predicate.py] defines predicates that relate an
    observed JSON value to an operand bound at construction: the standard
    comparators built by [StandardBinaryPredicateFactory], the container
    matchers ([DictMatchesPredicate], [ListMatchesPredicate]), the subset
    family ([DictSubsetPredicate], [ListSubsetPredicate],
    [ListMembershipPredicate]) and the polymorphic [ContainsPredicate],
    [EquivalentPredicate] and [DifferentPredicate].

    Python objects are embedded as the inductive [value]; a predicate object
    is a constructor of [pred] carrying the attributes its class stores; a
    call that may raise returns an [outcome].  The code is Python 2
    ([basestring], [long]), and the runtime is modelled accordingly. *)

Set Warnings "-register-all".
From Stdlib Require Import ZArith String Ascii List Bool Lia Permutation Sorted.
From Stdlib Require Import DecimalString.
From Stdlib Require Import Floats.SpecFloat.
Import ListNotations.

Local Open Scope string_scope.
Local Open Scope list_scope.

(** ** Exceptions and the result of a call *)

Inductive exn : Type :=
| TypeError
| NotImplementedError
| AttributeError
| IndexError.

(** A call returns, raises, or exhausts the recursion budget of the
    evaluator (see [call] below). *)
Inductive outcome (A : Type) : Type :=
| Ret (a : A)
| Raise (e : exn)
| OutOfFuel.

Arguments Ret {A} a.
Arguments Raise {A} e.
Arguments OutOfFuel {A}.

Definition bind {A B : Type} (m : outcome A) (k : A -> outcome B) : outcome B :=
  match m with
  | Ret a => k a
  | Raise e => Raise e
  | OutOfFuel => OutOfFuel
  end.

Notation "x <- m ;; k" := (bind m (fun x => k))
  (at level 61, m at next level, right associativity).

(** [completes o]: the evaluation did not run out of budget. *)
Definition completes {A : Type} (o : outcome A) : Prop := o <> OutOfFuel.

(** [refines o o']: [o'] is what [o] becomes with a larger budget. *)
Definition refines {A : Type} (o o' : outcome A) : Prop :=
  o = OutOfFuel \/ o = o'.

(** ** Runtime classes *)

(** The classes the module inspects with [isinstance].  [str] and [unicode]
    are both kept as [Cstr]: the code only asks for [basestring] and compares
    text by content. *)
Inductive pyclass : Type :=
| CNoneType | Cbool | Cint | Clong | Cfloat | Cstr | Cbasestring
| Clist | Cdict | Cfunction.

Definition pyclass_eqb (c d : pyclass) : bool :=
  match c, d with
  | CNoneType, CNoneType | Cbool, Cbool | Cint, Cint | Clong, Clong
  | Cfloat, Cfloat | Cstr, Cstr | Cbasestring, Cbasestring
  | Clist, Clist | Cdict, Cdict | Cfunction, Cfunction => true
  | _, _ => false
  end.

(** [issubclass c d]: [bool] derives from [int], [str] from [basestring]. *)
Definition issubclass (c d : pyclass) : bool :=
  pyclass_eqb c d ||
  match c, d with
  | Cbool, Cint => true
  | Cstr, Cbasestring => true
  | _, _ => false
  end.

(** The second argument of [isinstance]: a class or a tuple of classes. *)
Inductive type_spec : Type :=
| TClass (c : pyclass)
| TTuple (cs : list pyclass).

Fixpoint pyclass_list_eqb (l m : list pyclass) : bool :=
  match l, m with
  | [], [] => true
  | c :: l', d :: m' => pyclass_eqb c d && pyclass_list_eqb l' m'
  | _, _ => false
  end.

Definition type_spec_eqb (s t : type_spec) : bool :=
  match s, t with
  | TClass c, TClass d => pyclass_eqb c d
  | TTuple l, TTuple m => pyclass_list_eqb l m
  | _, _ => false
  end.

(** [operand_type == operand_type] with [None] for "not enforced". *)
Definition operand_type_eqb (s t : option type_spec) : bool :=
  match s, t with
  | None, None => true
  | Some a, Some b => type_spec_eqb a b
  | _, _ => false
  end.

(** Truth value of a class object (always true) or a tuple (non-empty). *)
Definition type_truthy (t : type_spec) : bool :=
  match t with
  | TClass _ => true
  | TTuple [] => false
  | TTuple (_ :: _) => true
  end.

(** Python's [a or b] on two such objects: [a] when it is true, else [b]. *)
Definition py_or (a b : type_spec) : type_spec :=
  if type_truthy a then a else b.

(** The tuple [(int, long, float)] and the expression [int or long or float]
    as they are written in the source. *)
Definition numeric_types : type_spec := TTuple [Cint; Clong; Cfloat].
Definition int_or_long_or_float : type_spec :=
  py_or (py_or (TClass Cint) (TClass Clong)) (TClass Cfloat).

Section Engine.

(** The evaluation context is supplied by the caller; the module only hands
    it to deferred operands. *)
Variable Context : Type.

(** ** Values *)

(** The objects the module handles: what a JSON document decodes to, and
    function objects for deferred operands.  [VInt] and [VLong] are the two
    integer classes of Python 2; a [VFloat] is a binary64 in canonical form;
    [VStr] stands for both string classes.  The fields of a [VDict] are in
    iteration order.  For a function object, [addr] stands for its identity
    (functions compare by identity) and [f] for its behaviour. *)
Inductive value : Type :=
| VNone
| VBool (b : bool)
| VInt (n : Z)
| VLong (n : Z)
| VFloat (x : spec_float)
| VStr (s : string)
| VList (l : list value)
| VDict (d : list (string * value))
| VCallable (addr : nat) (f : Context -> value).

Definition class_of (v : value) : pyclass :=
  match v with
  | VNone => CNoneType
  | VBool _ => Cbool
  | VInt _ => Cint
  | VLong _ => Clong
  | VFloat _ => Cfloat
  | VStr _ => Cstr
  | VList _ => Clist
  | VDict _ => Cdict
  | VCallable _ _ => Cfunction
  end.

Definition isinstance (v : value) (t : type_spec) : bool :=
  match t with
  | TClass c => issubclass (class_of v) c
  | TTuple cs => existsb (issubclass (class_of v)) cs
  end.

Definition callable (v : value) : bool :=
  match v with
  | VCallable _ _ => true
  | _ => false
  end.

(** Modelled from the spec: [ExecutionContext.eval], whose module is not part
    of the sources at hand.  A deferred operand is invoked with the context;
    anything else is returned unchanged. *)
Definition eval (context : Context) (x : value) : value :=
  match x with
  | VCallable _ f => f context
  | _ => x
  end.

(** ** Dictionaries as association lists, in iteration order *)

Fixpoint dict_get {A : Type} (name : string) (d : list (string * A)) : option A :=
  match d with
  | [] => None
  | (k, v) :: d' => if String.eqb k name then Some v else dict_get name d'
  end.

Definition keys {K A : Type} (d : list (K * A)) : list K := map fst d.

(** ** Numbers *)

Inductive num : Type :=
| NInt (z : Z)
| NFloat (x : spec_float).

Definition num_of (v : value) : option num :=
  match v with
  | VBool b => Some (NInt (if b then 1 else 0))
  | VInt z => Some (NInt z)
  | VLong z => Some (NInt z)
  | VFloat x => Some (NFloat x)
  | _ => None
  end.

(** Exact comparison of a float with an integer, as the interpreter does it. *)
Definition float_compare_Z (x : spec_float) (z : Z) : option comparison :=
  match x with
  | S754_nan => None
  | S754_infinity s => Some (if s then Lt else Gt)
  | S754_zero _ => Some (0 ?= z)%Z
  | S754_finite s m e =>
      let n := if s then Z.neg m else Z.pos m in
      if (0 <=? e)%Z then Some (n * 2 ^ e ?= z)%Z
      else Some (n ?= z * 2 ^ (- e))%Z
  end.

Definition num_compare (a b : num) : option comparison :=
  match a, b with
  | NInt x, NInt y => Some (x ?= y)%Z
  | NFloat x, NFloat y => SFcompare x y
  | NFloat x, NInt y => float_compare_Z x y
  | NInt x, NFloat y => option_map CompOpp (float_compare_Z y x)
  end.

Definition num_eqb (a b : num) : bool :=
  match num_compare a b with Some Eq => true | _ => false end.

Definition num_ltb (a b : num) : bool :=
  match num_compare a b with Some Lt => true | _ => false end.

(** ** Equality [==] and inequality [!=] of values *)

Fixpoint py_eq (a b : value) {struct a} : bool :=
  match a with
  | VNone => match b with VNone => true | _ => false end
  | VStr s => match b with VStr t => String.eqb s t | _ => false end
  | VList xs =>
      match b with
      | VList ys =>
          (fix eq_list (xs ys : list value) {struct xs} : bool :=
             match xs, ys with
             | [], [] => true
             | x :: xs', y :: ys' => py_eq x y && eq_list xs' ys'
             | _, _ => false
             end) xs ys
      | _ => false
      end
  | VDict da =>
      match b with
      | VDict db =>
          Nat.eqb (length da) (length db) &&
          (fix eq_items (items : list (string * value)) {struct items} : bool :=
             match items with
             | [] => true
             | (k, x) :: items' =>
                 match dict_get k db with
                 | Some y => py_eq x y
                 | None => false
                 end && eq_items items'
             end) da
      | _ => false
      end
  | VCallable i _ => match b with VCallable j _ => Nat.eqb i j | _ => false end
  | VBool _ | VInt _ | VLong _ | VFloat _ =>
      match num_of a, num_of b with
      | Some x, Some y => num_eqb x y
      | _, _ => false
      end
  end.

Definition py_ne (a b : value) : bool := negb (py_eq a b).

(** [elem in the_list]. *)
Definition py_in (elem : value) (the_list : list value) : bool :=
  existsb (fun x => py_eq x elem) the_list.

(** ** Ordering [<] of values (Python 2)

    Numbers compare by value.  Objects of different classes are ordered with
    [None] first, then numbers, then by class name.  Lists compare
    lexicographically, dictionaries by size, then by the smallest key at
    which they differ, then by the values at that key. *)

Definition class_rank (v : value) : nat :=
  match v with
  | VNone => 0
  | VBool _ | VInt _ | VLong _ | VFloat _ => 1
  | VDict _ => 2
  | VCallable _ _ => 3
  | VList _ => 4
  | VStr _ => 5
  end.

(** The smallest key of [da] that [db] lacks or maps to a different value. *)
Fixpoint characterize (da db : list (string * value)) (akey : option string)
  : option string :=
  match da with
  | [] => akey
  | (thiskey, thisaval) :: da' =>
      let skip := match akey with
                  | Some k => String.ltb k thiskey
                  | None => false
                  end in
      if skip then characterize da' db akey
      else
        let same := match dict_get thiskey db with
                    | Some thisbval => py_eq thisaval thisbval
                    | None => false
                    end in
        characterize da' db (if same then akey else Some thiskey)
  end.

Fixpoint py_lt (a b : value) {struct a} : bool :=
  match a with
  | VStr s =>
      match b with
      | VStr t => String.ltb s t
      | _ => Nat.ltb (class_rank a) (class_rank b)
      end
  | VList xs =>
      match b with
      | VList ys =>
          (fix lt_list (xs ys : list value) {struct xs} : bool :=
             match xs, ys with
             | [], [] => false
             | [], _ :: _ => true
             | _ :: _, [] => false
             | x :: xs', y :: ys' =>
                 if py_eq x y then lt_list xs' ys' else py_lt x y
             end) xs ys
      | _ => Nat.ltb (class_rank a) (class_rank b)
      end
  | VDict da =>
      match b with
      | VDict db =>
          if Nat.ltb (length da) (length db) then true
          else if Nat.ltb (length db) (length da) then false
          else
            match characterize da db None, characterize db da None with
            | Some adiff, Some bdiff =>
                if String.ltb adiff bdiff then true
                else if String.eqb adiff bdiff then
                  (fix at_key (items : list (string * value)) {struct items}
                     : bool :=
                     match items with
                     | [] => false
                     | (k, aval) :: items' =>
                         if String.eqb k adiff then
                           match dict_get bdiff db with
                           | Some bval => py_lt aval bval
                           | None => false
                           end
                         else at_key items'
                     end) da
                else false
            | _, _ => false
            end
      | _ => Nat.ltb (class_rank a) (class_rank b)
      end
  | VCallable i _ =>
      match b with
      | VCallable j _ => Nat.ltb i j
      | _ => Nat.ltb (class_rank a) (class_rank b)
      end
  | VNone => Nat.ltb (class_rank a) (class_rank b)
  | VBool _ | VInt _ | VLong _ | VFloat _ =>
      match num_of a, num_of b with
      | Some x, Some y => num_ltb x y
      | _, _ => Nat.ltb (class_rank a) (class_rank b)
      end
  end.

Definition py_le (a b : value) : bool := py_lt a b || py_eq a b.
Definition py_ge (a b : value) : bool := py_lt b a || py_eq a b.

(** ** [sorted]

    The builtin is a stable sort driven by [<].  It is modelled by a stable
    insertion sort, which yields the same list whenever [<] orders the
    elements consistently. *)

Fixpoint insert_stable (x : value) (l : list value) : list value :=
  match l with
  | [] => [x]
  | y :: l' => if py_lt y x then y :: insert_stable x l' else x :: y :: l'
  end.

Definition sorted (l : list value) : list value :=
  fold_right insert_stable [] l.

(** ** [lists_equivalent] *)

(** The loop [for index, value in enumerate(sorted_a)]. *)
Fixpoint lists_equivalent_loop (sorted_b : list value) (index : nat)
  (sorted_a : list value) : outcome bool :=
  match sorted_a with
  | [] => Ret true
  | value :: rest =>
      match nth_error sorted_b index with
      | None => Raise IndexError
      | Some b_value =>
          if py_ne b_value value then Ret false
          else lists_equivalent_loop sorted_b (S index) rest
      end
  end.

Definition lists_equivalent (a b : list value) : outcome bool :=
  if negb (Nat.eqb (length a) (length b)) then Ret false
  else
    let sorted_a := sorted a in
    let sorted_b := sorted b in
    lists_equivalent_loop sorted_b 0 sorted_a.

(** ** Text *)

(** [a.find(b)]: the first position of [b] in [a], or [-1]. *)
Definition str_find (a b : string) : Z :=
  match index 0 b a with
  | Some n => Z.of_nat n
  | None => (-1)%Z
  end.

(** ['[{0}]'.format(index)]. *)
Definition format_index (index : nat) : string :=
  "[" ++ NilEmpty.string_of_uint (Nat.to_uint index) ++ "]".

(** ** Iteration and membership on arbitrary objects *)

(** [for x in v]. *)
Definition py_iter (v : value) : outcome (list value) :=
  match v with
  | VList l => Ret l
  | VDict d => Ret (map VStr (keys d))
  | VStr s => Ret (map (fun c => VStr (String c EmptyString)) (list_ascii_of_string s))
  | _ => Raise TypeError
  end.

(** [elem in container]. *)
Definition py_contains (elem container : value) : outcome bool :=
  match container with
  | VList l => Ret (py_in elem l)
  | VDict d =>
      match elem with
      | VStr k => Ret (existsb (String.eqb k) (keys d))
      | VList _ | VDict _ => Raise TypeError
      | _ => Ret false
      end
  | VStr s =>
      match elem with
      | VStr t => Ret (0 <=? str_find s t)%Z
      | _ => Raise TypeError
      end
  | _ => Raise TypeError
  end.

(** ** Predicate objects *)

(** One constructor per concrete class, with the attributes the class
    stores.  The name of a [StandardBinaryPredicate] comes from its factory;
    the other classes fix theirs. *)
Inductive pred : Type :=
| StandardBinaryPredicate (name : string)
    (comparison_op : value -> value -> outcome bool)
    (operand : value) (operand_type : option type_spec)
| DictMatchesPredicate (operand : list (value * pred)) (strict : bool)
| ListMatchesPredicate (operand : list pred) (strict unique : bool)
| DictSubsetPredicate (operand : value)
| ListSubsetPredicate (operand : value) (strict : bool)
| ListMembershipPredicate (operand : value) (strict : bool)
| ContainsPredicate (operand : value)
| EquivalentPredicate (operand : value)
| DifferentPredicate (operand : value).

Inductive pred_class : Type :=
| KStandardBinaryPredicate | KDictMatchesPredicate | KListMatchesPredicate
| KDictSubsetPredicate | KListSubsetPredicate | KListMembershipPredicate
| KContainsPredicate | KEquivalentPredicate | KDifferentPredicate.

Definition pred_class_of (p : pred) : pred_class :=
  match p with
  | StandardBinaryPredicate _ _ _ _ => KStandardBinaryPredicate
  | DictMatchesPredicate _ _ => KDictMatchesPredicate
  | ListMatchesPredicate _ _ _ => KListMatchesPredicate
  | DictSubsetPredicate _ => KDictSubsetPredicate
  | ListSubsetPredicate _ _ => KListSubsetPredicate
  | ListMembershipPredicate _ _ => KListMembershipPredicate
  | ContainsPredicate _ => KContainsPredicate
  | EquivalentPredicate _ => KEquivalentPredicate
  | DifferentPredicate _ => KDifferentPredicate
  end.

Definition pred_class_eqb (c d : pred_class) : bool :=
  match c, d with
  | KStandardBinaryPredicate, KStandardBinaryPredicate
  | KDictMatchesPredicate, KDictMatchesPredicate
  | KListMatchesPredicate, KListMatchesPredicate
  | KDictSubsetPredicate, KDictSubsetPredicate
  | KListSubsetPredicate, KListSubsetPredicate
  | KListMembershipPredicate, KListMembershipPredicate
  | KContainsPredicate, KContainsPredicate
  | KEquivalentPredicate, KEquivalentPredicate
  | KDifferentPredicate, KDifferentPredicate => true
  | _, _ => false
  end.

(** The [name] property. *)
Definition name (p : pred) : string :=
  match p with
  | StandardBinaryPredicate n _ _ _ => n
  | DictMatchesPredicate _ _ => "Matches"
  | ListMatchesPredicate _ _ _ => "Matches"
  | DictSubsetPredicate _ => "has-subset"
  | ListSubsetPredicate _ _ => "has-subset"
  | ListMembershipPredicate _ _ => "has-elem"
  | ContainsPredicate _ => "Contains"
  | EquivalentPredicate _ => "Equivalent"
  | DifferentPredicate _ => "Different"
  end.

(** The [operand_type] property: only the factories and [DictSubsetPredicate]
    pass one to the base constructor. *)
Definition operand_type (p : pred) : option type_spec :=
  match p with
  | StandardBinaryPredicate _ _ _ t => t
  | DictSubsetPredicate _ => Some (TClass Cdict)
  | _ => None
  end.

(** The [operand] property: a value, a mapping from keys to predicates, or a
    list of predicates. *)
Inductive operand_obj : Type :=
| OValue (v : value)
| OPredDict (d : list (value * pred))
| OPredList (l : list pred).

Definition operand (p : pred) : operand_obj :=
  match p with
  | StandardBinaryPredicate _ _ o _ => OValue o
  | DictMatchesPredicate d _ => OPredDict d
  | ListMatchesPredicate l _ _ => OPredList l
  | DictSubsetPredicate o => OValue o
  | ListSubsetPredicate o _ => OValue o
  | ListMembershipPredicate o _ => OValue o
  | ContainsPredicate o => OValue o
  | EquivalentPredicate o => OValue o
  | DifferentPredicate o => OValue o
  end.

(** Lookup in a mapping whose keys are arbitrary hashable objects. *)
Fixpoint assoc_get {A : Type} (key : value) (d : list (value * A)) : option A :=
  match d with
  | [] => None
  | (k, x) :: d' => if py_eq k key then Some x else assoc_get key d'
  end.

(** ** [__eq__]

    [BinaryPredicate.__eq__] compares the class, the name, the operand and
    the operand type; [DictMatchesPredicate] and [ListMatchesPredicate]
    override it to compare their flags as well.  Operands that hold
    predicates are compared with the same method. *)
Fixpoint pred_eq (p q : pred) {struct p} : bool :=
  match p with
  | StandardBinaryPredicate n _ o t =>
      match q with
      | StandardBinaryPredicate n' _ o' t' =>
          String.eqb n n' && py_eq o o' && operand_type_eqb t t'
      | _ => false
      end
  | DictMatchesPredicate d strict =>
      match q with
      | DictMatchesPredicate d' strict' =>
          (Nat.eqb (length d) (length d') &&
           (fix eq_items (items : list (value * pred)) {struct items} : bool :=
              match items with
              | [] => true
              | (k, x) :: items' =>
                  match assoc_get k d' with
                  | Some y => pred_eq x y
                  | None => false
                  end && eq_items items'
              end) d)
          && Bool.eqb strict strict'
      | _ => false
      end
  | ListMatchesPredicate l strict unique =>
      match q with
      | ListMatchesPredicate l' strict' unique' =>
          (fix eq_list (xs ys : list pred) {struct xs} : bool :=
             match xs, ys with
             | [], [] => true
             | x :: xs', y :: ys' => pred_eq x y && eq_list xs' ys'
             | _, _ => false
             end) l l'
          && Bool.eqb unique unique' && Bool.eqb strict strict'
      | _ => false
      end
  | DictSubsetPredicate o =>
      match q with DictSubsetPredicate o' => py_eq o o' | _ => false end
  | ListSubsetPredicate o _ =>
      match q with ListSubsetPredicate o' _ => py_eq o o' | _ => false end
  | ListMembershipPredicate o _ =>
      match q with ListMembershipPredicate o' _ => py_eq o o' | _ => false end
  | ContainsPredicate o =>
      match q with ContainsPredicate o' => py_eq o o' | _ => false end
  | EquivalentPredicate o =>
      match q with EquivalentPredicate o' => py_eq o o' | _ => false end
  | DifferentPredicate o =>
      match q with DifferentPredicate o' => py_eq o o' | _ => false end
  end.

(** [==] on two lists of predicates and on two mappings of predicates. *)
Fixpoint pred_list_eq (xs ys : list pred) : bool :=
  match xs, ys with
  | [], [] => true
  | x :: xs', y :: ys' => pred_eq x y && pred_list_eq xs' ys'
  | _, _ => false
  end.

Fixpoint pred_items_eq (items d' : list (value * pred)) : bool :=
  match items with
  | [] => true
  | (k, x) :: items' =>
      match assoc_get k d' with
      | Some y => pred_eq x y
      | None => false
      end && pred_items_eq items' d'
  end.

Definition pred_dict_eq (d d' : list (value * pred)) : bool :=
  Nat.eqb (length d) (length d') && pred_items_eq d d'.

Definition operand_eq (a b : operand_obj) : bool :=
  match a, b with
  | OValue x, OValue y => py_eq x y
  | OPredDict d, OPredDict d' => pred_dict_eq d d'
  | OPredList l, OPredList l' => pred_list_eq l l'
  | _, _ => false
  end.

(** The four conjuncts of [BinaryPredicate.__eq__], read off the properties. *)
Definition BinaryPredicate_eq (p q : pred) : bool :=
  pred_class_eqb (pred_class_of p) (pred_class_of q)
  && String.eqb (name p) (name q)
  && operand_eq (operand p) (operand q)
  && operand_type_eqb (operand_type p) (operand_type q).

(** The flags compared by the overriding [__eq__] methods. *)
Definition flags_eq (p q : pred) : bool :=
  match p, q with
  | DictMatchesPredicate _ strict, DictMatchesPredicate _ strict' =>
      Bool.eqb strict strict'
  | ListMatchesPredicate _ strict unique, ListMatchesPredicate _ strict' unique' =>
      Bool.eqb unique unique' && Bool.eqb strict strict'
  | _, _ => true
  end.

(** ** Construction *)

(** The check of [BinaryPredicate.__init__]. *)
Definition BinaryPredicate_init (operand : value)
  (operand_type : option type_spec) : outcome unit :=
  match operand_type with
  | Some t =>
      if negb (callable operand) then
        if negb (isinstance operand t) then Raise TypeError else Ret tt
      else Ret tt
  | None => Ret tt
  end.

(** [if self.__operand_type and not isinstance(x, self.__operand_type)]. *)
Definition violates (operand_type : option type_spec) (x : value) : bool :=
  match operand_type with
  | Some t => type_truthy t && negb (isinstance x t)
  | None => false
  end.

Definition eval_context_operand (operand : value)
  (operand_type : option type_spec) (context : Context) : outcome value :=
  let operand := eval context operand in
  if violates operand_type operand then Raise TypeError else Ret operand.

Record StandardBinaryPredicateFactory : Type := {
  predicate_name : string;
  factory_comparison_op : value -> value -> outcome bool;
  factory_operand_type : option type_spec
}.

(** [StandardBinaryPredicateFactory.__call__]. *)
Definition factory_call (factory : StandardBinaryPredicateFactory)
  (operand : value) : outcome pred :=
  _ <- BinaryPredicate_init operand (factory_operand_type factory) ;;
  Ret (StandardBinaryPredicate (predicate_name factory)
         (factory_comparison_op factory) operand
         (factory_operand_type factory)).

(** [a.find(b) >= 0]. *)
Definition has_substring (a b : value) : outcome bool :=
  match a, b with
  | VStr s, VStr t => Ret (0 <=? str_find s t)%Z
  | VStr _, _ => Raise TypeError
  | _, _ => Raise AttributeError
  end.

(** [lists_equivalent(a, b)] as bound into [LIST_SIMILAR], which only ever
    passes two lists. *)
Definition lists_equivalent_op (a b : value) : outcome bool :=
  match a, b with
  | VList xs, VList ys => lists_equivalent xs ys
  | _, _ => Raise TypeError
  end.

Definition NUM_LE := Build_StandardBinaryPredicateFactory
  "<=" (fun a b => Ret (py_le a b)) (Some numeric_types).
Definition NUM_GE := Build_StandardBinaryPredicateFactory
  ">=" (fun a b => Ret (py_ge a b)) (Some numeric_types).
Definition NUM_EQ := Build_StandardBinaryPredicateFactory
  "==" (fun a b => Ret (py_eq a b)) (Some numeric_types).
Definition NUM_NE := Build_StandardBinaryPredicateFactory
  "!=" (fun a b => Ret (py_ne a b)) (Some numeric_types).

Definition STR_SUBSTR := Build_StandardBinaryPredicateFactory
  "has-substring" has_substring (Some (TClass Cbasestring)).
Definition STR_EQ := Build_StandardBinaryPredicateFactory
  "==" (fun a b => Ret (py_eq a b)) (Some (TClass Cbasestring)).
Definition STR_NE := Build_StandardBinaryPredicateFactory
  "!=" (fun a b => Ret (py_ne a b)) (Some (TClass Cbasestring)).

Definition DICT_EQ := Build_StandardBinaryPredicateFactory
  "==" (fun a b => Ret (py_eq a b)) (Some (TClass Cdict)).
Definition DICT_NE := Build_StandardBinaryPredicateFactory
  "!=" (fun a b => Ret (py_ne a b)) (Some (TClass Cdict)).

Definition LIST_EQ := Build_StandardBinaryPredicateFactory
  "==" (fun a b => Ret (py_eq a b)) (Some (TClass Clist)).
Definition LIST_NE := Build_StandardBinaryPredicateFactory
  "!=" (fun a b => Ret (py_ne a b)) (Some (TClass Clist)).
Definition LIST_SIMILAR := Build_StandardBinaryPredicateFactory
  "~=" lists_equivalent_op (Some (TClass Clist)).

(** [DictSubsetPredicate.__init__]. *)
Definition DICT_SUBSET (operand : value) : outcome pred :=
  if negb (isinstance operand (TClass Cdict) || callable operand)
  then Raise TypeError
  else
    _ <- BinaryPredicate_init operand (Some (TClass Cdict)) ;;
    Ret (DictSubsetPredicate operand).

(** [ListSubsetPredicate.__init__] through the [LIST_SUBSET] lambda. *)
Definition LIST_SUBSET (operand : value) (strict : bool) : outcome pred :=
  if negb (isinstance operand (TClass Clist)) then Raise TypeError
  else Ret (ListSubsetPredicate operand strict).

Definition LIST_MEMBER (operand : value) (strict : bool) : pred :=
  ListMembershipPredicate operand strict.

Definition CONTAINS (operand : value) : pred := ContainsPredicate operand.
Definition EQUIVALENT (operand : value) : pred := EquivalentPredicate operand.
Definition DIFFERENT (operand : value) : pred := DifferentPredicate operand.

(** ** Results *)

(** Modelled from the spec: [PathValue] of [path_value], not part of the
    sources at hand: the value found at a path. *)
Record PathValue : Type := mkPathValue {
  pv_path : string;
  pv_value : value
}.

(** Modelled from the spec: the result classes of [path_result],
    [keyed_predicate_result], [sequenced_predicate_result] and
    [map_predicate], none of which is part of the sources at hand.  A result
    records the producing predicate, the source examined, the target path,
    the path value compared and a validity flag; the three error variants are
    results that are never valid.  The fields follow the keyword arguments
    used by the call sites in [binary_predicate.py]; the third positional
    argument of [TypeMismatchError] is the offending value, kept as its
    source. *)
Inductive result : Type :=
| PathValueResult (pred : pred) (source : value) (target_path : string)
    (path_value : PathValue) (valid : bool)
| TypeMismatchError (expect_type : type_spec) (got_type : pyclass)
    (source : option value) (target_path : string)
    (path_value : option PathValue)
| MissingPathError (source : value) (target_path : string)
    (path_value : PathValue)
| UnexpectedPathError (source : value) (target_path : string)
    (path_value : PathValue)
| KeyedPredicateResult (pred : pred) (results : list (value * result))
    (valid : bool)
| SequencedPredicateResult (pred : pred) (results : list result)
    (valid : bool)
| MapPredicateResult (pred : pred) (results : list result) (valid : bool).

(** Modelled from the spec: the truth value of a result ([if result],
    [if not result]) is its validity; the result classes are not part of the
    sources at hand. *)
Definition valid (r : result) : bool :=
  match r with
  | PathValueResult _ _ _ _ v => v
  | TypeMismatchError _ _ _ _ _ => false
  | MissingPathError _ _ _ => false
  | UnexpectedPathError _ _ _ => false
  | KeyedPredicateResult _ _ v => v
  | SequencedPredicateResult _ _ v => v
  | MapPredicateResult _ _ v => v
  end.

(** Modelled from the spec: the [target_path] of a result of the absent
    result classes; an aggregate is located at its root. *)
Definition target_path (r : result) : string :=
  match r with
  | PathValueResult _ _ t _ _ => t
  | TypeMismatchError _ _ _ t _ => t
  | MissingPathError _ t _ => t
  | UnexpectedPathError _ t _ => t
  | _ => ""
  end.

(** Modelled from the spec: the per-index [results] of a sequence-shaped
    result of the absent result classes. *)
Definition results (r : result) : list result :=
  match r with
  | SequencedPredicateResult _ rs _ => rs
  | MapPredicateResult _ rs _ => rs
  | _ => []
  end.

(** Is the entry at [index] present and valid? *)
Definition valid_at (rs : list result) (index : nat) : bool :=
  match nth_error rs index with
  | Some e => valid e
  | None => false
  end.

(** Did the element at [index] satisfy the pattern whose result is [r]? *)
Definition matched_at (index : nat) (r : result) : bool :=
  valid_at (results r) index.

(** Paths compose by concatenation with ["/"]. *)
Definition join_path (base p : string) : string :=
  if String.eqb p "" then base else base ++ "/" ++ p.

Definition rebase_path_value (base : string) (pv : PathValue) : PathValue :=
  mkPathValue (join_path base (pv_path pv)) (pv_value pv).

(** Modelled from the spec: [clone_with_source] of the result classes, which
    remaps a result's source and paths to the enclosing field.  Aggregates
    are never passed to it by this module and are returned as they are. *)
Definition clone_with_source (r : result) (source : value)
  (base_target_path base_value_path : string) : result :=
  match r with
  | PathValueResult p _ t pv v =>
      PathValueResult p source (join_path base_target_path t)
        (rebase_path_value base_value_path pv) v
  | TypeMismatchError e g _ t pv =>
      TypeMismatchError e g (Some source) (join_path base_target_path t)
        (option_map (rebase_path_value base_value_path) pv)
  | MissingPathError _ t pv =>
      MissingPathError source (join_path base_target_path t)
        (rebase_path_value base_value_path pv)
  | UnexpectedPathError _ t pv =>
      UnexpectedPathError source (join_path base_target_path t)
        (rebase_path_value base_value_path pv)
  | _ => r
  end.

(** Modelled from the spec: [KeyedPredicateResultBuilder].  The results form
    a mapping, so adding under a name already present replaces the entry. *)
Fixpoint add_result (results : list (value * result)) (name : value)
  (r : result) : list (value * result) :=
  match results with
  | [] => [(name, r)]
  | (k, x) :: results' =>
      if py_eq k name then (k, r) :: results'
      else (k, x) :: add_result results' name r
  end.

(** Modelled from the spec: [update_results] of the same builder, which
    merges a mapping of extra entries, here keyed by field names. *)
Definition update_results (results : list (value * result))
  (extra : list (string * result)) : list (value * result) :=
  fold_left (fun acc kr => add_result acc (VStr (fst kr)) (snd kr)) extra results.

(** ** The methods, over the call [pred(context, value)] *)

Section Methods.

(** Invoking a predicate object; tied to [call] below. *)
Variable invoke : pred -> Context -> value -> outcome result.

(** [StandardBinaryPredicate.__call__]. *)
Definition StandardBinaryPredicate_call (self : pred) (name : string)
  (comparison_op : value -> value -> outcome bool) (operand : value)
  (operand_type : option type_spec) (context : Context) (val : value)
  : outcome result :=
  operand <- eval_context_operand operand operand_type context ;;
  let compare :=
    ok <- comparison_op val operand ;;
    Ret (PathValueResult self val "" (mkPathValue "" val) ok) in
  match operand_type with
  | Some t =>
      if type_truthy t && negb (isinstance val t)
      then Ret (TypeMismatchError t (class_of val) (Some val) "" None)
      else compare
  | None => compare
  end.

(** Modelled from the spec: [PathPredicate], whose module is not part of the
    sources at hand.  It resolves the key through the context, locates the
    entry in the container and evaluates the wrapped predicate on it; the
    result is reported against the resolved key.  An absent entry is a
    [MissingPathError].  A path is a string; a key that resolves to anything
    else is rejected. *)
Definition PathPredicate (key : value) (pred : pred) (context : Context)
  (container : value) : outcome result :=
  match eval context key, container with
  | VStr name, VDict d =>
      match dict_get name d with
      | Some found =>
          r <- invoke pred context found ;;
          Ret (clone_with_source r container name name)
      | None =>
          Ret (MissingPathError container name (mkPathValue "" container))
      end
  | _, _ => Raise TypeError
  end.

(** Modelled from the spec: [MapPredicate], whose module is not part of the
    sources at hand.  The predicate is evaluated on every element, by index;
    the whole is valid when at least one element satisfies it and, if [max]
    is set, no more than [max] do. *)
Fixpoint map_results (pred : pred) (context : Context) (l : list value)
  : outcome (list result) :=
  match l with
  | [] => Ret []
  | x :: l' =>
      r <- invoke pred context x ;;
      rs <- map_results pred context l' ;;
      Ret (r :: rs)
  end.

(** Modelled from the spec: the number of elements that satisfy the
    predicate, as the absent [MapPredicate] counts them. *)
Definition count_valid (rs : list result) : nat :=
  length (filter valid rs).

(** Modelled from the spec: [MapPredicate(pred, max=max)(context, l)], with
    the validity stated above. *)
Definition MapPredicate (pred : pred) (max : option nat) (context : Context)
  (l : list value) : outcome result :=
  rs <- map_results pred context l ;;
  let good := count_valid rs in
  Ret (MapPredicateResult pred rs
         (Nat.leb 1 good &&
          match max with
          | Some m => Nat.leb good m
          | None => true
          end)).

(** *** [DictMatchesPredicate] *)

(** The loop over [self.operand.items()]: the builder's entries and the
    running [valid]. *)
Fixpoint DictMatches_fields (items : list (value * pred)) (context : Context)
  (val : value) (built : list (value * result)) (valid0 : bool)
  : outcome (list (value * result) * bool) :=
  match items with
  | [] => Ret (built, valid0)
  | (key, pred) :: items' =>
      let name := eval context key in
      name_result <- PathPredicate key pred context val ;;
      let valid1 := if negb (valid name_result) then false else valid0 in
      DictMatches_fields items' context val
        (add_result built name name_result) valid1
  end.

(** [_find_unexpected_path_errors]. *)
Fixpoint find_unexpected_path_errors (expect_keys : list value)
  (source : value) (items : list (string * value)) : list (string * result) :=
  match items with
  | [] => []
  | (key, v) :: items' =>
      if negb (py_in (VStr key) expect_keys) then
        (key, UnexpectedPathError source key (mkPathValue key v))
          :: find_unexpected_path_errors expect_keys source items'
      else find_unexpected_path_errors expect_keys source items'
  end.

Definition DictMatchesPredicate_call (self : pred)
  (operand : list (value * pred)) (strict : bool) (context : Context)
  (val : value) : outcome result :=
  match val with
  | VDict d =>
      st <- DictMatches_fields operand context val [] true ;;
      let (built, valid0) := st in
      if strict then
        let strictness_errors :=
          find_unexpected_path_errors (keys operand) val d in
        match strictness_errors with
        | _ :: _ =>
            Ret (KeyedPredicateResult self
                   (update_results built strictness_errors) false)
        | [] => Ret (KeyedPredicateResult self built valid0)
        end
      else Ret (KeyedPredicateResult self built valid0)
  | _ => Ret (TypeMismatchError (TClass Cdict) (class_of val) (Some val) "" None)
  end.

(** *** [ListMatchesPredicate] *)

(** [for index in range(len(value)):
       matched_element_count[index] += 1 if pred_result.results[index] else 0]. *)
Fixpoint bump_counts (pred_results : list result) (index : nat)
  (matched_element_count : list nat) : outcome (list nat) :=
  match matched_element_count with
  | [] => Ret []
  | count :: rest =>
      match nth_error pred_results index with
      | None => Raise IndexError
      | Some r =>
          rest' <- bump_counts pred_results (S index) rest ;;
          Ret ((count + if valid r then 1 else 0) :: rest')
      end
  end.

(** The loop over [self.operand]: the builder's entries, the running [valid]
    and the per-index counters.  [append_result] of the absent
    [SequencedPredicateResultBuilder] adds the result at the end, as the spec
    describes it. *)
Fixpoint ListMatches_patterns (patterns : list pred) (max_count : option nat)
  (context : Context) (l : list value) (built : list result) (valid0 : bool)
  (matched_element_count : list nat)
  : outcome (list result * bool * list nat) :=
  match patterns with
  | [] => Ret (built, valid0, matched_element_count)
  | match_pred :: patterns' =>
      pred_result <- MapPredicate match_pred max_count context l ;;
      let built1 := built ++ [pred_result] in
      let valid1 := if negb (valid pred_result) then false else valid0 in
      counts1 <- bump_counts (results pred_result) 0 matched_element_count ;;
      ListMatches_patterns patterns' max_count context l built1 valid1 counts1
  end.

(** [_find_strictness_errors]. *)
Fixpoint find_strictness_errors (source : value) (l : list value)
  (index : nat) (matched_element_count : list nat) : outcome (list result) :=
  match matched_element_count with
  | [] => Ret []
  | count :: rest =>
      if Nat.eqb count 0 then
        let path := format_index index in
        match nth_error l index with
        | None => Raise IndexError
        | Some elem =>
            errors <- find_strictness_errors source l (S index) rest ;;
            Ret (UnexpectedPathError source path (mkPathValue path elem)
                   :: errors)
        end
      else find_strictness_errors source l (S index) rest
  end.

Definition ListMatchesPredicate_call (self : pred) (operand : list pred)
  (strict unique : bool) (context : Context) (val : value)
  : outcome result :=
  match val with
  | VList l =>
      let max_count := if unique then Some 1 else None in
      st <- ListMatches_patterns operand max_count context l [] true
              (repeat 0 (length l)) ;;
      let '(built, valid0, matched_element_count) := st in
      if strict then
        strictness_errors <-
          find_strictness_errors val l 0 matched_element_count ;;
        match strictness_errors with
        | _ :: _ =>
            Ret (SequencedPredicateResult self
                   (built ++ strictness_errors) false)
        | [] => Ret (SequencedPredicateResult self built valid0)
        end
      else Ret (SequencedPredicateResult self built valid0)
  | _ => Ret (TypeMismatchError (TClass Clist) (class_of val) (Some val) "" None)
  end.

(** *** [DictSubsetPredicate] *)

(** ['{0}/{1}'.format(path, name) if path else name]. *)
Definition namepath_of (path name : string) : string :=
  if String.eqb path "" then name else path ++ "/" ++ name.

(** The scalar case of [_is_subset], reached when [a_value != b_value]. *)
Definition is_subset_mismatch (source : value) (path namepath : string)
  (a_value b b_value : value) : outcome result :=
  let '(pred_factory, confirm_type) :=
    if isinstance b_value (TClass Cbasestring)
    then (factory_call STR_EQ, Some (TClass Cbasestring))
    else if isinstance b_value numeric_types
    then (factory_call NUM_EQ, Some numeric_types)
    else (fun o => Ret (EQUIVALENT o), None) in
  let report :=
    p <- pred_factory a_value ;;
    Ret (PathValueResult p source namepath (mkPathValue namepath b_value)
           false) in
  match confirm_type with
  | Some t =>
      if negb (isinstance a_value t)
      then Ret (TypeMismatchError t (class_of a_value) (Some source) namepath
                  (Some (mkPathValue path b)))
      else report
  | None => report
  end.

(** [_is_subset]: is [a] a subset of [b]?  The recursion follows [a]. *)
Fixpoint is_subset (self : pred) (context : Context) (source : value)
  (path : string) (a b : value) {struct a} : outcome result :=
  match a with
  | VDict a_items =>
      (fix each (items : list (string * value)) {struct items}
         : outcome result :=
         match items with
         | [] =>
             Ret (PathValueResult self source path (mkPathValue path b) true)
         | (name, a_value) :: items' =>
             let namepath := namepath_of path name in
             match b with
             | VDict b_items =>
                 match dict_get name b_items with
                 | None =>
                     Ret (MissingPathError source namepath
                            (mkPathValue path b))
                 | Some b_value =>
                     if isinstance b_value (TClass Cdict) then
                       r <- is_subset self context source namepath
                              a_value b_value ;;
                       if negb (valid r) then Ret r else each items'
                     else if isinstance b_value (TClass Clist) then
                       elem_pred <-
                         (if isinstance a_value (TClass Clist)
                          then LIST_SUBSET a_value false
                          else Ret (CONTAINS a_value)) ;;
                       r <- invoke elem_pred context b_value ;;
                       if negb (valid r)
                       then Ret (clone_with_source r source namepath name)
                       else each items'
                     else
                       let a_value := eval context a_value in
                       if py_ne a_value b_value
                       then is_subset_mismatch source path namepath
                              a_value b b_value
                       else each items'
                 end
             | _ => Raise TypeError
             end
         end) a_items
  | _ => Raise AttributeError
  end.

Definition DictSubsetPredicate_call (self : pred) (operand : value)
  (context : Context) (val : value) : outcome result :=
  if negb (isinstance val (TClass Cdict))
  then Ret (TypeMismatchError (TClass Cdict) (class_of val) (Some val) "" None)
  else
    operand <- eval_context_operand operand (Some (TClass Cdict)) context ;;
    is_subset self context val "" operand val.

(** *** List membership *)

(** The loop [for value in the_list: if pred(context, value): return True]. *)
Fixpoint any_satisfies (pred : pred) (context : Context) (l : list value)
  : outcome bool :=
  match l with
  | [] => Ret false
  | x :: l' =>
      r <- invoke pred context x ;;
      if valid r then Ret true else any_satisfies pred context l'
  end.

(** [_verify_elem]. *)
Definition verify_elem (strict : bool) (context : Context) (elem : value)
  (the_list : value) : outcome bool :=
  if strict || isinstance elem (TTuple [Cint; Clong; Cfloat; Cbasestring])
  then py_contains elem (eval context the_list)
  else if strict then Ret false
  else
    pred <- (if isinstance elem (TClass Clist) then LIST_SUBSET elem false
             else if isinstance elem (TClass Cdict) then DICT_SUBSET elem
             else Raise TypeError) ;;
    members <- py_iter the_list ;;
    any_satisfies pred context members.

(** The loop of [ListSubsetPredicate.__call__]. *)
Fixpoint ListSubset_elems (self : pred) (strict : bool) (context : Context)
  (val : value) (elems : list value) : outcome result :=
  match elems with
  | [] => Ret (PathValueResult self val "" (mkPathValue "" val) true)
  | elem :: elems' =>
      ok <- verify_elem strict context elem val ;;
      if negb ok
      then Ret (PathValueResult self val "" (mkPathValue "" val) false)
      else ListSubset_elems self strict context val elems'
  end.

Definition ListSubsetPredicate_call (self : pred) (operand : value)
  (strict : bool) (context : Context) (val : value) : outcome result :=
  if negb (isinstance val (TClass Clist))
  then Ret (TypeMismatchError (TClass Clist) (class_of val) (Some val) "" None)
  else
    operand <- eval_context_operand operand None context ;;
    elems <- py_iter operand ;;
    ListSubset_elems self strict context val elems.

Definition ListMembershipPredicate_call (self : pred) (operand : value)
  (strict : bool) (context : Context) (val : value) : outcome result :=
  ok <- verify_elem strict context operand val ;;
  Ret (PathValueResult self val "" (mkPathValue "" val) ok).

(** *** [ContainsPredicate] *)

(** The search [for elem in value: result = self(context, elem) ...]. *)
Fixpoint Contains_search (self : pred) (context : Context) (val : value)
  (elems bad_values : list value) : outcome result :=
  match elems with
  | [] =>
      Ret (PathValueResult self val "" (mkPathValue "" (VList bad_values))
             false)
  | elem :: elems' =>
      r <- invoke self context elem ;;
      if valid r then Ret r
      else Contains_search self context val elems' (bad_values ++ [elem])
  end.

Definition ContainsPredicate_call (self : pred) (operand : value)
  (context : Context) (val : value) : outcome result :=
  if isinstance val (TClass Cbasestring) then
    p <- factory_call STR_SUBSTR operand ;; invoke p context val
  else if isinstance val (TClass Cdict) then
    p <- DICT_SUBSET operand ;; invoke p context val
  else if isinstance val int_or_long_or_float then
    p <- factory_call NUM_EQ operand ;; invoke p context val
  else
    match val with
    | VList l =>
        if isinstance operand (TClass Clist) then
          p <- LIST_SUBSET operand false ;; invoke p context val
        else Contains_search self context val l []
    | _ => Raise NotImplementedError
    end.

(** *** [EquivalentPredicate] and [DifferentPredicate] *)

(** [__check_operand_and_call], the same in both classes. *)
Definition check_operand_and_call (operand : value) (context : Context)
  (expected : type_spec) (val : value)
  (pred_factory : StandardBinaryPredicateFactory) : outcome result :=
  let operand := eval context operand in
  if negb (isinstance operand expected)
  then Ret (TypeMismatchError expected (class_of operand) (Some val) "" None)
  else p <- factory_call pred_factory operand ;; invoke p context val.

Definition EquivalentPredicate_call (operand : value) (context : Context)
  (val : value) : outcome result :=
  if isinstance val (TClass Cbasestring) then
    check_operand_and_call operand context (TClass Cbasestring) val STR_EQ
  else if isinstance val (TClass Cdict) then
    check_operand_and_call operand context (TClass Cdict) val DICT_EQ
  else if isinstance val (TClass Clist) then
    check_operand_and_call operand context (TClass Clist) val LIST_SIMILAR
  else if isinstance val int_or_long_or_float then
    check_operand_and_call operand context numeric_types val NUM_EQ
  else Raise NotImplementedError.

Definition DifferentPredicate_call (operand : value) (context : Context)
  (val : value) : outcome result :=
  if isinstance val (TClass Cbasestring) then
    check_operand_and_call operand context (TClass Cbasestring) val STR_NE
  else if isinstance val (TClass Cdict) then
    check_operand_and_call operand context (TClass Cdict) val DICT_NE
  else if isinstance val (TClass Clist) then
    check_operand_and_call operand context (TClass Clist) val LIST_NE
  else if isinstance val int_or_long_or_float then
    check_operand_and_call operand context numeric_types val NUM_NE
  else Raise NotImplementedError.

(** Method dispatch on the class of the predicate object. *)
Definition pred_call (p : pred) (context : Context) (val : value)
  : outcome result :=
  match p with
  | StandardBinaryPredicate n op o t =>
      StandardBinaryPredicate_call p n op o t context val
  | DictMatchesPredicate d strict =>
      DictMatchesPredicate_call p d strict context val
  | ListMatchesPredicate l strict unique =>
      ListMatchesPredicate_call p l strict unique context val
  | DictSubsetPredicate o => DictSubsetPredicate_call p o context val
  | ListSubsetPredicate o strict =>
      ListSubsetPredicate_call p o strict context val
  | ListMembershipPredicate o strict =>
      ListMembershipPredicate_call p o strict context val
  | ContainsPredicate o => ContainsPredicate_call p o context val
  | EquivalentPredicate o => EquivalentPredicate_call o context val
  | DifferentPredicate o => DifferentPredicate_call o context val
  end.

End Methods.

(** ** Evaluation

    [call fuel p context value] is [p(context, value)] with at most [fuel]
    nested predicate invocations. *)
Fixpoint call (fuel : nat) (p : pred) (context : Context) (val : value)
  {struct fuel} : outcome result :=
  match fuel with
  | O => OutOfFuel
  | S fuel' => pred_call (call fuel') p context val
  end.

(** The nesting depth of a value. *)
Fixpoint depth (v : value) : nat :=
  match v with
  | VList l => S (list_max (map depth l))
  | VDict d => S (list_max (map (fun kv => depth (snd kv)) d))
  | _ => 0
  end.

(** Fuel that suffices to apply [p] to [v]: a standard predicate calls
    nothing; the container predicates call predicates on the components of
    [v] only; [Contains], [Equivalent] and [Different] may first call another
    predicate on [v] itself. *)
Definition fuel_needed (p : pred) (v : value) : nat :=
  match p with
  | StandardBinaryPredicate _ _ _ _ => 1
  | ContainsPredicate _ | EquivalentPredicate _ | DifferentPredicate _ =>
      2 * depth v + 3
  | ListMembershipPredicate _ _ => 2 * depth v + 2
  | _ => match depth v with
         | O => 1
         | S _ => 2 * depth v + 2
         end
  end.

(** The comparison functions bound into [p] and its sub-predicates always
    return or raise. *)
Fixpoint ops_complete (p : pred) : Prop :=
  match p with
  | StandardBinaryPredicate _ op _ _ => forall a b, completes (op a b)
  | DictMatchesPredicate d _ =>
      (fix all (d : list (value * pred)) : Prop :=
         match d with
         | [] => True
         | (_, q) :: d' => ops_complete q /\ all d'
         end) d
  | ListMatchesPredicate l _ _ =>
      (fix all (l : list pred) : Prop :=
         match l with
         | [] => True
         | q :: l' => ops_complete q /\ all l'
         end) l
  | _ => True
  end.

(** [p(context, value)] with a budget that always suffices. *)
Definition evaluate (p : pred) (context : Context) (val : value)
  : outcome result :=
  call (2 * depth val + 3) p context val.

(** At fuel [n], the walk of [v] against itself returns no invalid
    result. *)
Definition walk_ok (context : Context) (n : nat) (v : value) : Prop :=
  forall self source path r,
    is_subset (call n) self context source path v v = Ret r ->
    r = PathValueResult self source path (mkPathValue path v) true.

(** At fuel [n], [LIST_SUBSET(v)] on the list [v] itself returns no invalid
    result. *)
Definition list_ok (context : Context) (n : nat) (v : value) : Prop :=
  forall r,
    isinstance v (TClass Clist) = true ->
    call n (ListSubsetPredicate v false) context v = Ret r ->
    valid r = true.

(** ** Well-formed values *)

Fixpoint nodupb (l : list string) : bool :=
  match l with
  | [] => true
  | k :: l' => negb (existsb (String.eqb k) l') && nodupb l'
  end.

Definition is_nan (x : spec_float) : bool :=
  match x with
  | S754_nan => true
  | _ => false
  end.

(** A JSON value as the interpreter holds it: no function objects, no NaN,
    and the keys of every object are distinct. *)
Fixpoint json (v : value) : bool :=
  match v with
  | VCallable _ _ => false
  | VFloat x => negb (is_nan x)
  | VList l => forallb json l
  | VDict d => nodupb (keys d) && forallb (fun kv => json (snd kv)) d
  | _ => true
  end.

(** The keys of every object of the value are distinct. *)
Fixpoint unique_keys (v : value) : bool :=
  match v with
  | VList l => forallb unique_keys l
  | VDict d => nodupb (keys d) && forallb (fun kv => unique_keys (snd kv)) d
  | _ => true
  end.

(** [==] on two lists, element by element. *)
Fixpoint py_eq_list (xs ys : list value) : bool :=
  match xs, ys with
  | [], [] => true
  | x :: xs', y :: ys' => py_eq x y && py_eq_list xs' ys'
  | _, _ => false
  end.

(** One field of the left object against the right object, in [==]. *)
Definition py_eq_item (db : list (string * value)) (kx : string * value)
  : bool :=
  match dict_get (fst kx) db with
  | Some y => py_eq (snd kx) y
  | None => false
  end.

(** The field names of an object; no names for anything else. *)
Definition field_names (a : value) : list string :=
  match a with
  | VDict d => keys d
  | _ => []
  end.

(** [del b[name]] on an association list. *)
Fixpoint dict_remove {A : Type} (name : string) (d : list (string * A))
  : list (string * A) :=
  match d with
  | [] => []
  | (k, v) :: d' =>
      if String.eqb k name then dict_remove name d'
      else (k, v) :: dict_remove name d'
  end.

(** Stable insertion sort on integers, the image of [sorted] on a list of
    [int] objects. *)
Fixpoint insert_Z (x : Z) (l : list Z) : list Z :=
  match l with
  | [] => [x]
  | y :: l' => if (y <? x)%Z then y :: insert_Z x l' else x :: y :: l'
  end.

Definition sort_Z (l : list Z) : list Z := fold_right insert_Z [] l.

(** What [_verify_elem] treats as a scalar: a number or a string. *)
Definition scalar (v : value) : bool :=
  isinstance v (TTuple [Cint; Clong; Cfloat; Cbasestring]).

(** Every array of the value, at any depth, holds scalars only. *)
Fixpoint flat_arrays (v : value) : bool :=
  match v with
  | VList l => forallb scalar l
  | VDict d => forallb (fun kv => flat_arrays (snd kv)) d
  | _ => true
  end.

(** ** Observations on outcomes *)

(** What a caller tests: the validity of the result, or the exception. *)
Definition verdict (o : outcome result) : outcome bool :=
  r <- o ;; Ret (valid r).

(** ** Nested lists of integers *)

(** An [int], or a list of such values, nested to any depth. *)
Fixpoint int_tree (v : value) : bool :=
  match v with
  | VInt _ => true
  | VList l => forallb int_tree l
  | _ => false
  end.

(** Does the integer [n] occur in [v], at any depth? *)
Fixpoint occurs (n : Z) (v : value) : bool :=
  match v with
  | VInt m => Z.eqb m n
  | VList l => existsb (occurs n) l
  | _ => false
  end.

(** ** Nested objects *)

(** The object [{k1: {k2: ... {kn: v}}}]; [v] itself without keys. *)
Fixpoint nest (ks : list string) (v : value) : value :=
  match ks with
  | [] => v
  | k :: ks' => VDict [(k, nest ks' v)]
  end.

(** ** The factories of the module *)

(** The standard factories the module defines at its top level. *)
Definition standard_factories : list StandardBinaryPredicateFactory :=
  [NUM_LE; NUM_GE; NUM_EQ; NUM_NE; STR_SUBSTR; STR_EQ; STR_NE;
   DICT_EQ; DICT_NE; LIST_EQ; LIST_NE; LIST_SIMILAR].

(** ** Induction on values, through lists and objects *)

Section ValueInd.

Variable P : value -> Prop.
Hypothesis HNone : P VNone.
Hypothesis HBool : forall b, P (VBool b).
Hypothesis HInt : forall n, P (VInt n).
Hypothesis HLong : forall n, P (VLong n).
Hypothesis HFloat : forall x, P (VFloat x).
Hypothesis HStr : forall s, P (VStr s).
Hypothesis HList : forall l, Forall P l -> P (VList l).
Hypothesis HDict : forall d, Forall (fun kv => P (snd kv)) d -> P (VDict d).
Hypothesis HCallable : forall addr f, P (VCallable addr f).

Fixpoint value_nested_ind (v : value) : P v :=
  match v with
  | VNone => HNone
  | VBool b => HBool b
  | VInt n => HInt n
  | VLong n => HLong n
  | VFloat x => HFloat x
  | VStr s => HStr s
  | VList l =>
      HList l
        ((fix all (l : list value) : Forall P l :=
            match l with
            | [] => Forall_nil P
            | x :: l' => Forall_cons x (value_nested_ind x) (all l')
            end) l)
  | VDict d =>
      HDict d
        ((fix all (d : list (string * value))
            : Forall (fun kv => P (snd kv)) d :=
            match d with
            | [] => Forall_nil _
            | kv :: d' =>
                Forall_cons kv (value_nested_ind (snd kv)) (all d')
            end) d)
  | VCallable addr f => HCallable addr f
  end.

End ValueInd.

(** * Properties *)

(** ** Equality of values *)

Lemma py_eq_VList (xs ys : list value) :
  py_eq (VList xs) (VList ys) = py_eq_list xs ys.
Proof.
  revert ys; induction xs as [|x xs IH]; intros [|y ys]; simpl; auto.
Qed.

Lemma py_eq_VDict (da db : list (string * value)) :
  py_eq (VDict da) (VDict db)
  = Nat.eqb (length da) (length db) && forallb (py_eq_item db) da.
Proof.
  simpl. f_equal.
  induction da as [|[k x] da IH]; simpl; auto.
  unfold py_eq_item at 1; simpl. f_equal. apply IH.
Qed.

Lemma nodupb_NoDup (l : list string) : nodupb l = true -> NoDup l.
Proof.
  induction l as [|k l IH]; simpl; intros H; constructor.
  - apply andb_prop in H as [H _]. intros Hin.
    apply negb_true_iff in H.
    assert (existsb (String.eqb k) l = true) as E.
    { apply existsb_exists. exists k. split; auto. apply String.eqb_refl. }
    congruence.
  - apply andb_prop in H as [_ H]. auto.
Qed.

Lemma dict_get_In {A : Type} (name : string) (d : list (string * A)) (x : A) :
  dict_get name d = Some x -> In (name, x) d.
Proof.
  induction d as [|[k v] d IH]; simpl; intros H; [discriminate|].
  destruct (String.eqb_spec k name) as [->|Hne].
  - inversion H; subst. now left.
  - right. auto.
Qed.

Lemma In_dict_get {A : Type} (name : string) (d : list (string * A)) (x : A) :
  NoDup (keys d) -> In (name, x) d -> dict_get name d = Some x.
Proof.
  induction d as [|[k v] d IH]; simpl; intros Hnd Hin; [contradiction|].
  inversion Hnd as [|? ? Hk Hnd']; subst.
  destruct Hin as [E|Hin].
  - inversion E; subst. now rewrite String.eqb_refl.
  - destruct (String.eqb_spec k name) as [->|Hne]; auto.
    exfalso. apply Hk. unfold keys. apply in_map_iff. now exists (name, x).
Qed.

Lemma In_keys_dict_get {A : Type} (name : string) (d : list (string * A)) :
  In name (keys d) -> exists x, dict_get name d = Some x.
Proof.
  induction d as [|[k v] d IH]; simpl; intros Hin; [contradiction|].
  destruct (String.eqb_spec k name) as [->|Hne]; eauto.
  destruct Hin as [E|Hin]; [contradiction|auto].
Qed.

Lemma num_eqb_sym (x y : num) : num_eqb x y = true -> num_eqb y x = true.
Proof.
  unfold num_eqb.
  destruct x as [x|x], y as [y|y]; simpl.
  - rewrite (Z.compare_antisym x y). destruct (x ?= y)%Z; simpl; auto.
  - destruct (float_compare_Z y x) as [[]|]; simpl; auto; discriminate.
  - destruct (float_compare_Z x y) as [[]|]; simpl; auto; discriminate.
  - destruct x as [s1| s1| |s1 m1 e1], y as [s2|s2| |s2 m2 e2]; simpl; auto;
      try (destruct s1, s2; simpl; auto; fail);
      try (destruct s1; simpl; auto; fail);
      try (destruct s2; simpl; auto; fail).
    change (Pos.compare_cont Eq m1 m2) with (Pos.compare m1 m2).
    change (Pos.compare_cont Eq m2 m1) with (Pos.compare m2 m1).
    destruct s1, s2; try discriminate;
      destruct (Z.compare_spec e1 e2); try discriminate; subst;
      destruct (Pos.compare_spec m1 m2); try discriminate; subst;
      rewrite Z.compare_refl, Pos.compare_refl; auto.
Qed.

Lemma unique_keys_VDict (d : list (string * value)) :
  unique_keys (VDict d) = true ->
  NoDup (keys d) /\ forall k x, In (k, x) d -> unique_keys x = true.
Proof.
  simpl. intros H. apply andb_prop in H as [Hk Hv]. split.
  - now apply nodupb_NoDup.
  - intros k x Hin. rewrite forallb_forall in Hv. apply (Hv (k, x) Hin).
Qed.

(** [==] is symmetric on values whose objects have distinct keys. *)
Lemma py_eq_sym_true (a : value) :
  unique_keys a = true ->
  forall b, unique_keys b = true -> py_eq a b = true -> py_eq b a = true.
Proof.
  induction a as [| | | | | |l IH|da IH|] using value_nested_ind;
    intros Ha v Hb; destruct v as [| | | | | |ys|db|]; simpl;
    try discriminate; auto; try apply num_eqb_sym.
  - rewrite String.eqb_sym; auto.
  - change (py_eq_list l ys = true -> py_eq_list ys l = true).
    simpl in Ha, Hb. revert ys Hb.
    induction l as [|x l IHl]; intros [|y ys] Hb; simpl; auto.
    inversion IH as [|? ? IHx IHrest]; subst.
    simpl in Ha, Hb.
    apply andb_prop in Ha as [Hx Hl]. apply andb_prop in Hb as [Hy Hys].
    intros H. apply andb_prop in H as [H1 H2].
    rewrite (IHx Hx y Hy H1). simpl. apply IHl; auto.
  - intros H.
    change (py_eq (VDict da) (VDict db) = true) in H.
    change (py_eq (VDict db) (VDict da) = true).
    rewrite py_eq_VDict in *.
    apply andb_prop in H as [Hlen Hall].
    destruct (unique_keys_VDict _ Ha) as [Hnda Hua].
    destruct (unique_keys_VDict _ Hb) as [Hndb Hub].
    rewrite Nat.eqb_sym, Hlen. simpl.
    rewrite forallb_forall in Hall.
    assert (incl (keys da) (keys db)) as Hincl.
    { intros k Hk. apply in_map_iff in Hk as [[k' x] [E Hin]].
      simpl in E; subst k'.
      specialize (Hall _ Hin). unfold py_eq_item in Hall. simpl in Hall.
      destruct (dict_get k db) as [y|] eqn:Eg; [|discriminate].
      apply dict_get_In in Eg. apply in_map_iff. now exists (k, y). }
    assert (incl (keys db) (keys da)) as Hback.
    { apply NoDup_length_incl; auto.
      unfold keys. rewrite !length_map.
      apply Nat.eqb_eq in Hlen. lia. }
    apply forallb_forall. intros [k y] Hin.
    unfold py_eq_item. simpl.
    assert (In k (keys da)) as Hk.
    { apply Hback. apply in_map_iff. now exists (k, y). }
    destruct (In_keys_dict_get _ _ Hk) as [x Ex]. rewrite Ex.
    pose proof (dict_get_In _ _ _ Ex) as Hinx.
    specialize (Hall _ Hinx). unfold py_eq_item in Hall. simpl in Hall.
    rewrite (In_dict_get _ _ _ Hndb Hin) in Hall.
    rewrite Forall_forall in IH.
    apply (IH (k, x) Hinx); eauto.
  - rewrite Nat.eqb_sym; auto.
Qed.

Lemma py_eq_sym (a b : value) :
  unique_keys a = true -> unique_keys b = true -> py_eq a b = py_eq b a.
Proof.
  intros Ha Hb.
  destruct (py_eq a b) eqn:E1, (py_eq b a) eqn:E2; auto.
  - rewrite (py_eq_sym_true a Ha b Hb E1) in E2. discriminate.
  - rewrite (py_eq_sym_true b Hb a Ha E2) in E1. discriminate.
Qed.

(** ** [sorted] *)

Lemma insert_stable_perm (x : value) (l : list value) :
  Permutation (x :: l) (insert_stable x l).
Proof.
  induction l as [|y l IH]; simpl; auto.
  destruct (py_lt y x); auto.
  rewrite perm_swap. now constructor.
Qed.

Lemma sorted_perm (l : list value) : Permutation l (sorted l).
Proof.
  induction l as [|x l IH]; simpl; auto.
  rewrite <- insert_stable_perm. now constructor.
Qed.

Lemma sorted_length (l : list value) : length (sorted l) = length l.
Proof. symmetry. apply Permutation_length, sorted_perm. Qed.

Lemma sorted_unique_keys (l : list value) :
  forallb unique_keys l = true -> unique_keys (VList (sorted l)) = true.
Proof.
  simpl. rewrite !forallb_forall. intros H x Hin. apply H.
  apply (Permutation_in x (Permutation_sym (sorted_perm l)) Hin).
Qed.

Lemma insert_stable_ints (x : Z) (l : list Z) :
  insert_stable (VInt x) (map VInt l) = map VInt (insert_Z x l).
Proof.
  induction l as [|y l IH]; simpl; auto.
  change (num_ltb (NInt y) (NInt x)) with (y <? x)%Z.
  destruct (y <? x)%Z; simpl; auto. now rewrite IH.
Qed.

Lemma sorted_ints (l : list Z) : sorted (map VInt l) = map VInt (sort_Z l).
Proof.
  induction l as [|x l IH]; simpl; auto.
  change (fold_right insert_stable [] (map VInt l)) with (sorted (map VInt l)).
  rewrite IH. apply insert_stable_ints.
Qed.

Lemma insert_Z_perm (x : Z) (l : list Z) : Permutation (x :: l) (insert_Z x l).
Proof.
  induction l as [|y l IH]; simpl; auto.
  destruct (y <? x)%Z; auto.
  rewrite perm_swap. now constructor.
Qed.

Lemma sort_Z_perm (l : list Z) : Permutation l (sort_Z l).
Proof.
  induction l as [|x l IH]; simpl; auto.
  rewrite <- insert_Z_perm. now constructor.
Qed.

Lemma insert_Z_sorted (x : Z) (l : list Z) :
  StronglySorted Z.le l -> StronglySorted Z.le (insert_Z x l).
Proof.
  induction l as [|y l IH]; simpl; intros Hs.
  - repeat constructor.
  - apply StronglySorted_inv in Hs as [Hl Hy].
    destruct (Z.ltb_spec y x) as [Hlt|Hge].
    + constructor; auto.
      rewrite Forall_forall in *. intros z Hz.
      apply (Permutation_in z (Permutation_sym (insert_Z_perm x l))) in Hz.
      destruct Hz as [<-|Hz]; [lia|auto].
    + constructor; [constructor; auto|].
      constructor; auto.
      rewrite Forall_forall in *. intros z Hz. specialize (Hy z Hz). lia.
Qed.

Lemma sort_Z_sorted (l : list Z) : StronglySorted Z.le (sort_Z l).
Proof.
  induction l as [|x l IH]; simpl; [constructor|].
  now apply insert_Z_sorted.
Qed.

Lemma sorted_perm_unique (l1 l2 : list Z) :
  StronglySorted Z.le l1 -> StronglySorted Z.le l2 -> Permutation l1 l2 ->
  l1 = l2.
Proof.
  revert l2. induction l1 as [|a l1 IH]; intros l2 H1 H2 Hp.
  - now apply Permutation_nil in Hp.
  - destruct l2 as [|b l2].
    { apply Permutation_sym, Permutation_nil in Hp. discriminate. }
    apply StronglySorted_inv in H1 as [H1 Ha].
    apply StronglySorted_inv in H2 as [H2 Hb].
    rewrite Forall_forall in Ha, Hb.
    assert (a = b) as ->.
    { assert (In a (b :: l2)) as Hina
        by (apply (Permutation_in a Hp); now left).
      assert (In b (a :: l1)) as Hinb
        by (apply (Permutation_in b (Permutation_sym Hp)); now left).
      destruct Hina as [->|Hina]; auto.
      destruct Hinb as [->|Hinb]; auto.
      specialize (Ha _ Hinb). specialize (Hb _ Hina). lia. }
    f_equal. apply IH; auto. now apply Permutation_cons_inv in Hp.
Qed.

Lemma sort_Z_perm_eq (xs ys : list Z) :
  Permutation xs ys -> sort_Z xs = sort_Z ys.
Proof.
  intros Hp. apply sorted_perm_unique; try apply sort_Z_sorted.
  rewrite <- (sort_Z_perm xs), <- (sort_Z_perm ys). exact Hp.
Qed.

Lemma py_eq_list_ints_refl (l : list Z) :
  py_eq_list (map VInt l) (map VInt l) = true.
Proof.
  induction l as [|x l IH]; simpl; auto.
  unfold num_eqb; simpl. now rewrite Z.compare_refl.
Qed.

(** ** [lists_equivalent] *)

Lemma lists_equivalent_loop_spec (sorted_a pre sorted_b : list value) :
  length sorted_a = length sorted_b ->
  lists_equivalent_loop (pre ++ sorted_b) (length pre) sorted_a
  = Ret (py_eq_list sorted_b sorted_a).
Proof.
  revert pre sorted_b.
  induction sorted_a as [|a sa IH]; intros pre [|b sb] Hlen;
    simpl in Hlen; try discriminate; auto.
  simpl. rewrite nth_error_app2, Nat.sub_diag by lia. simpl.
  unfold py_ne. destruct (py_eq b a); simpl; auto.
  replace (pre ++ b :: sb) with ((pre ++ [b]) ++ sb)
    by now rewrite <- app_assoc.
  replace (S (length pre)) with (length (pre ++ [b]))
    by (rewrite length_app; simpl; lia).
  apply IH. lia.
Qed.

Lemma lists_equivalent_spec (a b : list value) :
  lists_equivalent a b
  = Ret (Nat.eqb (length a) (length b)
         && py_eq (VList (sorted b)) (VList (sorted a))).
Proof.
  unfold lists_equivalent. rewrite py_eq_VList.
  destruct (Nat.eqb (length a) (length b)) eqn:E; cbn [negb andb]; auto.
  apply (lists_equivalent_loop_spec (sorted a) [] (sorted b)).
  rewrite !sorted_length. now apply Nat.eqb_eq.
Qed.

(** C8. [lists_equivalent], the comparison bound into [LIST_SIMILAR] ([~=]),
    holds exactly when the two lists have the same length and their sorted
    copies are equal.  Hence it is commutative (on objects with distinct
    keys, where [==] is symmetric), it ignores the order of the elements
    (any two permutations of a list of integers are equivalent, as
    [[1,2,3] ~= [3,1,2]]), and lists of different lengths are never
    equivalent (as [[1,2]] and [[1,2,2]]).  The predicate built by
    [LIST_SIMILAR] reports exactly this as its validity. *)
Theorem lists_equivalent_order_independent :
  (forall a b,
      lists_equivalent a b
      = Ret (Nat.eqb (length a) (length b)
             && py_eq (VList (sorted b)) (VList (sorted a))))
  /\ (forall a b,
         forallb unique_keys a = true -> forallb unique_keys b = true ->
         lists_equivalent a b = lists_equivalent b a)
  /\ (forall xs ys,
         Permutation xs ys ->
         lists_equivalent (map VInt xs) (map VInt ys) = Ret true)
  /\ lists_equivalent [VInt 1; VInt 2; VInt 3] [VInt 3; VInt 1; VInt 2]
     = Ret true
  /\ (forall a b, length a <> length b -> lists_equivalent a b = Ret false)
  /\ lists_equivalent [VInt 1; VInt 2] [VInt 1; VInt 2; VInt 2] = Ret false
  /\ (forall fuel context a b,
         let p := StandardBinaryPredicate "~=" lists_equivalent_op (VList b)
                    (Some (TClass Clist)) in
         factory_call LIST_SIMILAR (VList b) = Ret p
         /\ call (S fuel) p context (VList a)
            = Ret (PathValueResult p (VList a) "" (mkPathValue "" (VList a))
                     (Nat.eqb (length a) (length b)
                      && py_eq (VList (sorted b)) (VList (sorted a))))).
Proof.
  split; [exact lists_equivalent_spec|].
  split.
  { intros a b Ha Hb. rewrite !lists_equivalent_spec.
    rewrite (Nat.eqb_sym (length a) (length b)).
    rewrite (py_eq_sym (VList (sorted b)) (VList (sorted a)));
      auto using sorted_unique_keys. }
  split.
  { intros xs ys Hp. rewrite lists_equivalent_spec, !length_map.
    rewrite py_eq_VList, !sorted_ints, (sort_Z_perm_eq xs ys Hp).
    now rewrite (Permutation_length Hp), Nat.eqb_refl, py_eq_list_ints_refl. }
  split; [reflexivity|].
  split.
  { intros a b Hne. rewrite lists_equivalent_spec.
    apply Nat.eqb_neq in Hne. now rewrite Hne. }
  split; [reflexivity|].
  intros fuel context a b p. split; [reflexivity|].
  subst p. cbn [call pred_call StandardBinaryPredicate_call].
  unfold eval_context_operand. cbn.
  now rewrite lists_equivalent_spec.
Qed.

(** ** Equality of predicates *)

Lemma pyclass_eqb_eq (c d : pyclass) : pyclass_eqb c d = true <-> c = d.
Proof. split; [destruct c, d; simpl; congruence|intros ->; now destruct d]. Qed.

Lemma type_spec_eqb_eq (s t : type_spec) : type_spec_eqb s t = true <-> s = t.
Proof.
  destruct s as [c|l], t as [d|m]; simpl; try (split; discriminate).
  - rewrite pyclass_eqb_eq. split; congruence.
  - revert m. induction l as [|c l IH]; intros [|d m]; simpl;
      try (split; [discriminate|congruence]); [tauto|].
    rewrite andb_true_iff, pyclass_eqb_eq, IH. split.
    + intros [-> E]. now inversion E.
    + intros E. inversion E. auto.
Qed.

Lemma operand_type_eqb_eq (s t : option type_spec) :
  operand_type_eqb s t = true <-> s = t.
Proof.
  destruct s as [s|], t as [t|]; simpl; try (split; [discriminate|congruence]).
  - rewrite type_spec_eqb_eq. split; congruence.
  - tauto.
Qed.

Lemma pred_class_eqb_eq (c d : pred_class) : pred_class_eqb c d = true <-> c = d.
Proof. split; [destruct c, d; simpl; congruence|intros ->; now destruct d]. Qed.

(** [__eq__] is [BinaryPredicate.__eq__] and the comparison of the flags. *)
Lemma pred_eq_unfold (p q : pred) :
  pred_eq p q = BinaryPredicate_eq p q && flags_eq p q.
Proof.
  destruct p, q; unfold BinaryPredicate_eq; cbn; auto;
    rewrite ?andb_true_r; auto.
  - f_equal. f_equal. unfold pred_dict_eq. f_equal.
    induction operand0 as [|[k x] items IH]; cbn; congruence.
  - now rewrite <- andb_assoc.
Qed.

(** C9, as the code has it.  Two binary predicates are equal exactly when
    they are of the same class and have the same name, equal operands, the
    same operand type and, for [DictMatchesPredicate] and
    [ListMatchesPredicate], the same flags ([strict]; [strict] and
    [unique]).  Two predicates built by one factory from equal operands are
    equal. *)
Theorem pred_eq_iff :
  (forall p q,
      pred_eq p q = true <->
      pred_class_of p = pred_class_of q
      /\ name p = name q
      /\ operand_eq (operand p) (operand q) = true
      /\ operand_type p = operand_type q
      /\ flags_eq p q = true)
  /\ (forall factory o1 o2 p1 p2,
         factory_call factory o1 = Ret p1 ->
         factory_call factory o2 = Ret p2 ->
         py_eq o1 o2 = true ->
         pred_eq p1 p2 = true).
Proof.
  split.
  - intros p q. rewrite pred_eq_unfold. unfold BinaryPredicate_eq.
    rewrite !andb_true_iff, pred_class_eqb_eq, String.eqb_eq,
      operand_type_eqb_eq.
    tauto.
  - intros factory o1 o2 p1 p2. unfold factory_call.
    destruct (BinaryPredicate_init o1 _); try discriminate.
    destruct (BinaryPredicate_init o2 _); try discriminate.
    cbn. intros E1 E2 Heq. inversion E1; inversion E2; subst. cbn.
    rewrite String.eqb_refl, Heq. cbn. now apply operand_type_eqb_eq.
Qed.

(** ** The operand type *)

(** C7.  Under a required operand type [t], the factory rejects a literal
    operand that is not of that type with a [TypeError]; it accepts a
    deferred operand unchecked; when the predicate is evaluated, the operand
    resolved through the context is checked, and one that is not of type [t]
    makes the call raise the same [TypeError] instead of returning a result.
    [DictSubsetPredicate], which requires a [dict], behaves the same way. *)
Theorem operand_type_enforced (factory : StandardBinaryPredicateFactory)
  (t : type_spec) (operand : value) :
  factory_operand_type factory = Some t ->
  let p := StandardBinaryPredicate (predicate_name factory)
             (factory_comparison_op factory) operand (Some t) in
  (callable operand = false -> isinstance operand t = false ->
   factory_call factory operand = Raise TypeError)
  /\ (callable operand = false -> isinstance operand t = true ->
      factory_call factory operand = Ret p)
  /\ (callable operand = true -> factory_call factory operand = Ret p)
  /\ (type_truthy t = true ->
      forall fuel context val,
        (isinstance (eval context operand) t = false ->
         eval_context_operand operand (Some t) context = Raise TypeError
         /\ call (S fuel) p context val = Raise TypeError)
        /\ (isinstance (eval context operand) t = true ->
            eval_context_operand operand (Some t) context
            = Ret (eval context operand)))
  /\ (callable operand = false -> isinstance operand (TClass Cdict) = false ->
      DICT_SUBSET operand = Raise TypeError)
  /\ (callable operand = true ->
      DICT_SUBSET operand = Ret (DictSubsetPredicate operand)
      /\ forall fuel context d,
          isinstance (eval context operand) (TClass Cdict) = false ->
          call (S fuel) (DictSubsetPredicate operand) context (VDict d)
          = Raise TypeError).
Proof.
  intros Ht p. subst p. unfold factory_call, BinaryPredicate_init.
  rewrite Ht.
  split; [intros -> ->; reflexivity|].
  split; [intros -> ->; reflexivity|].
  split; [intros ->; reflexivity|].
  split.
  { intros Htruthy fuel context val.
    cbn [call pred_call].
    unfold StandardBinaryPredicate_call, eval_context_operand, violates.
    rewrite Htruthy.
    split; intros ->; cbn; auto. }
  split.
  { unfold DICT_SUBSET. intros -> ->. reflexivity. }
  intros Hc. unfold DICT_SUBSET, BinaryPredicate_init.
  rewrite Hc, orb_true_r. cbn.
  split; [reflexivity|].
  intros fuel context d Hd.
  unfold DictSubsetPredicate_call, eval_context_operand, violates.
  cbn. simpl in Hd. now rewrite Hd.
Qed.

(** ** [ContainsPredicate] *)

(** The search over a list returns the first valid result. *)
Lemma Contains_search_first
  (invoke : pred -> Context -> value -> outcome result) (self : pred)
  (context : Context) (val : value) (pre post bad_values : list value)
  (x : value) (r : result) :
  Forall (fun e => exists r', invoke self context e = Ret r'
                              /\ valid r' = false) pre ->
  invoke self context x = Ret r -> valid r = true ->
  Contains_search invoke self context val (pre ++ x :: post) bad_values
  = Ret r.
Proof.
  intros Hpre Hx Hv. revert bad_values.
  induction Hpre as [|e pre (r' & He & Hr') _ IH]; intros bad_values; simpl.
  - now rewrite Hx; simpl; rewrite Hv.
  - rewrite He; simpl. rewrite Hr'. apply IH.
Qed.

(** When no element satisfies the predicate, the failure carries all of
    them. *)
Lemma Contains_search_none
  (invoke : pred -> Context -> value -> outcome result) (self : pred)
  (context : Context) (val : value) (elems bad_values : list value) :
  Forall (fun e => exists r', invoke self context e = Ret r'
                              /\ valid r' = false) elems ->
  Contains_search invoke self context val elems bad_values
  = Ret (PathValueResult self val ""
           (mkPathValue "" (VList (bad_values ++ elems))) false).
Proof.
  intros H. revert bad_values.
  induction H as [|e elems (r' & He & Hr') _ IH]; intros bad_values; simpl.
  - now rewrite app_nil_r.
  - rewrite He; simpl. rewrite Hr', IH. now rewrite <- app_assoc.
Qed.

(** C1, as the code has it.  [ContainsPredicate] hands a string to
    [STR_SUBSTR], an object to [DICT_SUBSET], an [int] or a [bool] to
    [NUM_EQ], a list to [LIST_SUBSET] when the operand is a list and to the
    element-wise search otherwise, and raises [NotImplementedError] on
    [None].  A [float] or a [long] is not handed to [NUM_EQ]: the test
    [isinstance(value, int or long or float)] only recognises [int], so the
    call raises [NotImplementedError], as [Contains(2.0)] does on [5.0],
    where [NUM_EQ(2.0)] itself returns an invalid result. *)
Theorem Contains_dispatch (fuel : nat) (operand : value) (context : Context) :
  let self := ContainsPredicate operand in
  (forall s,
      call (S fuel) self context (VStr s)
      = p <- factory_call STR_SUBSTR operand ;; call fuel p context (VStr s))
  /\ (forall d,
         call (S fuel) self context (VDict d)
         = p <- DICT_SUBSET operand ;; call fuel p context (VDict d))
  /\ (forall n,
         call (S fuel) self context (VInt n)
         = p <- factory_call NUM_EQ operand ;; call fuel p context (VInt n))
  /\ (forall b,
         call (S fuel) self context (VBool b)
         = p <- factory_call NUM_EQ operand ;; call fuel p context (VBool b))
  /\ (forall l,
         call (S fuel) self context (VList l)
         = if isinstance operand (TClass Clist)
           then p <- LIST_SUBSET operand false ;; call fuel p context (VList l)
           else Contains_search (call fuel) self context (VList l) l [])
  /\ call (S fuel) self context VNone = Raise NotImplementedError
  /\ (forall x, call (S fuel) self context (VFloat x) = Raise NotImplementedError)
  /\ (forall n, call (S fuel) self context (VLong n) = Raise NotImplementedError)
  /\ (let two := VFloat (S754_finite false 4503599627370496 (-51)) in
      let five := VFloat (S754_finite false 5629499534213120 (-50)) in
      let p := StandardBinaryPredicate "==" (fun a b => Ret (py_eq a b)) two
                 (Some numeric_types) in
      call (S fuel) (CONTAINS two) context five = Raise NotImplementedError
      /\ factory_call NUM_EQ two = Ret p
      /\ call (S fuel) p context five
         = Ret (PathValueResult p five "" (mkPathValue "" five) false)).
Proof.
  cbn. repeat split.
Qed.

(** C10.  A [bool] is an [int] for [isinstance], so [ContainsPredicate] and
    [EquivalentPredicate] take the numeric branch on [True] and [False]
    and never raise [NotImplementedError] there; [Equivalent(1)] is valid on
    [True]. *)
Theorem bool_dispatched_as_number (fuel : nat) (operand : value)
  (context : Context) (b : bool) :
  call (S fuel) (ContainsPredicate operand) context (VBool b)
  = (p <- factory_call NUM_EQ operand ;; call fuel p context (VBool b))
  /\ call (S fuel) (EquivalentPredicate operand) context (VBool b)
     = check_operand_and_call (call fuel) operand context numeric_types
         (VBool b) NUM_EQ
  /\ call fuel (ContainsPredicate operand) context (VBool b)
     <> Raise NotImplementedError
  /\ call fuel (EquivalentPredicate operand) context (VBool b)
     <> Raise NotImplementedError
  /\ call (S (S fuel)) (EQUIVALENT (VInt 1)) context (VBool true)
     = Ret (PathValueResult
              (StandardBinaryPredicate "==" (fun a b => Ret (py_eq a b))
                 (VInt 1) (Some numeric_types))
              (VBool true) "" (mkPathValue "" (VBool true)) true).
Proof.
  split; [reflexivity|]. split; [reflexivity|].
  assert (forall n o,
             (p <- factory_call NUM_EQ o ;; call n p context (VBool b))
             <> Raise NotImplementedError) as Hnum.
  { intros n o. unfold factory_call, BinaryPredicate_init.
    cbn [NUM_EQ factory_operand_type].
    destruct (negb (callable o));
      [destruct (negb (isinstance o numeric_types))|]; cbn;
      try discriminate;
      (destruct n as [|n]; cbn; try discriminate;
       unfold StandardBinaryPredicate_call, eval_context_operand;
       destruct (violates _ _); cbn; discriminate). }
  split.
  { destruct fuel as [|n]; [discriminate|]. apply Hnum. }
  split.
  { destruct fuel as [|n]; [discriminate|].
    cbn [call pred_call]. unfold EquivalentPredicate_call. cbn.
    unfold check_operand_and_call.
    destruct (negb _); [discriminate|apply Hnum]. }
  reflexivity.
Qed.

(** ** [DictMatchesPredicate] *)

Lemma py_eq_VStr_r (v : value) (s : string) :
  py_eq v (VStr s) = true -> v = VStr s.
Proof.
  destruct v; simpl; try discriminate.
  intros H. apply String.eqb_eq in H. now subst.
Qed.

Lemma add_result_get_same (rs : list (value * result)) (k : string)
  (r : result) :
  assoc_get (VStr k) (add_result rs (VStr k) r) = Some r.
Proof.
  induction rs as [|[k0 x] rs IH]; cbn [add_result assoc_get].
  - cbn. now rewrite String.eqb_refl.
  - destruct (py_eq k0 (VStr k)) eqn:E; cbn [assoc_get]; rewrite E; auto.
Qed.

Lemma add_result_get_other (rs : list (value * result)) (k k' : string)
  (r : result) :
  k <> k' ->
  assoc_get (VStr k) (add_result rs (VStr k') r) = assoc_get (VStr k) rs.
Proof.
  intros Hne.
  induction rs as [|[k0 x] rs IH]; cbn [add_result assoc_get].
  - cbn. destruct (String.eqb_spec k' k); congruence.
  - destruct (py_eq k0 (VStr k')) eqn:E; cbn [assoc_get].
    + apply py_eq_VStr_r in E. subst k0. cbn.
      destruct (String.eqb_spec k' k); congruence.
    + now rewrite IH.
Qed.

Lemma update_results_get_other (extra : list (string * result))
  (built : list (value * result)) (k : string) :
  ~ In k (keys extra) ->
  assoc_get (VStr k) (update_results built extra) = assoc_get (VStr k) built.
Proof.
  revert built. induction extra as [|[k1 e1] extra IH]; intros built Hk; auto.
  unfold update_results in *. cbn [fold_left fst snd].
  rewrite IH.
  - apply add_result_get_other. intros ->. apply Hk. now left.
  - intros Hin. apply Hk. now right.
Qed.

(** An entry merged by [update_results] is found under its key. *)
Lemma update_results_get (extra : list (string * result))
  (built : list (value * result)) (k : string) (e : result) :
  NoDup (keys extra) -> In (k, e) extra ->
  assoc_get (VStr k) (update_results built extra) = Some e.
Proof.
  revert built. induction extra as [|[k1 e1] extra IH]; intros built Hnd Hin.
  - contradiction.
  - inversion Hnd as [|? ? Hk1 Hnd']; subst.
    destruct Hin as [E|Hin].
    + inversion E; subst.
      unfold update_results. cbn [fold_left fst snd].
      fold (update_results (add_result built (VStr k) e) extra).
      rewrite update_results_get_other by exact Hk1.
      apply add_result_get_same.
    + unfold update_results. cbn [fold_left fst snd].
      apply IH; auto.
Qed.

Lemma find_unexpected_In (expect_keys : list value) (source : value)
  (items : list (string * value)) (k : string) (e : result) :
  In (k, e) (find_unexpected_path_errors expect_keys source items) <->
  exists v, In (k, v) items
            /\ py_in (VStr k) expect_keys = false
            /\ e = UnexpectedPathError source k (mkPathValue k v).
Proof.
  induction items as [|[k0 v0] items IH]; cbn [find_unexpected_path_errors].
  - split; [contradiction|intros (v & [] & _)].
  - destruct (py_in (VStr k0) expect_keys) eqn:E; cbn [negb].
    + rewrite IH. split; intros (v & Hin & Hk & He); exists v; repeat split; auto.
      * now right.
      * destruct Hin as [Heq|Hin]; auto. inversion Heq; subst. congruence.
    + split.
      * intros [Heq|Hin].
        { inversion Heq; subst. exists v0. repeat split; auto. now left. }
        { apply IH in Hin as (v & Hin & Hk & He). exists v.
          repeat split; auto. now right. }
      * intros (v & [Heq|Hin] & Hk & He).
        { inversion Heq; subst. now left. }
        { right. apply IH. now exists v. }
Qed.

Lemma find_unexpected_NoDup (expect_keys : list value) (source : value)
  (items : list (string * value)) :
  NoDup (keys items) ->
  NoDup (keys (find_unexpected_path_errors expect_keys source items)).
Proof.
  induction items as [|[k0 v0] items IH]; cbn [find_unexpected_path_errors];
    intros Hnd; auto.
  inversion Hnd as [|? ? Hk Hnd']; subst.
  destruct (negb (py_in (VStr k0) expect_keys)); auto.
  cbn. constructor; auto.
  intros Hin. apply Hk.
  apply in_map_iff in Hin as [[k e] [Heq Hin]]. cbn in Heq; subst k.
  apply find_unexpected_In in Hin as (v & Hin & _).
  apply in_map_iff. now exists (k0, v).
Qed.

(** The running [valid] of the field loop is the conjunction of the
    validity of every field's result. *)
Lemma DictMatches_fields_valid
  (invoke : pred -> Context -> value -> outcome result)
  (items : list (value * pred)) (context : Context) (val : value)
  (built built' : list (value * result)) (valid0 valid' : bool) :
  DictMatches_fields invoke items context val built valid0
  = Ret (built', valid') ->
  valid' = true <->
  valid0 = true
  /\ forall key pred, In (key, pred) items ->
       exists r, PathPredicate invoke key pred context val = Ret r
                 /\ valid r = true.
Proof.
  revert built valid0.
  induction items as [|[key pred] items IH]; intros built valid0;
    cbn [DictMatches_fields].
  - intros E. inversion E; subst. split; [intros ->|tauto].
    split; auto. intros ? ? [].
  - destruct (PathPredicate invoke key pred context val) as [r| |] eqn:Er;
      cbn [bind]; try discriminate.
    intros E. apply IH in E. rewrite E. clear E IH.
    split.
    + intros [Hv Hall]. destruct (valid r) eqn:Hr; cbn in Hv; try discriminate.
      split; auto. intros key' pred' [Heq|Hin]; auto.
      inversion Heq; subst. eauto.
    + intros [Hv Hall]. split.
      * destruct (Hall key pred (or_introl eq_refl)) as (r' & Er' & Hr').
        rewrite Er in Er'. inversion Er'; subst. now rewrite Hr'.
      * intros key' pred' Hin. apply Hall. now right.
Qed.

(** C4.  Once the per-field predicates have returned their results:
    without [strict] the result carries exactly those results and is valid
    when all of them are; with [strict], every key of the value that is not
    a key of the operand is recorded as an [UnexpectedPathError] merged into
    the results and the result is invalid, and when there is no such key
    nothing is added and the result is that of the non-strict match. *)
Theorem DictMatches_strictness (fuel : nat) (operand : list (value * pred))
  (context : Context) (d : list (string * value))
  (built : list (value * result)) (valid0 : bool) :
  DictMatches_fields (call fuel) operand context (VDict d) [] true
  = Ret (built, valid0) ->
  NoDup (keys d) ->
  let unexpected k := In k (keys d) /\ py_in (VStr k) (keys operand) = false in
  (call (S fuel) (DictMatchesPredicate operand false) context (VDict d)
   = Ret (KeyedPredicateResult (DictMatchesPredicate operand false) built
            valid0)
   /\ (valid0 = true <->
       forall key pred, In (key, pred) operand ->
         exists r, PathPredicate (call fuel) key pred context (VDict d) = Ret r
                   /\ valid r = true))
  /\ ((exists k, unexpected k) ->
      exists entries,
        call (S fuel) (DictMatchesPredicate operand true) context (VDict d)
        = Ret (KeyedPredicateResult (DictMatchesPredicate operand true)
                 entries false)
        /\ forall k v, In (k, v) d -> py_in (VStr k) (keys operand) = false ->
             assoc_get (VStr k) entries
             = Some (UnexpectedPathError (VDict d) k (mkPathValue k v)))
  /\ ((forall k, ~ unexpected k) ->
      call (S fuel) (DictMatchesPredicate operand true) context (VDict d)
      = Ret (KeyedPredicateResult (DictMatchesPredicate operand true) built
               valid0)).
Proof.
  intros Hfields Hnd unexpected.
  cbn [call pred_call]. unfold DictMatchesPredicate_call.
  rewrite Hfields. cbn [bind].
  split.
  { split; auto.
    rewrite (DictMatches_fields_valid _ _ _ _ _ _ _ _ Hfields). tauto. }
  pose (errors := find_unexpected_path_errors (keys operand) (VDict d) d).
  fold errors.
  split.
  - intros (k & Hk & Hnot).
    apply in_map_iff in Hk as [[k' v] [Heq Hin]]. cbn in Heq; subst k'.
    assert (In (k, UnexpectedPathError (VDict d) k (mkPathValue k v)) errors)
      as Herr by (apply find_unexpected_In; eauto).
    destruct errors as [|e0 errors'] eqn:Eerr; [contradiction|].
    rewrite <- Eerr in *. clear Herr.
    eexists. split; [reflexivity|].
    intros k1 v1 Hin1 Hnot1.
    apply update_results_get.
    + now apply find_unexpected_NoDup.
    + apply find_unexpected_In. eauto.
  - intros Hnone.
    destruct errors as [|[k e] errors'] eqn:Eerr; auto.
    exfalso.
    assert (In (k, e) errors) as Hin by (rewrite Eerr; now left).
    apply find_unexpected_In in Hin as (v & Hin & Hnot & _).
    apply (Hnone k). split; auto.
    apply in_map_iff. now exists (k, v).
Qed.

(** ** [ListMatchesPredicate] *)

Lemma map_results_length
  (invoke : pred -> Context -> value -> outcome result) (p : pred)
  (context : Context) (l : list value) (rs : list result) :
  map_results invoke p context l = Ret rs -> length rs = length l.
Proof.
  revert rs. induction l as [|x l IH]; intros rs; cbn [map_results].
  - intros E. now inversion E.
  - destruct (invoke p context x); cbn [bind]; try discriminate.
    destruct (map_results invoke p context l); cbn [bind]; try discriminate.
    intros E. inversion E; subst. cbn. f_equal. now apply IH.
Qed.

Lemma MapPredicate_inv
  (invoke : pred -> Context -> value -> outcome result) (p : pred)
  (max : option nat) (context : Context) (l : list value) (r : result) :
  MapPredicate invoke p max context l = Ret r ->
  exists rs,
    map_results invoke p context l = Ret rs
    /\ length rs = length l
    /\ r = MapPredicateResult p rs
             (Nat.leb 1 (count_valid rs)
              && match max with
                 | Some m => Nat.leb (count_valid rs) m
                 | None => true
                 end).
Proof.
  unfold MapPredicate.
  destruct (map_results invoke p context l) as [rs| |] eqn:E; cbn [bind];
    try discriminate.
  intros H. inversion H; subst. exists rs.
  repeat split; auto. eapply map_results_length; eauto.
Qed.

Lemma bump_counts_spec (rs : list result) (counts : list nat) (index : nat) :
  index + length counts <= length rs ->
  exists counts',
    bump_counts rs index counts = Ret counts'
    /\ length counts' = length counts
    /\ forall j c, nth_error counts j = Some c ->
         nth_error counts' j
         = Some (c + if valid_at rs (index + j) then 1 else 0).
Proof.
  revert index. induction counts as [|c0 counts IH]; intros index Hlen;
    cbn [bump_counts].
  - exists []. repeat split; auto. intros [|j] c; discriminate.
  - cbn [length] in Hlen.
    destruct (nth_error rs index) as [r|] eqn:Er.
    2:{ apply nth_error_None in Er. lia. }
    destruct (IH (S index)) as (rest' & Eb & Hl & Hnth); [lia|].
    rewrite Eb. cbn [bind].
    eexists. split; [reflexivity|]. split; [cbn; now rewrite Hl|].
    intros [|j] c Hj; cbn in Hj |- *.
    + inversion Hj; subst. unfold valid_at.
      now rewrite Nat.add_0_r, Er.
    + rewrite (Hnth j c Hj). now rewrite Nat.add_succ_r.
Qed.

(** What the loop over the patterns computes: one [MapPredicate] result per
    pattern, the conjunction of their validity, and for every index the
    number of patterns that the element satisfied. *)
Lemma ListMatches_patterns_spec
  (invoke : pred -> Context -> value -> outcome result)
  (max_count : option nat) (context : Context) (l : list value)
  (patterns : list pred) :
  forall built valid0 counts built' valid' counts',
    length counts = length l ->
    ListMatches_patterns invoke patterns max_count context l built valid0
      counts = Ret (built', valid', counts') ->
    exists rs,
      Forall2 (fun p r => MapPredicate invoke p max_count context l = Ret r)
        patterns rs
      /\ built' = built ++ rs
      /\ valid' = valid0 && forallb valid rs
      /\ length counts' = length l
      /\ forall j c, nth_error counts j = Some c ->
           nth_error counts' j = Some (c + length (filter (matched_at j) rs)).
Proof.
  induction patterns as [|p patterns IH];
    intros built valid0 counts built' valid' counts' Hlen;
    cbn [ListMatches_patterns].
  - intros E. inversion E; subst. exists [].
    rewrite app_nil_r, andb_true_r. repeat split; auto.
    intros j c Hj. cbn. now rewrite Nat.add_0_r.
  - destruct (MapPredicate invoke p max_count context l) as [r| |] eqn:Em;
      cbn [bind]; try discriminate.
    destruct (MapPredicate_inv _ _ _ _ _ _ Em) as (rs0 & _ & Hl0 & Hr).
    destruct (bump_counts_spec (results r) counts 0)
      as (counts1 & Eb & Hl1 & Hnth1).
    { subst r. cbn. lia. }
    rewrite Eb. cbn [bind]. intros E.
    apply IH in E as (rs & HF & Hb & Hv & Hl & Hnth); [|lia].
    exists (r :: rs). split; [now constructor|].
    split; [now rewrite Hb, <- app_assoc|].
    split.
    { rewrite Hv. cbn [forallb]. destruct (valid r); cbn; auto.
      now rewrite andb_false_r. }
    split; auto.
    intros j c Hj. rewrite (Hnth j _ (Hnth1 j c Hj)). f_equal.
    cbn [filter]. unfold matched_at at 2. cbn [Nat.add].
    destruct (valid_at (results r) j); cbn [length]; lia.
Qed.

Lemma ListMatches_patterns_returns
  (invoke : pred -> Context -> value -> outcome result)
  (max_count : option nat) (context : Context) (l : list value)
  (patterns : list pred) :
  forall built valid0 counts,
    length counts = length l ->
    (forall p, In p patterns ->
       exists r, MapPredicate invoke p max_count context l = Ret r) ->
    exists st,
      ListMatches_patterns invoke patterns max_count context l built valid0
        counts = Ret st.
Proof.
  induction patterns as [|p patterns IH]; intros built valid0 counts Hlen Hall;
    cbn [ListMatches_patterns].
  - eauto.
  - destruct (Hall p (or_introl eq_refl)) as (r & Em). rewrite Em.
    cbn [bind].
    destruct (MapPredicate_inv _ _ _ _ _ _ Em) as (rs0 & _ & Hl0 & Hr).
    destruct (bump_counts_spec (results r) counts 0)
      as (counts1 & Eb & Hl1 & _).
    { subst r. cbn. lia. }
    rewrite Eb. cbn [bind]. apply IH; [lia|].
    intros q Hq. apply Hall. now right.
Qed.

Lemma find_strictness_errors_spec (source : value) (l : list value)
  (counts : list nat) (index : nat) :
  index + length counts <= length l ->
  exists errors,
    find_strictness_errors source l index counts = Ret errors
    /\ (forall j, nth_error counts j = Some 0 ->
          exists elem,
            nth_error l (index + j) = Some elem
            /\ In (UnexpectedPathError source (format_index (index + j))
                     (mkPathValue (format_index (index + j)) elem)) errors)
    /\ ((forall j, nth_error counts j <> Some 0) -> errors = []).
Proof.
  revert index. induction counts as [|c counts IH]; intros index Hlen;
    cbn [find_strictness_errors].
  - exists []. repeat split; auto. intros [|j]; discriminate.
  - cbn [length] in Hlen.
    destruct (IH (S index)) as (errors & Ef & Hin & Hnone); [lia|].
    rewrite Ef.
    destruct (nth_error l index) as [elem|] eqn:El.
    2:{ apply nth_error_None in El. lia. }
    destruct c as [|c]; cbn [Nat.eqb bind].
    + eexists. split; [reflexivity|]. split.
      * intros [|j] Hj.
        { exists elem. rewrite Nat.add_0_r. split; auto. now left. }
        { destruct (Hin j Hj) as (e & He & Hine).
          exists e. rewrite Nat.add_succ_r. split; auto. now right. }
      * intros Hno. exfalso. now apply (Hno 0).
    + exists errors. split; [reflexivity|]. split.
      * intros [|j] Hj; [discriminate|].
        destruct (Hin j Hj) as (e & He & Hine).
        exists e. rewrite Nat.add_succ_r. split; auto.
      * intros Hno. apply Hnone. intros j. apply (Hno (S j)).
Qed.

Lemma nth_error_repeat_0 (n j : nat) :
  j < n -> nth_error (repeat 0 n) j = Some 0.
Proof.
  revert j. induction n as [|n IH]; intros [|j] Hj; try lia; cbn; auto.
  apply IH. lia.
Qed.

(** C3.  With [strict], once the patterns have been applied, every index
    whose counter is still zero (the element satisfied no pattern) yields an
    [UnexpectedPathError] on path [[index]], appended to the results, and
    the result is invalid.  So [ListMatches([p1], strict=True)] on [[x, y]],
    where [p1] holds of [x] only, is invalid with the error on [[1]]. *)
Theorem ListMatches_strict_unmatched (fuel : nat) (context : Context)
  (unique : bool) :
  (forall patterns l built valid0 counts,
      ListMatches_patterns (call fuel) patterns
        (if unique then Some 1 else None) context l [] true
        (repeat 0 (length l)) = Ret (built, valid0, counts) ->
      exists errors,
        call (S fuel) (ListMatchesPredicate patterns true unique) context
          (VList l)
        = Ret (SequencedPredicateResult
                 (ListMatchesPredicate patterns true unique)
                 (built ++ errors)
                 (match errors with [] => valid0 | _ :: _ => false end))
        /\ (forall index, index < length l ->
              (nth_error counts index = Some 0 <->
               Forall (fun r => matched_at index r = false) built))
        /\ (forall index, nth_error counts index = Some 0 ->
              errors <> []
              /\ exists elem,
                   nth_error l index = Some elem
                   /\ In (UnexpectedPathError (VList l) (format_index index)
                            (mkPathValue (format_index index) elem)) errors))
  /\ (forall p1 x y rx ry,
         call fuel p1 context x = Ret rx -> valid rx = true ->
         call fuel p1 context y = Ret ry -> valid ry = false ->
         call (S fuel) (ListMatchesPredicate [p1] true unique) context
           (VList [x; y])
         = Ret (SequencedPredicateResult
                  (ListMatchesPredicate [p1] true unique)
                  [MapPredicateResult p1 [rx; ry] true;
                   UnexpectedPathError (VList [x; y]) "[1]"
                     (mkPathValue "[1]" y)]
                  false)).
Proof.
  split.
  - intros patterns l built valid0 counts Hloop.
    cbn [call pred_call]. unfold ListMatchesPredicate_call.
    rewrite Hloop. cbn [bind].
    apply ListMatches_patterns_spec in Hloop
      as (rs & _ & Hb & _ & Hl & Hnth); [|apply repeat_length].
    cbn [app] in Hb. subst built.
    destruct (find_strictness_errors_spec (VList l) l counts 0)
      as (errors & Ef & Hin & _); [lia|].
    rewrite Ef. cbn [bind]. exists errors. split.
    { destruct errors; auto. now rewrite app_nil_r. }
    split.
    + intros index Hidx.
      rewrite (Hnth index 0 (nth_error_repeat_0 _ _ Hidx)). cbn [Nat.add].
      split.
      * intros E. inversion E as [E0]. apply length_zero_iff_nil in E0.
        apply Forall_forall. intros r Hr.
        destruct (matched_at index r) eqn:Em; auto.
        assert (In r (filter (matched_at index) rs)) as Hf
          by (apply filter_In; auto).
        rewrite E0 in Hf. contradiction.
      * intros HF. f_equal. apply length_zero_iff_nil. clear - HF.
        induction HF as [|r rs' Hr _ IH]; cbn [filter]; auto.
        now rewrite Hr.
    + intros index Hz. destruct (Hin index Hz) as (elem & He & Hine).
      split; [intros ->; contradiction|]. eauto.
  - intros p1 x y rx ry Hx Hvx Hy Hvy.
    cbn [call pred_call]. unfold ListMatchesPredicate_call.
    cbn [ListMatches_patterns length repeat].
    unfold MapPredicate. cbn [map_results]. rewrite Hx, Hy. cbn [bind].
    unfold count_valid. cbn [filter]. rewrite Hvx, Hvy.
    destruct unique; cbn; rewrite Hvx, Hvy; reflexivity.
Qed.

Lemma Forall2_pick_l {A B : Type} (R : A -> B -> Prop) (l1 : list A)
  (l2 : list B) (x : A) :
  Forall2 R l1 l2 -> In x l1 -> exists y, In y l2 /\ R x y.
Proof.
  induction 1 as [|a b l1 l2 Hab _ IH]; intros Hin; [contradiction|].
  destruct Hin as [->|Hin].
  - exists b. split; auto. now left.
  - destruct (IH Hin) as (y & Hy & HR). exists y. split; auto. now right.
Qed.

Lemma Forall2_pick_r {A B : Type} (R : A -> B -> Prop) (l1 : list A)
  (l2 : list B) (y : B) :
  Forall2 R l1 l2 -> In y l2 -> exists x, In x l1 /\ R x y.
Proof.
  induction 1 as [|a b l1 l2 Hab _ IH]; intros Hin; [contradiction|].
  destruct Hin as [->|Hin].
  - exists a. split; auto. now left.
  - destruct (IH Hin) as (x & Hx & HR). exists x. split; auto. now right.
Qed.

(** C2.  With [unique], the bound is per pattern.  The result is invalid as
    soon as one pattern is satisfied by two or more elements.  When every
    pattern is satisfied by exactly one element the result (without
    [strict]) is valid, whether or not one element serves several patterns:
    [[== 1]] on [[1, 1]] is invalid, [[== 1, == 2]] on [[1, 2]] is valid, and
    [[== 1, Contains 1]] on [[1]], where the one element satisfies both
    patterns, is valid. *)
Theorem ListMatches_unique_per_pattern (fuel : nat) (context : Context) :
  (forall patterns strict l r,
      call (S fuel) (ListMatchesPredicate patterns strict true) context
        (VList l) = Ret r ->
      forall p rs,
        In p patterns ->
        map_results (call fuel) p context l = Ret rs ->
        2 <= count_valid rs ->
        valid r = false)
  /\ (forall patterns l,
         (forall p, In p patterns ->
            exists rs, map_results (call fuel) p context l = Ret rs
                       /\ count_valid rs = 1) ->
         exists entries,
           call (S fuel) (ListMatchesPredicate patterns false true) context
             (VList l)
           = Ret (SequencedPredicateResult
                    (ListMatchesPredicate patterns false true) entries true))
  /\ (exists entries,
         call (S (S (S fuel)))
           (ListMatchesPredicate [EQUIVALENT (VInt 1)] false true) context
           (VList [VInt 1; VInt 1])
         = Ret (SequencedPredicateResult
                  (ListMatchesPredicate [EQUIVALENT (VInt 1)] false true)
                  entries false))
  /\ (exists entries,
         call (S (S (S fuel)))
           (ListMatchesPredicate [EQUIVALENT (VInt 1); EQUIVALENT (VInt 2)]
              false true) context (VList [VInt 1; VInt 2])
         = Ret (SequencedPredicateResult
                  (ListMatchesPredicate
                     [EQUIVALENT (VInt 1); EQUIVALENT (VInt 2)] false true)
                  entries true))
  /\ (exists entries,
         call (S (S (S fuel)))
           (ListMatchesPredicate [EQUIVALENT (VInt 1); CONTAINS (VInt 1)]
              false true) context (VList [VInt 1])
         = Ret (SequencedPredicateResult
                  (ListMatchesPredicate
                     [EQUIVALENT (VInt 1); CONTAINS (VInt 1)] false true)
                  entries true)).
Proof.
  split.
  { intros patterns strict l r Hcall p rs Hp Hmap Hcount.
    cbn [call pred_call] in Hcall. unfold ListMatchesPredicate_call in Hcall.
    destruct (ListMatches_patterns (call fuel) patterns (Some 1) context l []
                true (repeat 0 (length l)))
      as [[[built valid0] counts]| |] eqn:Hloop; cbn [bind] in Hcall;
      try discriminate.
    apply ListMatches_patterns_spec in Hloop
      as (rs_all & HF & _ & Hv & _); [|apply repeat_length].
    assert (valid0 = false) as ->.
    { rewrite Hv. cbn [andb].
      destruct (Forall2_pick_l _ _ _ _ HF Hp) as (rp & Hin & Hm).
      apply MapPredicate_inv in Hm as (rs' & Hmap' & _ & ->).
      rewrite Hmap in Hmap'. inversion Hmap'; subst rs'.
      destruct (forallb valid rs_all) eqn:Hall; auto.
      rewrite forallb_forall in Hall. specialize (Hall _ Hin).
      cbn in Hall. apply andb_prop in Hall as [_ Hle].
      apply Nat.leb_le in Hle. lia. }
    destruct strict.
    - destruct (find_strictness_errors (VList l) l 0 counts) as [errors| |];
        cbn [bind] in Hcall; try discriminate.
      destruct errors; inversion Hcall; reflexivity.
    - inversion Hcall; reflexivity. }
  split.
  { intros patterns l Hall.
    cbn [call pred_call]. unfold ListMatchesPredicate_call.
    assert (forall p, In p patterns ->
              exists r, MapPredicate (call fuel) p (Some 1) context l = Ret r
                        /\ valid r = true) as Hmap.
    { intros p Hp. destruct (Hall p Hp) as (rs & Hrs & Hc).
      unfold MapPredicate. rewrite Hrs. cbn [bind]. rewrite Hc.
      eexists. split; reflexivity. }
    destruct (ListMatches_patterns_returns (call fuel) (Some 1) context l
                patterns [] true (repeat 0 (length l)))
      as ([[built valid0] counts] & Hloop).
    { apply repeat_length. }
    { intros p Hp. destruct (Hmap p Hp) as (r & Hr & _). eauto. }
    rewrite Hloop. cbn [bind].
    apply ListMatches_patterns_spec in Hloop
      as (rs_all & HF & _ & Hv & _); [|apply repeat_length].
    assert (valid0 = true) as ->.
    { rewrite Hv. cbn [andb]. apply forallb_forall. intros r Hr.
      destruct (Forall2_pick_r _ _ _ _ HF Hr) as (p & Hp & Hm).
      destruct (Hmap p Hp) as (r' & Hr' & Hvalid).
      rewrite Hm in Hr'. inversion Hr'; subst. exact Hvalid. }
    eauto. }
  split; [eexists; reflexivity|].
  split; [eexists; reflexivity|].
  eexists; reflexivity.
Qed.

(** ** [DictSubsetPredicate] *)

Lemma clone_with_source_valid (r : result) (source : value)
  (base_target_path base_value_path : string) :
  valid (clone_with_source r source base_target_path base_value_path)
  = valid r.
Proof. now destruct r. Qed.

Section IsSubset.

Variable invoke : pred -> Context -> value -> outcome result.
Variable context : Context.

(** [_is_subset] on an operand with a single field. *)
Lemma is_subset_single (self : pred) (source : value) (path name : string)
  (a_value : value) (b_items : list (string * value)) :
  is_subset invoke self context source path (VDict [(name, a_value)])
    (VDict b_items)
  = let b := VDict b_items in
    let namepath := namepath_of path name in
    let done := Ret (PathValueResult self source path (mkPathValue path b)
                       true) in
    match dict_get name b_items with
    | None => Ret (MissingPathError source namepath (mkPathValue path b))
    | Some b_value =>
        if isinstance b_value (TClass Cdict) then
          r <- is_subset invoke self context source namepath a_value b_value ;;
          if negb (valid r) then Ret r else done
        else if isinstance b_value (TClass Clist) then
          elem_pred <- (if isinstance a_value (TClass Clist)
                        then LIST_SUBSET a_value false
                        else Ret (CONTAINS a_value)) ;;
          r <- invoke elem_pred context b_value ;;
          if negb (valid r)
          then Ret (clone_with_source r source namepath name)
          else done
        else if py_ne (eval context a_value) b_value then
          is_subset_mismatch source path namepath (eval context a_value) b
            b_value
        else done
    end.
Proof. reflexivity. Qed.

Lemma is_subset_mismatch_invalid (source : value) (path namepath : string)
  (a_value b b_value : value) :
  exists r,
    is_subset_mismatch source path namepath a_value b b_value = Ret r
    /\ valid r = false /\ target_path r = namepath.
Proof.
  unfold is_subset_mismatch.
  destruct (isinstance b_value (TClass Cbasestring)).
  - destruct (isinstance a_value (TClass Cbasestring)) eqn:Ea; cbn [negb].
    + unfold factory_call, BinaryPredicate_init. cbn [STR_EQ factory_operand_type].
      rewrite Ea. destruct (negb (callable a_value)); cbn; eauto.
    + eauto.
  - destruct (isinstance b_value numeric_types).
    + destruct (isinstance a_value numeric_types) eqn:Ea; cbn [negb].
      * unfold factory_call, BinaryPredicate_init.
        cbn [NUM_EQ factory_operand_type].
        rewrite Ea. destruct (negb (callable a_value)); cbn; eauto.
      * eauto.
    + cbn. eauto.
Qed.

(** A single field either passes, with the success result of the whole
    walk, or fails with an invalid result. *)
Lemma is_subset_single_valid (self : pred) (source : value)
  (path name : string) (a_value : value) (b_items : list (string * value))
  (r : result) :
  is_subset invoke self context source path (VDict [(name, a_value)])
    (VDict b_items) = Ret r ->
  valid r = true ->
  r = PathValueResult self source path (mkPathValue path (VDict b_items)) true.
Proof.
  rewrite is_subset_single. cbv zeta.
  destruct (dict_get name b_items) as [b_value|].
  2:{ intros E; inversion E; subst; discriminate. }
  destruct (isinstance b_value (TClass Cdict)).
  { destruct (is_subset _ _ _ _ _ a_value b_value) as [r'| |];
      cbn [bind]; try discriminate.
    destruct (valid r') eqn:Hr'; cbn [negb]; intros E; inversion E; subst;
      congruence. }
  destruct (isinstance b_value (TClass Clist)).
  { destruct (if isinstance a_value (TClass Clist) then _ else _)
      as [elem_pred| |]; cbn [bind]; try discriminate.
    destruct (invoke elem_pred context b_value) as [r'| |]; cbn [bind];
      try discriminate.
    destruct (valid r') eqn:Hr'; cbn [negb]; intros E; inversion E; subst; auto.
    rewrite clone_with_source_valid. congruence. }
  destruct (py_ne (eval context a_value) b_value).
  { destruct (is_subset_mismatch_invalid source path (namepath_of path name)
                (eval context a_value) (VDict b_items) b_value)
      as (r' & -> & Hr' & _).
    intros E; inversion E; subst; congruence. }
  intros E; inversion E; auto.
Qed.

(** The walk checks the first field, and goes on only if it passes. *)
Lemma is_subset_cons (self : pred) (source : value) (path name : string)
  (a_value : value) (items b_items : list (string * value)) :
  is_subset invoke self context source path (VDict ((name, a_value) :: items))
    (VDict b_items)
  = r <- is_subset invoke self context source path (VDict [(name, a_value)])
           (VDict b_items) ;;
    if valid r
    then is_subset invoke self context source path (VDict items)
           (VDict b_items)
    else Ret r.
Proof.
  rewrite is_subset_single. cbv zeta.
  cbn [is_subset].
  destruct (dict_get name b_items) as [b_value|]; [|reflexivity].
  destruct (isinstance b_value (TClass Cdict)).
  { destruct (is_subset _ _ _ _ _ a_value b_value) as [r'| |];
      cbn [bind]; try reflexivity.
    destruct (valid r') eqn:Hr'; cbn [negb bind valid]; try reflexivity.
    now rewrite Hr'. }
  destruct (isinstance b_value (TClass Clist)).
  { destruct (if isinstance a_value (TClass Clist) then _ else _)
      as [elem_pred| |]; cbn [bind]; try reflexivity.
    destruct (invoke elem_pred context b_value) as [r'| |]; cbn [bind];
      try reflexivity.
    destruct (valid r') eqn:Hr'; cbn [negb bind valid]; try reflexivity.
    now rewrite clone_with_source_valid, Hr'. }
  destruct (py_ne (eval context a_value) b_value); [|reflexivity].
  destruct (is_subset_mismatch_invalid source path (namepath_of path name)
              (eval context a_value) (VDict b_items) b_value)
    as (r' & -> & Hr' & _).
  cbn [bind]. now rewrite Hr'.
Qed.

(** The walk over [pre ++ post] is the walk over [pre], followed by the
    walk over [post] only if [pre] passes: the first failure is returned. *)
Lemma is_subset_app (self : pred) (source : value) (path : string)
  (pre post b_items : list (string * value)) :
  is_subset invoke self context source path (VDict (pre ++ post))
    (VDict b_items)
  = r <- is_subset invoke self context source path (VDict pre)
           (VDict b_items) ;;
    if valid r
    then is_subset invoke self context source path (VDict post)
           (VDict b_items)
    else Ret r.
Proof.
  induction pre as [|[name a_value] pre IH].
  - reflexivity.
  - cbn [app].
    rewrite (is_subset_cons self source path name a_value (pre ++ post)).
    rewrite (is_subset_cons self source path name a_value pre), IH.
    destruct (is_subset invoke self context source path
                (VDict [(name, a_value)]) (VDict b_items)) as [r1| |];
      cbn [bind]; try reflexivity.
    destruct (valid r1) eqn:Hr1; [reflexivity|].
    cbn [bind]. now rewrite Hr1.
Qed.

End IsSubset.

Lemma isinstance_dict_inv (v : value) :
  isinstance v (TClass Cdict) = true -> exists d, v = VDict d.
Proof. destruct v; cbn; try discriminate. eauto. Qed.

Lemma isinstance_list_inv (v : value) :
  isinstance v (TClass Clist) = true -> exists l, v = VList l.
Proof. destruct v; cbn; try discriminate. eauto. Qed.

Lemma dict_get_remove_same {A : Type} (name : string) (d : list (string * A)) :
  dict_get name (dict_remove name d) = None.
Proof.
  induction d as [|[k v] d IH]; cbn; auto.
  destruct (String.eqb k name) eqn:E; auto. cbn. now rewrite E.
Qed.

Lemma dict_get_remove_other {A : Type} (name k : string)
  (d : list (string * A)) :
  name <> k -> dict_get name (dict_remove k d) = dict_get name d.
Proof.
  intros Hne. induction d as [|[k0 v] d IH]; cbn; auto.
  destruct (String.eqb_spec k0 k) as [->|Hk].
  - rewrite IH. destruct (String.eqb_spec k name); congruence.
  - cbn. now rewrite IH.
Qed.

(** A walk that passes still passes, with the same fields found, when it is
    run for another predicate object, another source, and another object
    that has the same values under the operand's field names. *)
Lemma is_subset_pass_transfer
  (invoke : pred -> Context -> value -> outcome result) (context : Context)
  (a : value) :
  forall self self' source source' path b_items b_items' r,
    (forall name, In name (field_names a) ->
       dict_get name b_items' = dict_get name b_items) ->
    is_subset invoke self context source path a (VDict b_items) = Ret r ->
    valid r = true ->
    is_subset invoke self' context source' path a (VDict b_items')
    = Ret (PathValueResult self' source' path
             (mkPathValue path (VDict b_items')) true).
Proof.
  induction a as [| | | | | | |a_items IH|] using value_nested_ind;
    try (intros; discriminate).
  induction a_items as [|[name a_value] items IHitems];
    intros self self' source source' path b_items b_items' r Hagree H Hr.
  - reflexivity.
  - inversion IH as [|? ? IHa IHrest]; subst. cbn [snd] in IHa.
    rewrite is_subset_cons in H. rewrite is_subset_cons.
    destruct (is_subset invoke self context source path
                (VDict [(name, a_value)]) (VDict b_items))
      as [r1| |] eqn:Es; cbn [bind] in H; try discriminate.
    destruct (valid r1) eqn:Hr1; [|inversion H; subst; congruence].
    assert (is_subset invoke self' context source' path
              (VDict [(name, a_value)]) (VDict b_items')
            = Ret (PathValueResult self' source' path
                     (mkPathValue path (VDict b_items')) true)) as ->.
    { rewrite is_subset_single in Es. rewrite is_subset_single.
      cbv zeta in Es |- *.
      rewrite (Hagree name) by (now left).
      destruct (dict_get name b_items) as [b_value|];
        [|inversion Es; subst; discriminate].
      destruct (isinstance b_value (TClass Cdict)) eqn:Ed.
      { destruct (isinstance_dict_inv _ Ed) as [bd ->].
        destruct (is_subset invoke self context source
                    (namepath_of path name) a_value (VDict bd))
          as [r2| |] eqn:En; cbn [bind] in Es; try discriminate.
        destruct (valid r2) eqn:Hr2; cbn [negb] in Es;
          [|inversion Es; subst; congruence].
        now rewrite (IHa self self' source source' _ bd bd r2
                       (fun _ _ => eq_refl) En Hr2). }
      destruct (isinstance b_value (TClass Clist)).
      { destruct (if isinstance a_value (TClass Clist) then _ else _)
          as [elem_pred| |]; cbn [bind] in Es |- *; try discriminate.
        destruct (invoke elem_pred context b_value) as [r2| |];
          cbn [bind] in Es |- *; try discriminate.
        destruct (valid r2) eqn:Hr2; cbn [negb] in Es |- *; auto.
        inversion Es; subst. rewrite clone_with_source_valid in Hr1.
        congruence. }
      destruct (py_ne (eval context a_value) b_value); auto.
      destruct (is_subset_mismatch_invalid source path (namepath_of path name)
                  (eval context a_value) (VDict b_items) b_value)
        as (r2 & E2 & Hr2 & _).
      rewrite E2 in Es. inversion Es; subst. congruence. }
    cbn [bind valid].
    apply (IHitems IHrest self self' source source' path b_items b_items' r);
      auto.
    intros n Hn. apply Hagree. now right.
Qed.

(** ** The recursion budget

    A result obtained with some fuel is obtained with any larger fuel: the
    budget only decides whether the evaluation completes. *)

Lemma refines_refl {A : Type} (o : outcome A) : refines o o.
Proof. now right. Qed.

Lemma refines_trans {A : Type} (o1 o2 o3 : outcome A) :
  refines o1 o2 -> refines o2 o3 -> refines o1 o3.
Proof. intros [->| ->] H; [now left|exact H]. Qed.

Lemma refines_bind {A B : Type} (m m' : outcome A) (k k' : A -> outcome B) :
  refines m m' -> (forall a, refines (k a) (k' a)) ->
  refines (bind m k) (bind m' k').
Proof.
  intros [->| ->] Hk; [now left|].
  destruct m'; cbn; auto using refines_refl.
Qed.

(** Proof steps for [refines]: follow the structure shared by both sides. *)
Ltac refines_step :=
  match goal with
  | |- refines ?x ?x => apply refines_refl
  | H : forall p c v, refines (?f p c v) (?g p c v)
    |- refines (?f _ _ _) (?g _ _ _) => apply H
  | |- refines (bind _ _) (bind _ _) => apply refines_bind; [|intros ?]
  | |- refines (if ?c then _ else _) (if ?c then _ else _) => destruct c
  | |- refines (match ?x with _ => _ end) (match ?x with _ => _ end) =>
      destruct x
  end.

Ltac refines_auto := repeat refines_step.

Section Monotone.

Variables f g : pred -> Context -> value -> outcome result.
Hypothesis Hfg : forall p c v, refines (f p c v) (g p c v).

Lemma PathPredicate_mono key p c v :
  refines (PathPredicate f key p c v) (PathPredicate g key p c v).
Proof. unfold PathPredicate. refines_auto. Qed.

Lemma map_results_mono p c l :
  refines (map_results f p c l) (map_results g p c l).
Proof. induction l; cbn [map_results]; refines_auto; auto. Qed.

Lemma MapPredicate_mono p max c l :
  refines (MapPredicate f p max c l) (MapPredicate g p max c l).
Proof.
  unfold MapPredicate. apply refines_bind; [apply map_results_mono|].
  intros; apply refines_refl.
Qed.

Lemma DictMatches_fields_mono items c v built valid0 :
  refines (DictMatches_fields f items c v built valid0)
    (DictMatches_fields g items c v built valid0).
Proof.
  revert built valid0.
  induction items as [|[key p] items IH]; intros built valid0;
    cbn [DictMatches_fields]; [apply refines_refl|].
  apply refines_bind; [apply PathPredicate_mono|]. intros; apply IH.
Qed.

Lemma DictMatchesPredicate_call_mono self operand strict c v :
  refines (DictMatchesPredicate_call f self operand strict c v)
    (DictMatchesPredicate_call g self operand strict c v).
Proof.
  unfold DictMatchesPredicate_call. destruct v; try apply refines_refl.
  apply refines_bind; [apply DictMatches_fields_mono|].
  intros; apply refines_refl.
Qed.

Lemma ListMatches_patterns_mono patterns max c l built valid0 counts :
  refines (ListMatches_patterns f patterns max c l built valid0 counts)
    (ListMatches_patterns g patterns max c l built valid0 counts).
Proof.
  revert built valid0 counts.
  induction patterns as [|p patterns IH]; intros built valid0 counts;
    cbn [ListMatches_patterns]; [apply refines_refl|].
  apply refines_bind; [apply MapPredicate_mono|]. intros r.
  apply refines_bind; [apply refines_refl|]. intros; apply IH.
Qed.

Lemma ListMatchesPredicate_call_mono self operand strict unique c v :
  refines (ListMatchesPredicate_call f self operand strict unique c v)
    (ListMatchesPredicate_call g self operand strict unique c v).
Proof.
  unfold ListMatchesPredicate_call. destruct v; try apply refines_refl.
  apply refines_bind; [apply ListMatches_patterns_mono|].
  intros; apply refines_refl.
Qed.

Lemma is_subset_mono self c source path a b :
  refines (is_subset f self c source path a b)
    (is_subset g self c source path a b).
Proof.
  revert path b.
  induction a as [| | | | | | |a_items IH|] using value_nested_ind;
    intros path b'; try apply refines_refl.
  destruct b' as [| | | | | | |b_items|];
    try (destruct a_items as [|[? ?] ?]; apply refines_refl).
  induction a_items as [|[name a_value] items IHitems];
    [apply refines_refl|].
  inversion IH as [|? ? IHa IHrest]; subst. cbn [snd] in IHa.
  rewrite (is_subset_cons f), (is_subset_cons g).
  apply refines_bind.
  - rewrite (is_subset_single f), (is_subset_single g). cbv zeta.
    refines_auto. apply IHa.
  - intros r. destruct (valid r); [auto|apply refines_refl].
Qed.

Lemma DictSubsetPredicate_call_mono self operand c v :
  refines (DictSubsetPredicate_call f self operand c v)
    (DictSubsetPredicate_call g self operand c v).
Proof.
  unfold DictSubsetPredicate_call. refines_auto. apply is_subset_mono.
Qed.

Lemma any_satisfies_mono p c l :
  refines (any_satisfies f p c l) (any_satisfies g p c l).
Proof. induction l; cbn [any_satisfies]; refines_auto; auto. Qed.

Lemma verify_elem_mono strict c elem the_list :
  refines (verify_elem f strict c elem the_list)
    (verify_elem g strict c elem the_list).
Proof. unfold verify_elem. refines_auto. apply any_satisfies_mono. Qed.

Lemma ListSubset_elems_mono self strict c v elems :
  refines (ListSubset_elems f self strict c v elems)
    (ListSubset_elems g self strict c v elems).
Proof.
  induction elems; cbn [ListSubset_elems]; [apply refines_refl|].
  apply refines_bind; [apply verify_elem_mono|].
  intros ok. destruct (negb ok); [apply refines_refl|auto].
Qed.

Lemma ListSubsetPredicate_call_mono self operand strict c v :
  refines (ListSubsetPredicate_call f self operand strict c v)
    (ListSubsetPredicate_call g self operand strict c v).
Proof.
  unfold ListSubsetPredicate_call. refines_auto.
  apply ListSubset_elems_mono.
Qed.

Lemma ListMembershipPredicate_call_mono self operand strict c v :
  refines (ListMembershipPredicate_call f self operand strict c v)
    (ListMembershipPredicate_call g self operand strict c v).
Proof.
  unfold ListMembershipPredicate_call.
  apply refines_bind; [apply verify_elem_mono|]. intros; apply refines_refl.
Qed.

Lemma Contains_search_mono self c v elems bad_values :
  refines (Contains_search f self c v elems bad_values)
    (Contains_search g self c v elems bad_values).
Proof.
  revert bad_values.
  induction elems; intros bad_values; cbn [Contains_search];
    refines_auto; auto.
Qed.

Lemma ContainsPredicate_call_mono self operand c v :
  refines (ContainsPredicate_call f self operand c v)
    (ContainsPredicate_call g self operand c v).
Proof.
  unfold ContainsPredicate_call. refines_auto. apply Contains_search_mono.
Qed.

Lemma check_operand_and_call_mono operand c expected v factory :
  refines (check_operand_and_call f operand c expected v factory)
    (check_operand_and_call g operand c expected v factory).
Proof. unfold check_operand_and_call. refines_auto. Qed.

Lemma pred_call_mono p c v : refines (pred_call f p c v) (pred_call g p c v).
Proof.
  destruct p; cbn [pred_call].
  - apply refines_refl.
  - apply DictMatchesPredicate_call_mono.
  - apply ListMatchesPredicate_call_mono.
  - apply DictSubsetPredicate_call_mono.
  - apply ListSubsetPredicate_call_mono.
  - apply ListMembershipPredicate_call_mono.
  - apply ContainsPredicate_call_mono.
  - unfold EquivalentPredicate_call.
    repeat first [apply check_operand_and_call_mono | refines_step].
  - unfold DifferentPredicate_call.
    repeat first [apply check_operand_and_call_mono | refines_step].
Qed.

End Monotone.

Lemma call_step (fuel : nat) (p : pred) (context : Context) (val : value) :
  refines (call fuel p context val) (call (S fuel) p context val).
Proof.
  revert p context val. induction fuel as [|fuel IH]; intros p context val.
  - now left.
  - apply (pred_call_mono (call fuel) (call (S fuel)) IH).
Qed.

(** More fuel never changes a completed evaluation. *)
Lemma call_fuel_monotone (n m : nat) (p : pred) (context : Context)
  (val : value) (o : outcome result) :
  n <= m -> call n p context val = o -> o <> OutOfFuel ->
  call m p context val = o.
Proof.
  intros Hle Ho Hne. subst o.
  induction Hle as [|m Hle IH]; auto.
  destruct (call_step m p context val) as [E|E]; congruence.
Qed.

(** ** Termination

    With fuel [2 * depth v + 3] every predicate applied to [v] completes. *)

Lemma completes_bind {A B : Type} (m : outcome A) (k : A -> outcome B) :
  completes m -> (forall a, m = Ret a -> completes (k a)) ->
  completes (bind m k).
Proof.
  intros Hm Hk. destruct m; cbn;
    [apply Hk; reflexivity|discriminate|now destruct Hm].
Qed.

Lemma completes_Ret {A : Type} (a : A) : completes (Ret a).
Proof. discriminate. Qed.

Lemma completes_Raise {A : Type} (e : exn) : completes (@Raise A e).
Proof. discriminate. Qed.

Ltac completes_step :=
  match goal with
  | |- completes (Ret _) => apply completes_Ret
  | |- completes (Raise _) => apply completes_Raise
  | |- completes (bind _ _) => apply completes_bind; [|intros ? ?]
  | |- completes (if ?c then _ else _) => destruct c eqn:?
  | |- completes (match ?x with _ => _ end) => destruct x eqn:?
  end.

Lemma list_max_In (A : Type) (f : A -> nat) (x : A) (l : list A) :
  In x l -> f x <= list_max (map f l).
Proof.
  induction l as [|y l IH]; intros Hin; [contradiction|].
  change (list_max (map f (y :: l)))
    with (Nat.max (f y) (list_max (map f l))).
  destruct Hin as [->|Hin]; [lia|]. specialize (IH Hin). lia.
Qed.

Lemma depth_elem (x : value) (l : list value) :
  In x l -> depth x < depth (VList l).
Proof.
  intros Hin. apply list_max_In with (f := depth) in Hin.
  change (depth (VList l)) with (S (list_max (map depth l))). lia.
Qed.

Lemma depth_field (k : string) (x : value) (d : list (string * value)) :
  In (k, x) d -> depth x < depth (VDict d).
Proof.
  intros Hin.
  apply list_max_In with (f := fun kv => depth (snd kv)) in Hin.
  change (depth (VDict d))
    with (S (list_max (map (fun kv => depth (snd kv)) d))).
  cbn [snd] in Hin. lia.
Qed.

Lemma fuel_needed_le (p : pred) (v : value) :
  fuel_needed p v <= 2 * depth v + 3.
Proof. destruct p; cbn [fuel_needed]; try lia; destruct (depth v); lia. Qed.

Lemma ops_complete_field (d : list (value * pred)) (strict : bool)
  (k : value) (q : pred) :
  ops_complete (DictMatchesPredicate d strict) -> In (k, q) d ->
  ops_complete q.
Proof.
  cbn [ops_complete]. induction d as [|[k0 q0] d IH]; intros H Hin;
    [contradiction|].
  destruct H as [Hq Hd]. destruct Hin as [E|Hin]; auto.
  now inversion E; subst.
Qed.

Lemma ops_complete_pattern (l : list pred) (strict unique : bool) (q : pred) :
  ops_complete (ListMatchesPredicate l strict unique) -> In q l ->
  ops_complete q.
Proof.
  cbn [ops_complete]. induction l as [|q0 l IH]; intros H Hin;
    [contradiction|].
  destruct H as [Hq Hl]. destruct Hin as [<-|Hin]; auto.
Qed.

Lemma factory_call_ops_complete (factory : StandardBinaryPredicateFactory)
  (operand : value) (p : pred) :
  (forall a b, completes (factory_comparison_op factory a b)) ->
  factory_call factory operand = Ret p -> ops_complete p.
Proof.
  intros Hop. unfold factory_call.
  destruct (BinaryPredicate_init operand _); cbn [bind]; try discriminate.
  intros E. inversion E; subst. exact Hop.
Qed.

Lemma factory_call_completes (factory : StandardBinaryPredicateFactory)
  (operand : value) : completes (factory_call factory operand).
Proof.
  unfold factory_call, BinaryPredicate_init.
  repeat completes_step.
Qed.

Lemma lists_equivalent_op_completes (a b : value) :
  completes (lists_equivalent_op a b).
Proof.
  unfold lists_equivalent_op. repeat completes_step.
  rewrite lists_equivalent_spec. apply completes_Ret.
Qed.

Lemma has_substring_completes (a b : value) : completes (has_substring a b).
Proof. unfold has_substring. repeat completes_step. Qed.

Lemma bump_counts_completes (rs : list result) (counts : list nat)
  (index : nat) : completes (bump_counts rs index counts).
Proof.
  revert index. induction counts as [|c counts IH]; intros index;
    cbn [bump_counts]; repeat completes_step. apply IH.
Qed.

Lemma find_strictness_errors_completes (source : value) (l : list value)
  (counts : list nat) (index : nat) :
  completes (find_strictness_errors source l index counts).
Proof.
  revert index. induction counts as [|c counts IH]; intros index;
    cbn [find_strictness_errors]; repeat completes_step; apply IH.
Qed.

Lemma StandardBinaryPredicate_call_completes (self : pred) (n : string)
  (op : value -> value -> outcome bool) (operand : value)
  (t : option type_spec) (context : Context) (val : value) :
  (forall a b, completes (op a b)) ->
  completes (StandardBinaryPredicate_call self n op operand t context val).
Proof.
  intros Hop. unfold StandardBinaryPredicate_call, eval_context_operand.
  repeat completes_step; apply Hop.
Qed.

Section Completes.

Variable invoke : pred -> Context -> value -> outcome result.
Variable context : Context.

Lemma is_subset_completes (a : value) :
  forall self source path b,
    (forall q w, ops_complete q -> depth w < depth b ->
       completes (invoke q context w)) ->
    completes (is_subset invoke self context source path a b).
Proof.
  induction a as [| | | | | | |a_items IH|] using value_nested_ind;
    intros self source path b' Hinv; try apply completes_Raise.
  destruct b' as [| | | | | | |b_items|];
    try (destruct a_items as [|[? ?] ?];
         [apply completes_Ret|apply completes_Raise]).
  induction a_items as [|[name a_value] items IHitems];
    [apply completes_Ret|].
  inversion IH as [|? ? IHa IHrest]; subst. cbn [snd] in IHa.
  rewrite is_subset_cons. apply completes_bind.
  - rewrite is_subset_single. cbv zeta.
    destruct (dict_get name b_items) as [b_value|] eqn:Hget;
      [|apply completes_Ret].
    apply dict_get_In, depth_field in Hget.
    destruct (isinstance b_value (TClass Cdict)).
    { apply completes_bind; [|intros; repeat completes_step].
      apply IHa. intros q w Hq Hw. apply Hinv; auto. lia. }
    destruct (isinstance b_value (TClass Clist)).
    { apply completes_bind.
      - unfold LIST_SUBSET. repeat completes_step.
      - intros elem_pred Hp. apply completes_bind;
          [|intros; repeat completes_step].
        apply Hinv; auto.
        unfold LIST_SUBSET, CONTAINS in Hp.
        destruct (isinstance a_value (TClass Clist));
          cbn in Hp; inversion Hp; exact I. }
    destruct (py_ne (eval context a_value) b_value);
      [|apply completes_Ret].
    destruct (is_subset_mismatch_invalid source path (namepath_of path name)
                (eval context a_value) (VDict b_items) b_value)
      as (r & -> & _). apply completes_Ret.
  - intros r _. destruct (valid r); [auto|apply completes_Ret].
Qed.

Lemma any_satisfies_completes (q : pred) (l : list value) :
  (forall w, In w l -> completes (invoke q context w)) ->
  completes (any_satisfies invoke q context l).
Proof.
  induction l as [|x l IH]; intros H; cbn [any_satisfies];
    [apply completes_Ret|].
  apply completes_bind; [apply H; now left|].
  intros r _. destruct (valid r); [apply completes_Ret|].
  apply IH. intros w Hw. apply H. now right.
Qed.

Lemma verify_elem_completes (strict : bool) (elem the_list : value) :
  (forall q w members,
      py_iter the_list = Ret members -> In w members ->
      fuel_needed q w = match depth w with O => 1 | S _ => 2 * depth w + 2 end ->
      ops_complete q ->
      completes (invoke q context w)) ->
  completes (verify_elem invoke strict context elem the_list).
Proof.
  intros Hinv. unfold verify_elem.
  destruct (strict || isinstance elem _).
  { unfold py_contains. repeat completes_step. }
  destruct strict; [apply completes_Ret|].
  apply completes_bind.
  { unfold LIST_SUBSET, DICT_SUBSET, BinaryPredicate_init.
    repeat completes_step. }
  intros q Hq. apply completes_bind.
  { unfold py_iter. repeat completes_step. }
  intros members Hm. apply any_satisfies_completes.
  intros w Hw.
  assert (q = ListSubsetPredicate elem false \/ q = DictSubsetPredicate elem)
    as Hshape.
  { destruct elem; cbn in Hq; inversion Hq; auto. }
  apply (Hinv q w members Hm Hw); destruct Hshape as [->| ->];
    reflexivity || exact I.
Qed.

Lemma PathPredicate_completes (key : value) (q : pred) (container : value) :
  (forall w, depth w < depth container -> completes (invoke q context w)) ->
  completes (PathPredicate invoke key q context container).
Proof.
  intros H. unfold PathPredicate.
  destruct (eval context key); try apply completes_Raise.
  destruct container as [| | | | | | |d|]; try apply completes_Raise.
  destruct (dict_get _ d) as [found|] eqn:Hget; [|apply completes_Ret].
  apply completes_bind; [|intros; apply completes_Ret].
  apply H. apply dict_get_In in Hget. now apply depth_field in Hget.
Qed.

Lemma map_results_completes (q : pred) (l : list value) :
  (forall w, In w l -> completes (invoke q context w)) ->
  completes (map_results invoke q context l).
Proof.
  induction l as [|x l IH]; intros H; cbn [map_results];
    [apply completes_Ret|].
  apply completes_bind; [apply H; now left|]. intros r _.
  apply completes_bind; [apply IH; intros; apply H; now right|].
  intros; apply completes_Ret.
Qed.

Lemma MapPredicate_completes (q : pred) (max : option nat) (l : list value) :
  (forall w, In w l -> completes (invoke q context w)) ->
  completes (MapPredicate invoke q max context l).
Proof.
  intros H. unfold MapPredicate.
  apply completes_bind; [now apply map_results_completes|].
  intros; apply completes_Ret.
Qed.

Lemma DictMatches_fields_completes (items : list (value * pred))
  (val : value) :
  forall built valid0,
    (forall k q w, In (k, q) items -> depth w < depth val ->
       completes (invoke q context w)) ->
    completes (DictMatches_fields invoke items context val built valid0).
Proof.
  induction items as [|[key q] items IH]; intros built valid0 H;
    cbn [DictMatches_fields]; [apply completes_Ret|].
  cbv zeta. apply completes_bind.
  - apply PathPredicate_completes. intros w Hw.
    apply (H key q w); [now left|exact Hw].
  - intros r _. apply IH. intros k q' w Hin Hw.
    apply (H k q' w); [now right|exact Hw].
Qed.

Lemma DictMatchesPredicate_call_completes (self : pred)
  (operand : list (value * pred)) (strict : bool) (val : value) :
  (forall k q w, In (k, q) operand -> depth w < depth val ->
     completes (invoke q context w)) ->
  completes (DictMatchesPredicate_call invoke self operand strict context val).
Proof.
  intros H. unfold DictMatchesPredicate_call.
  destruct val as [| | | | | | |d|]; try apply completes_Ret.
  apply completes_bind; [now apply DictMatches_fields_completes|].
  intros [built valid0] _. repeat completes_step.
Qed.

Lemma ListMatches_patterns_completes (patterns : list pred)
  (max_count : option nat) (l : list value) :
  forall built valid0 counts,
    (forall q w, In q patterns -> In w l -> completes (invoke q context w)) ->
    completes (ListMatches_patterns invoke patterns max_count context l
                 built valid0 counts).
Proof.
  induction patterns as [|q patterns IH]; intros built valid0 counts H;
    cbn [ListMatches_patterns]; [apply completes_Ret|].
  apply completes_bind.
  - apply MapPredicate_completes. intros w Hw. apply H; [now left|exact Hw].
  - intros r _. cbv zeta.
    apply completes_bind; [apply bump_counts_completes|].
    intros c _. apply IH. intros q' w Hq Hw. apply H; [now right|exact Hw].
Qed.

Lemma ListMatchesPredicate_call_completes (self : pred) (operand : list pred)
  (strict unique : bool) (val : value) :
  (forall q w, In q operand -> depth w < depth val ->
     completes (invoke q context w)) ->
  completes (ListMatchesPredicate_call invoke self operand strict unique
               context val).
Proof.
  intros H. unfold ListMatchesPredicate_call.
  destruct val as [| | | | | |l| |]; try apply completes_Ret.
  cbv zeta. apply completes_bind.
  - apply ListMatches_patterns_completes. intros q w Hq Hw.
    apply H; [exact Hq|now apply depth_elem].
  - intros [[built valid0] counts] _. destruct strict; [|apply completes_Ret].
    apply completes_bind; [apply find_strictness_errors_completes|].
    intros errs _. destruct errs; apply completes_Ret.
Qed.

Lemma DictSubsetPredicate_call_completes (self : pred) (operand val : value) :
  (forall q w, ops_complete q -> depth w < depth val ->
     completes (invoke q context w)) ->
  completes (DictSubsetPredicate_call invoke self operand context val).
Proof.
  intros H. unfold DictSubsetPredicate_call, eval_context_operand.
  destruct (negb _); [apply completes_Ret|].
  cbv zeta. destruct (violates _ _); cbn [bind]; [apply completes_Raise|].
  now apply is_subset_completes.
Qed.

Lemma ListSubset_elems_completes (self : pred) (strict : bool) (val : value)
  (elems : list value) :
  (forall q w members,
      py_iter val = Ret members -> In w members ->
      fuel_needed q w = match depth w with O => 1 | S _ => 2 * depth w + 2 end ->
      ops_complete q ->
      completes (invoke q context w)) ->
  completes (ListSubset_elems invoke self strict context val elems).
Proof.
  intros H. induction elems as [|elem elems IH]; cbn [ListSubset_elems];
    [apply completes_Ret|].
  apply completes_bind; [now apply verify_elem_completes|].
  intros ok _. destruct (negb ok); [apply completes_Ret|exact IH].
Qed.

Lemma ListSubsetPredicate_call_completes (self : pred) (operand : value)
  (strict : bool) (val : value) :
  (forall q w members,
      py_iter val = Ret members -> In w members ->
      fuel_needed q w = match depth w with O => 1 | S _ => 2 * depth w + 2 end ->
      ops_complete q ->
      completes (invoke q context w)) ->
  completes (ListSubsetPredicate_call invoke self operand strict context val).
Proof.
  intros H. unfold ListSubsetPredicate_call, eval_context_operand.
  destruct (negb _); [apply completes_Ret|].
  cbv zeta. destruct (violates _ _); cbn [bind]; [apply completes_Raise|].
  apply completes_bind; [unfold py_iter; repeat completes_step|].
  intros elems _. now apply ListSubset_elems_completes.
Qed.

Lemma ListMembershipPredicate_call_completes (self : pred) (operand : value)
  (strict : bool) (val : value) :
  (forall q w members,
      py_iter val = Ret members -> In w members ->
      fuel_needed q w = match depth w with O => 1 | S _ => 2 * depth w + 2 end ->
      ops_complete q ->
      completes (invoke q context w)) ->
  completes (ListMembershipPredicate_call invoke self operand strict context
               val).
Proof.
  intros H. unfold ListMembershipPredicate_call.
  apply completes_bind; [now apply verify_elem_completes|].
  intros; apply completes_Ret.
Qed.

Lemma Contains_search_completes (self : pred) (val : value)
  (elems : list value) :
  forall bad_values,
    (forall w, In w elems -> completes (invoke self context w)) ->
    completes (Contains_search invoke self context val elems bad_values).
Proof.
  induction elems as [|elem elems IH]; intros bad H; cbn [Contains_search];
    [apply completes_Ret|].
  apply completes_bind; [apply H; now left|].
  intros r _. destruct (valid r); [apply completes_Ret|].
  apply IH. intros w Hw. apply H. now right.
Qed.

Lemma factory_call_invoke_completes (factory : StandardBinaryPredicateFactory)
  (operand val : value) :
  (forall a b, completes (factory_comparison_op factory a b)) ->
  (forall q, ops_complete q -> fuel_needed q val <= 2 * depth val + 2 ->
     completes (invoke q context val)) ->
  completes (p <- factory_call factory operand ;; invoke p context val).
Proof.
  intros Hop H. apply completes_bind; [apply factory_call_completes|].
  intros p Hp. apply H; [now apply (factory_call_ops_complete _ _ _ Hop Hp)|].
  unfold factory_call in Hp.
  destruct (BinaryPredicate_init operand _); cbn [bind] in Hp;
    try discriminate.
  inversion Hp; subst. cbn [fuel_needed]. lia.
Qed.

Lemma ContainsPredicate_call_completes (self : pred) (operand val : value) :
  (forall q, ops_complete q -> fuel_needed q val <= 2 * depth val + 2 ->
     completes (invoke q context val)) ->
  (forall w, depth w < depth val -> completes (invoke self context w)) ->
  completes (ContainsPredicate_call invoke self operand context val).
Proof.
  intros H Hself. unfold ContainsPredicate_call.
  destruct (isinstance val (TClass Cbasestring)).
  { apply factory_call_invoke_completes; [apply has_substring_completes|exact H]. }
  destruct (isinstance val (TClass Cdict)).
  { apply completes_bind;
      [unfold DICT_SUBSET, BinaryPredicate_init; repeat completes_step|].
    intros p Hp. apply H.
    - destruct operand; cbn in Hp; inversion Hp; exact I.
    - assert (p = DictSubsetPredicate operand) as ->
        by (destruct operand; cbn in Hp; inversion Hp; reflexivity).
      cbn [fuel_needed]. destruct (depth val); lia. }
  destruct (isinstance val int_or_long_or_float).
  { apply factory_call_invoke_completes;
      [intros a b; apply completes_Ret|exact H]. }
  destruct val as [| | | | | |l| |]; try apply completes_Raise.
  destruct (isinstance operand (TClass Clist)).
  - apply completes_bind; [unfold LIST_SUBSET; repeat completes_step|].
    intros p Hp. unfold LIST_SUBSET in Hp.
    destruct (negb _); inversion Hp; subst. apply H; [exact I|].
    cbn [fuel_needed]. destruct (depth (VList l)); lia.
  - apply Contains_search_completes. intros w Hw. apply Hself.
    now apply depth_elem.
Qed.

Lemma check_operand_and_call_completes (operand : value) (expected : type_spec)
  (val : value) (factory : StandardBinaryPredicateFactory) :
  (forall a b, completes (factory_comparison_op factory a b)) ->
  (forall q, ops_complete q -> fuel_needed q val <= 2 * depth val + 2 ->
     completes (invoke q context val)) ->
  completes (check_operand_and_call invoke operand context expected val
               factory).
Proof.
  intros Hop H. unfold check_operand_and_call. cbv zeta.
  destruct (negb _); [apply completes_Ret|].
  now apply factory_call_invoke_completes.
Qed.

Lemma EquivalentPredicate_call_completes (operand val : value) :
  (forall q, ops_complete q -> fuel_needed q val <= 2 * depth val + 2 ->
     completes (invoke q context val)) ->
  completes (EquivalentPredicate_call invoke operand context val).
Proof.
  intros H. unfold EquivalentPredicate_call.
  repeat match goal with
         | |- completes (if ?c then _ else _) => destruct c
         end;
    try apply completes_Raise;
    (apply check_operand_and_call_completes; [intros a b|exact H]);
    try apply completes_Ret; apply lists_equivalent_op_completes.
Qed.

Lemma DifferentPredicate_call_completes (operand val : value) :
  (forall q, ops_complete q -> fuel_needed q val <= 2 * depth val + 2 ->
     completes (invoke q context val)) ->
  completes (DifferentPredicate_call invoke operand context val).
Proof.
  intros H. unfold DifferentPredicate_call.
  repeat match goal with
         | |- completes (if ?c then _ else _) => destruct c
         end;
    try apply completes_Raise;
    (apply check_operand_and_call_completes; [intros a b|exact H]);
    apply completes_Ret.
Qed.

End Completes.

Lemma py_iter_depth (v w : value) (members : list value) :
  py_iter v = Ret members -> In w members ->
  depth w = 0 \/ depth w < depth v.
Proof.
  destruct v; cbn [py_iter]; intros E Hin; inversion E; subst.
  - left. apply in_map_iff in Hin. destruct Hin as (c & <- & _). reflexivity.
  - right. now apply depth_elem.
  - left. apply in_map_iff in Hin. destruct Hin as (k & <- & _). reflexivity.
Qed.

Lemma fuel_needed_pos (p : pred) (v : value) : 1 <= fuel_needed p v.
Proof. destruct p; cbn [fuel_needed]; try lia; destruct (depth v); lia. Qed.

(** Every predicate whose comparison functions complete returns or raises
    once it has the fuel [fuel_needed] asks for. *)
Lemma call_completes_needed (n : nat) :
  forall p context val,
    ops_complete p -> fuel_needed p val <= n ->
    completes (call n p context val).
Proof.
  induction n as [|n IH]; intros p context val Hops Hfuel.
  { pose proof (fuel_needed_pos p val). lia. }
  assert (forall q w, ops_complete q -> depth w < depth val ->
            2 * depth val + 1 <= n -> completes (call n q context w))
    as Hsub.
  { intros q w Hq Hw Hn. apply IH; [exact Hq|].
    pose proof (fuel_needed_le q w). lia. }
  assert (2 * depth val + 1 <= n ->
          forall q w members,
            py_iter val = Ret members -> In w members ->
            fuel_needed q w
              = match depth w with O => 1 | S _ => 2 * depth w + 2 end ->
            ops_complete q -> completes (call n q context w)) as Hmem.
  { intros Hn q w members Hm Hw Hq Hc. apply IH; [exact Hc|].
    rewrite Hq. destruct (py_iter_depth _ _ _ Hm Hw) as [E|E].
    - rewrite E. lia.
    - destruct (depth w); lia. }
  cbn [call]. destruct p; cbn [pred_call].
  - apply StandardBinaryPredicate_call_completes. exact Hops.
  - apply DictMatchesPredicate_call_completes. intros k q w Hin Hw.
    apply Hsub; [now apply (ops_complete_field _ _ _ _ Hops Hin)|exact Hw|].
    cbn [fuel_needed] in Hfuel. destruct (depth val); lia.
  - apply ListMatchesPredicate_call_completes. intros q w Hin Hw.
    apply Hsub; [now apply (ops_complete_pattern _ _ _ _ Hops Hin)|exact Hw|].
    cbn [fuel_needed] in Hfuel. destruct (depth val); lia.
  - apply DictSubsetPredicate_call_completes. intros q w Hq Hw.
    apply Hsub; [exact Hq|exact Hw|].
    cbn [fuel_needed] in Hfuel. destruct (depth val); lia.
  - cbn [fuel_needed] in Hfuel.
    destruct (depth val) as [|d] eqn:Hd.
    + unfold ListSubsetPredicate_call.
      destruct val; cbn in Hd; try discriminate; apply completes_Ret.
    + apply ListSubsetPredicate_call_completes. apply Hmem. lia.
  - apply ListMembershipPredicate_call_completes. apply Hmem.
    cbn [fuel_needed] in Hfuel. lia.
  - cbn [fuel_needed] in Hfuel. apply ContainsPredicate_call_completes.
    + intros q Hq Hq'. apply IH; [exact Hq|lia].
    + intros w Hw. apply IH; [exact I|]. cbn [fuel_needed]. lia.
  - cbn [fuel_needed] in Hfuel. apply EquivalentPredicate_call_completes.
    intros q Hq Hq'. apply IH; [exact Hq|lia].
  - cbn [fuel_needed] in Hfuel. apply DifferentPredicate_call_completes.
    intros q Hq Hq'. apply IH; [exact Hq|lia].
Qed.

(** [evaluate] always returns or raises. *)
Lemma evaluate_completes (p : pred) (context : Context) (val : value) :
  ops_complete p -> completes (evaluate p context val).
Proof.
  intros Hops. apply call_completes_needed; [exact Hops|].
  apply fuel_needed_le.
Qed.

(** With the fuel of [evaluate] or more, [call] gives what [evaluate]
    gives. *)
Lemma call_evaluate (fuel : nat) (p : pred) (context : Context)
  (val : value) :
  ops_complete p -> 2 * depth val + 3 <= fuel ->
  call fuel p context val = evaluate p context val.
Proof.
  intros Hops Hle.
  apply (call_fuel_monotone (2 * depth val + 3) fuel p context val _ Hle);
    [reflexivity|].
  now apply evaluate_completes.
Qed.


(** C6.  [_is_subset] returns the first failure it meets while walking the
    operand's fields: an invalid result for a prefix of the fields is the
    result for the whole operand, and a field missing from the value, when
    the fields before it pass, yields a [MissingPathError] whatever comes
    after.  If [DictSubset(A)] is valid on [B], changing the value of one
    field of [A], scalar in [B], to one that differs from [B]'s makes the
    result invalid with the field's name as target path, and removing the
    field from [B] instead yields a [MissingPathError] for it. *)
Theorem DictSubset_first_failure (fuel : nat) (context : Context) :
  (forall self source path pre post b_items r,
      is_subset (call fuel) self context source path (VDict pre)
        (VDict b_items) = Ret r ->
      valid r = false ->
      is_subset (call fuel) self context source path (VDict (pre ++ post))
        (VDict b_items) = Ret r)
  /\ (forall self source path pre name a_value post b_items r0,
         is_subset (call fuel) self context source path (VDict pre)
           (VDict b_items) = Ret r0 ->
         valid r0 = true ->
         dict_get name b_items = None ->
         is_subset (call fuel) self context source path
           (VDict (pre ++ (name, a_value) :: post)) (VDict b_items)
         = Ret (MissingPathError source (namepath_of path name)
                  (mkPathValue path (VDict b_items))))
  /\ (forall pre k v post B r0,
         call (S fuel) (DictSubsetPredicate (VDict (pre ++ (k, v) :: post)))
           context (VDict B) = Ret r0 ->
         valid r0 = true ->
         (forall v' b_value,
             dict_get k B = Some b_value ->
             isinstance b_value (TClass Cdict) = false ->
             isinstance b_value (TClass Clist) = false ->
             py_ne (eval context v') b_value = true ->
             exists r,
               call (S fuel)
                 (DictSubsetPredicate (VDict (pre ++ (k, v') :: post)))
                 context (VDict B) = Ret r
               /\ valid r = false /\ target_path r = k)
         /\ (NoDup (keys (pre ++ (k, v) :: post)) ->
             call (S fuel)
               (DictSubsetPredicate (VDict (pre ++ (k, v) :: post)))
               context (VDict (dict_remove k B))
             = Ret (MissingPathError (VDict (dict_remove k B)) k
                      (mkPathValue "" (VDict (dict_remove k B)))))).
Proof.
  split.
  { intros self source path pre post b_items r H Hr.
    rewrite is_subset_app, H. cbn [bind]. now rewrite Hr. }
  split.
  { intros self source path pre name a_value post b_items r0 H Hr0 Hget.
    rewrite is_subset_app, H. cbn [bind]. rewrite Hr0.
    rewrite is_subset_cons, is_subset_single. cbv zeta. now rewrite Hget. }
  intros pre k v post B r0 H Hr0.
  change (is_subset (call fuel)
            (DictSubsetPredicate (VDict (pre ++ (k, v) :: post))) context
            (VDict B) "" (VDict (pre ++ (k, v) :: post)) (VDict B) = Ret r0)
    in H.
  rewrite is_subset_app in H.
  destruct (is_subset (call fuel) _ context (VDict B) "" (VDict pre) (VDict B))
    as [rp| |] eqn:Hpre; cbn [bind] in H; try discriminate.
  destruct (valid rp) eqn:Hrp; [|inversion H; subst; congruence].
  split.
  - intros v' b_value Hget Hd Hl Hne.
    change (exists r,
               is_subset (call fuel)
                 (DictSubsetPredicate (VDict (pre ++ (k, v') :: post)))
                 context (VDict B) "" (VDict (pre ++ (k, v') :: post))
                 (VDict B) = Ret r
               /\ valid r = false /\ target_path r = k).
    rewrite is_subset_app.
    rewrite (is_subset_pass_transfer _ _ _ _ _ _ _ _ _ _ _
               (fun _ _ => eq_refl) Hpre Hrp).
    cbn [bind valid].
    rewrite is_subset_cons, is_subset_single. cbv zeta.
    rewrite Hget, Hd, Hl, Hne.
    destruct (is_subset_mismatch_invalid (VDict B) "" (namepath_of "" k)
                (eval context v') (VDict B) b_value)
      as (r & -> & Hr & Ht).
    cbn [bind]. rewrite Hr. exists r. repeat split; auto.
  - intros Hnd.
    change (is_subset (call fuel)
              (DictSubsetPredicate (VDict (pre ++ (k, v) :: post))) context
              (VDict (dict_remove k B)) ""
              (VDict (pre ++ (k, v) :: post)) (VDict (dict_remove k B))
            = Ret (MissingPathError (VDict (dict_remove k B)) k
                     (mkPathValue "" (VDict (dict_remove k B))))).
    rewrite is_subset_app.
    assert (forall name, In name (field_names (VDict pre)) ->
              dict_get name (dict_remove k B) = dict_get name B) as Hagree.
    { intros name Hname. apply dict_get_remove_other. intros ->.
      unfold keys in Hnd. rewrite map_app in Hnd.
      apply NoDup_remove_2 in Hnd. apply Hnd.
      apply in_or_app. now left. }
    rewrite (is_subset_pass_transfer (call fuel) context (VDict pre)
               (DictSubsetPredicate (VDict (pre ++ (k, v) :: post)))
               (DictSubsetPredicate (VDict (pre ++ (k, v) :: post)))
               (VDict B) (VDict (dict_remove k B)) "" B (dict_remove k B) rp
               Hagree Hpre Hrp).
    cbn [bind valid].
    rewrite is_subset_cons, is_subset_single. cbv zeta.
    now rewrite dict_get_remove_same.
Qed.

(** ** Reflexivity of the subset walk *)

Lemma SFcompare_refl (x : spec_float) :
  is_nan x = false -> SFcompare x x = Some Eq.
Proof.
  destruct x as [s|s| |s m e]; cbn; try discriminate; intros _.
  - reflexivity.
  - now destruct s.
  - rewrite Z.compare_refl.
    change (Pos.compare_cont Eq m m) with (Pos.compare m m).
    rewrite Pos.compare_refl. now destruct s.
Qed.

(** [==] is reflexive on JSON values. *)
Lemma py_eq_refl (v : value) : json v = true -> py_eq v v = true.
Proof.
  induction v as [| | | | | |l IH|d IH|] using value_nested_ind;
    cbn [json]; intros Hj; try discriminate; auto.
  - cbn. unfold num_eqb. cbn. now rewrite Z.compare_refl.
  - cbn. unfold num_eqb. cbn. now rewrite Z.compare_refl.
  - cbn. unfold num_eqb. cbn. now rewrite Z.compare_refl.
  - cbn. unfold num_eqb. cbn. apply negb_true_iff in Hj.
    now rewrite SFcompare_refl.
  - cbn. apply String.eqb_refl.
  - rewrite py_eq_VList.
    induction l as [|x l IHl]; cbn; auto.
    inversion IH; subst. cbn in Hj. apply andb_prop in Hj as [Hx Hl].
    apply andb_true_intro. auto.
  - rewrite py_eq_VDict, Nat.eqb_refl. cbn [andb].
    apply andb_prop in Hj as [Hk Hv]. apply nodupb_NoDup in Hk.
    rewrite forallb_forall in *. rewrite Forall_forall in IH.
    intros [k x] Hin. unfold py_eq_item. cbn [fst snd].
    rewrite (In_dict_get _ _ _ Hk Hin).
    apply (IH _ Hin). apply (Hv _ Hin).
Qed.

Lemma eval_json (context : Context) (v : value) :
  json v = true -> eval context v = v.
Proof. destruct v; cbn; auto; discriminate. Qed.

Lemma py_in_member (elem : value) (l : list value) :
  In elem l -> json elem = true -> py_in elem l = true.
Proof.
  intros Hin Hj. unfold py_in. apply existsb_exists.
  exists elem. split; auto. now apply py_eq_refl.
Qed.

Lemma any_satisfies_false
  (invoke : pred -> Context -> value -> outcome result) (p : pred)
  (context : Context) (l : list value) :
  any_satisfies invoke p context l = Ret false ->
  forall x, In x l ->
    exists r, invoke p context x = Ret r /\ valid r = false.
Proof.
  induction l as [|y l IH]; cbn [any_satisfies]; intros H x Hin;
    [contradiction|].
  destruct (invoke p context y) as [r| |] eqn:Ey; cbn [bind] in H;
    try discriminate.
  destruct (valid r) eqn:Hr; [discriminate|].
  destruct Hin as [<-|Hin]; eauto.
Qed.

Section Reflexive.

Variable context : Context.

Lemma is_subset_copy_valid (n : nat) (self : pred) (source : value)
  (path : string) (b_items items : list (string * value)) :
  (forall k x, In (k, x) items ->
     dict_get k b_items = Some x /\ json x = true
     /\ walk_ok context n x /\ list_ok context n x) ->
  forall r,
    is_subset (call n) self context source path (VDict items) (VDict b_items)
    = Ret r ->
    r = PathValueResult self source path (mkPathValue path (VDict b_items))
          true.
Proof.
  induction items as [|[name a_value] items IH]; intros Hall r H.
  - cbn in H. now inversion H.
  - rewrite is_subset_cons in H.
    destruct (Hall name a_value (or_introl eq_refl)) as (Hget & Hj & Hw & Hl).
    assert (forall r1,
              is_subset (call n) self context source path
                (VDict [(name, a_value)]) (VDict b_items) = Ret r1 ->
              valid r1 = true) as Hsingle.
    { intros r1. rewrite is_subset_single. cbv zeta. rewrite Hget.
      destruct (isinstance a_value (TClass Cdict)).
      { destruct (is_subset (call n) self context source
                    (namepath_of path name) a_value a_value)
          as [r2| |] eqn:E2; cbn [bind]; try discriminate.
        rewrite (Hw _ _ _ _ E2). cbn. intros E; now inversion E. }
      destruct (isinstance a_value (TClass Clist)) eqn:El.
      { unfold LIST_SUBSET. rewrite El. cbn [negb bind].
        destruct (call n (ListSubsetPredicate a_value false) context a_value)
          as [r2| |] eqn:E2; cbn [bind]; try discriminate.
        rewrite (Hl _ El E2). cbn. intros E; now inversion E. }
      unfold py_ne. rewrite (eval_json _ _ Hj), (py_eq_refl _ Hj). cbn.
      intros E; now inversion E. }
    destruct (is_subset (call n) self context source path
                (VDict [(name, a_value)]) (VDict b_items))
      as [r1| |]; cbn [bind] in H; try discriminate.
    rewrite (Hsingle r1 eq_refl) in H.
    apply IH; auto. intros k x Hin. apply Hall. now right.
Qed.

Lemma verify_elem_member (m : nat) (elem : value) (l : list value) :
  In elem l -> json elem = true ->
  (forall n, walk_ok context n elem) -> (forall n, list_ok context n elem) ->
  verify_elem (call m) false context elem (VList l) <> Ret false.
Proof.
  intros Hin Hj Hw Hl. unfold verify_elem. cbn [orb].
  destruct (isinstance elem (TTuple [Cint; Clong; Cfloat; Cbasestring])).
  { cbn. rewrite (py_in_member _ _ Hin Hj). discriminate. }
  destruct (isinstance elem (TClass Clist)) eqn:El.
  { unfold LIST_SUBSET. rewrite El. cbn [negb bind py_iter].
    intros H. destruct (any_satisfies_false _ _ _ _ H elem Hin)
      as (r & Hr & Hv).
    rewrite (Hl m r El Hr) in Hv. discriminate. }
  destruct (isinstance elem (TClass Cdict)) eqn:Ed; [|discriminate].
  destruct (isinstance_dict_inv _ Ed) as [d ->].
  cbn [DICT_SUBSET isinstance class_of issubclass pyclass_eqb orb negb
         callable BinaryPredicate_init bind py_iter].
  intros H. destruct (any_satisfies_false _ _ _ _ H _ Hin) as (r & Hr & Hv).
  destruct m as [|m]; [discriminate|].
  change (is_subset (call m) (DictSubsetPredicate (VDict d)) context
            (VDict d) "" (VDict d) (VDict d) = Ret r) in Hr.
  rewrite (Hw m _ _ _ _ Hr) in Hv. discriminate.
Qed.

Lemma ListSubset_elems_member (m : nat) (self : pred) (l elems : list value) :
  (forall elem, In elem elems ->
     In elem l /\ json elem = true
     /\ (forall n, walk_ok context n elem) /\ (forall n, list_ok context n elem)) ->
  forall r,
    ListSubset_elems (call m) self false context (VList l) elems = Ret r ->
    valid r = true.
Proof.
  induction elems as [|elem elems IH]; intros Hall r; cbn [ListSubset_elems].
  - intros E; now inversion E.
  - destruct (Hall elem (or_introl eq_refl)) as (Hin & Hj & Hw & Hl).
    pose proof (verify_elem_member m elem l Hin Hj Hw Hl) as Hne.
    destruct (verify_elem (call m) false context elem (VList l))
      as [[|]| |]; cbn [bind negb]; try discriminate; [|congruence].
    apply IH. intros e He. apply Hall. now right.
Qed.

(** On a JSON value, neither the walk of an object against itself nor
    [LIST_SUBSET] of a list on itself can return an invalid result,
    whatever the fuel. *)
Lemma subset_reflexive (v : value) :
  json v = true -> forall n, walk_ok context n v /\ list_ok context n v.
Proof.
  induction v as [| | | | | |l IH|d IH|] using value_nested_ind;
    intros Hj fuel; split; try (intros ? ? ? ? H; discriminate H);
    try (intros r Hi; discriminate Hi).
  - intros r _ H. destruct fuel as [|m]; [discriminate|].
    cbn [call pred_call] in H.
    revert H. apply ListSubset_elems_member.
    intros elem Hin. rewrite Forall_forall in IH.
    cbn [json] in Hj. rewrite forallb_forall in Hj.
    repeat split; auto; intros k; apply (IH _ Hin (Hj _ Hin)).
  - intros self source path r H.
    revert H. apply is_subset_copy_valid.
    cbn [json] in Hj. apply andb_prop in Hj as [Hk Hv].
    apply nodupb_NoDup in Hk. rewrite forallb_forall in Hv.
    rewrite Forall_forall in IH.
    intros k x Hin.
    split; [now apply In_dict_get|].
    split; [apply (Hv _ Hin)|].
    split; apply (IH _ Hin (Hv _ Hin)).
Qed.

End Reflexive.

(** On a list of scalars, [LIST_SUBSET] of the list on itself returns its
    valid result. *)
Lemma ListSubset_flat (context : Context) (n : nat) (l : list value) :
  forallb scalar l = true -> forallb json l = true ->
  call (S n) (ListSubsetPredicate (VList l) false) context (VList l)
  = Ret (PathValueResult (ListSubsetPredicate (VList l) false) (VList l) ""
           (mkPathValue "" (VList l)) true).
Proof.
  intros Hs Hj. cbn [call pred_call].
  unfold ListSubsetPredicate_call, eval_context_operand.
  cbn [isinstance class_of issubclass pyclass_eqb orb negb violates eval bind
         py_iter].
  rewrite forallb_forall in Hs, Hj.
  assert (forall elems, incl elems l ->
            ListSubset_elems (call n) (ListSubsetPredicate (VList l) false)
              false context (VList l) elems
            = Ret (PathValueResult (ListSubsetPredicate (VList l) false)
                     (VList l) "" (mkPathValue "" (VList l)) true)) as H.
  { induction elems as [|e elems IH]; intros Hincl; auto.
    cbn [ListSubset_elems]. unfold verify_elem. cbn [orb].
    assert (In e l) as He by (apply Hincl; now left).
    pose proof (Hs e He) as Hse. unfold scalar in Hse. rewrite Hse.
    cbn [eval py_contains]. rewrite (py_in_member e l He (Hj e He)).
    cbn [bind negb]. apply IH. intros x Hx. apply Hincl. now right. }
  apply H, incl_refl.
Qed.

Lemma is_subset_copy_total (context : Context) (n : nat) (self : pred)
  (source : value) (path : string) (b_items items : list (string * value)) :
  (forall k x, In (k, x) items ->
     dict_get k b_items = Some x /\ json x = true /\ flat_arrays x = true
     /\ (forall self' source' path',
            isinstance x (TClass Cdict) = true ->
            is_subset (call (S n)) self' context source' path' x x
            = Ret (PathValueResult self' source' path'
                     (mkPathValue path' x) true))) ->
  is_subset (call (S n)) self context source path (VDict items)
    (VDict b_items)
  = Ret (PathValueResult self source path (mkPathValue path (VDict b_items))
           true).
Proof.
  induction items as [|[name a_value] items IH]; intros Hall; auto.
  destruct (Hall name a_value (or_introl eq_refl)) as (Hget & Hj & Hf & Hw).
  rewrite is_subset_cons, is_subset_single. cbv zeta. rewrite Hget.
  assert (is_subset (call (S n)) self context source path (VDict items)
            (VDict b_items)
          = Ret (PathValueResult self source path
                   (mkPathValue path (VDict b_items)) true)) as Hrest.
  { apply IH. intros k x Hin. apply Hall. now right. }
  destruct (isinstance a_value (TClass Cdict)) eqn:Ed.
  { rewrite (Hw _ _ _ eq_refl). cbn [bind valid negb]. exact Hrest. }
  destruct (isinstance a_value (TClass Clist)) eqn:El.
  { destruct (isinstance_list_inv _ El) as [l ->].
    cbn [LIST_SUBSET isinstance class_of issubclass pyclass_eqb orb negb bind].
    rewrite ListSubset_flat by (cbn in Hf, Hj; auto).
    cbn [bind valid negb]. exact Hrest. }
  unfold py_ne. rewrite (eval_json _ _ Hj), (py_eq_refl _ Hj).
  cbn [bind valid negb]. exact Hrest.
Qed.

(** On a JSON object whose arrays hold scalars only, the walk of the object
    against itself returns its valid result. *)
Lemma subset_reflexive_total (context : Context) (v : value) :
  json v = true -> flat_arrays v = true ->
  forall n self source path,
    isinstance v (TClass Cdict) = true ->
    is_subset (call (S n)) self context source path v v
    = Ret (PathValueResult self source path (mkPathValue path v) true).
Proof.
  induction v as [| | | | | | |d IH|] using value_nested_ind;
    intros Hj Hf fuel self source path Hd; try discriminate Hd.
  apply is_subset_copy_total.
  cbn [json] in Hj. apply andb_prop in Hj as [Hk Hv].
  apply nodupb_NoDup in Hk. rewrite forallb_forall in Hv.
  cbn [flat_arrays] in Hf. rewrite forallb_forall in Hf.
  rewrite Forall_forall in IH.
  intros k x Hin.
  split; [now apply In_dict_get|].
  split; [apply (Hv _ Hin)|].
  split; [apply (Hf _ Hin)|].
  intros self' source' path' Hx.
  apply (IH _ Hin (Hv _ Hin) (Hf _ Hin)); auto.
Qed.

(** C5, as the code has it.  Let [A] copy some of [B]'s fields unchanged,
    the copied values being JSON values (distinct keys, no NaN).  Then
    [DictSubsetPredicate(A)] on [B] returns no invalid result: if it
    returns, the result is the single valid result for the whole structure,
    at the path passed in (the root).  It does return it when every array
    in the copied values holds only strings and numbers; in general the
    evaluation ends, with that valid result or with an exception. *)
Theorem DictSubset_of_copy (context : Context) (A B : list (string * value)) :
  (forall k v, In (k, v) A -> dict_get k B = Some v /\ json v = true) ->
  let p := DictSubsetPredicate (VDict A) in
  let ok := PathValueResult p (VDict B) "" (mkPathValue "" (VDict B)) true in
  (forall fuel r, call fuel p context (VDict B) = Ret r -> r = ok)
  /\ ((forall k v, In (k, v) A -> flat_arrays v = true) ->
      forall fuel, 2 <= fuel -> call fuel p context (VDict B) = Ret ok)
  /\ (forall fuel, 2 * depth (VDict B) + 3 <= fuel ->
        call fuel p context (VDict B) = Ret ok
        \/ exists e, call fuel p context (VDict B) = Raise e).
Proof.
  intros Hcopy p ok.
  assert (forall fuel r, call fuel p context (VDict B) = Ret r -> r = ok)
    as Hvalid.
  { intros [|n] r H; [discriminate|].
    change (is_subset (call n) p context (VDict B) "" (VDict A) (VDict B)
            = Ret r) in H.
    revert H. apply is_subset_copy_valid.
    intros k x Hin. destruct (Hcopy k x Hin) as [Hget Hj].
    repeat split; auto; apply subset_reflexive; auto. }
  split; [exact Hvalid|]. split.
  - intros Hflat [|[|n]] Hfuel; try lia.
    change (is_subset (call (S n)) p context (VDict B) "" (VDict A) (VDict B)
            = Ret ok).
    apply is_subset_copy_total.
    intros k x Hin. destruct (Hcopy k x Hin) as [Hget Hj].
    pose proof (Hflat k x Hin) as Hf.
    repeat split; auto.
    intros self' source' path' Hd.
    apply subset_reflexive_total; auto.
  - intros fuel Hfuel.
    destruct (call fuel p context (VDict B)) as [r|e|] eqn:E.
    + left. f_equal. exact (Hvalid fuel r E).
    + right. now exists e.
    + exfalso. apply (call_completes_needed fuel p context (VDict B));
        [exact I| |exact E].
      pose proof (fuel_needed_le p (VDict B)). lia.
Qed.

(** ** Further properties of the module *)

(** *** Termination *)

(** X1.  Evaluation always ends.  A predicate whose comparison functions
    return or raise, applied to a value nested [depth val] deep, returns or
    raises within [2 * depth val + 3] nested predicate invocations, and a
    larger budget gives the same outcome: the recursion of
    [ContainsPredicate], [_is_subset], [_verify_elem] and the matchers
    always descends into the value. *)
Theorem call_terminates (p : pred) (context : Context) (val : value) :
  ops_complete p ->
  exists o,
    ((exists r, o = Ret r) \/ (exists e, o = Raise e))
    /\ forall fuel, 2 * depth val + 3 <= fuel -> call fuel p context val = o.
Proof.
  intros Hops. exists (evaluate p context val). split.
  - pose proof (evaluate_completes p context val Hops) as H.
    destruct (evaluate p context val) as [r|e|];
      [left; eauto|right; eauto|now destruct H].
  - intros fuel Hle. now apply call_evaluate.
Qed.

(** *** [lists_equivalent] on integers *)

Lemma py_eq_list_ints (l l' : list Z) :
  py_eq_list (map VInt l) (map VInt l') = true -> l = l'.
Proof.
  revert l'; induction l as [|x l IH]; intros [|y l']; simpl;
    try discriminate; auto.
  intros H. apply andb_prop in H as [Hx Hl]. f_equal; auto.
  unfold num_eqb in Hx; simpl in Hx.
  destruct (Z.compare_spec x y); congruence || discriminate.
Qed.

(** X2.  On lists of integers [lists_equivalent] is exactly equality of
    multisets: it returns [True] if and only if one list is a permutation of
    the other, so repetitions count. *)
Theorem lists_equivalent_ints_permutation (xs ys : list Z) :
  lists_equivalent (map VInt xs) (map VInt ys) = Ret true <->
  Permutation xs ys.
Proof.
  rewrite lists_equivalent_spec, py_eq_VList, !sorted_ints, !length_map.
  split.
  - intros H. inversion H as [H1]. apply andb_prop in H1 as [_ H2].
    apply py_eq_list_ints in H2.
    rewrite (sort_Z_perm xs), (sort_Z_perm ys), H2. reflexivity.
  - intros Hp. rewrite (Permutation_length Hp), Nat.eqb_refl.
    rewrite (sort_Z_perm_eq _ _ Hp), py_eq_list_ints_refl. reflexivity.
Qed.

(** *** Empty operands *)

Lemma find_strictness_errors_all (source : value) (l : list value) (k : nat) :
  forall index,
    index + k <= length l ->
    exists errors,
      find_strictness_errors source l index (repeat 0 k) = Ret errors
      /\ length errors = k.
Proof.
  induction k as [|k IH]; intros index Hle; cbn [repeat find_strictness_errors].
  - now exists [].
  - cbn [Nat.eqb].
    destruct (nth_error l index) as [elem|] eqn:E.
    + destruct (IH (S index)) as (errors & -> & Hlen); [lia|].
      cbn [bind]. eexists; split; [reflexivity|]. cbn [length]. now rewrite Hlen.
    + apply nth_error_None in E. lia.
Qed.

(** X3.  The empty operand.  [DictSubsetPredicate({})] is valid on every
    object and [ListSubsetPredicate([])] on every list.  A matcher without
    patterns accepts every value of its container class when it is not
    strict; when strict it accepts the empty container only, and the strict
    list matcher reports one error per element. *)
Theorem empty_operand (fuel : nat) (context : Context) :
  (forall d,
      let p := DictSubsetPredicate (VDict []) in
      call (S fuel) p context (VDict d)
      = Ret (PathValueResult p (VDict d) "" (mkPathValue "" (VDict d)) true))
  /\ (forall strict l,
         let p := ListSubsetPredicate (VList []) strict in
         call (S fuel) p context (VList l)
         = Ret (PathValueResult p (VList l) "" (mkPathValue "" (VList l))
                  true))
  /\ (forall d,
         let p := DictMatchesPredicate [] false in
         call (S fuel) p context (VDict d)
         = Ret (KeyedPredicateResult p [] true))
  /\ (forall d,
         let p := DictMatchesPredicate [] true in
         exists r,
           call (S fuel) p context (VDict d) = Ret r
           /\ valid r = match d with [] => true | _ :: _ => false end)
  /\ (forall unique l,
         let p := ListMatchesPredicate [] false unique in
         call (S fuel) p context (VList l)
         = Ret (SequencedPredicateResult p [] true))
  /\ (forall unique l,
         let p := ListMatchesPredicate [] true unique in
         exists r,
           call (S fuel) p context (VList l) = Ret r
           /\ valid r = match l with [] => true | _ :: _ => false end
           /\ length (results r) = length l).
Proof.
  repeat split; try reflexivity.
  - intros [|[k v] d] p; cbn; eexists; split; reflexivity.
  - intros unique l p. subst p. cbn [call pred_call].
    unfold ListMatchesPredicate_call. cbv zeta.
    cbn [ListMatches_patterns bind]. cbv beta iota.
    destruct (find_strictness_errors_all (VList l) l (length l) 0)
      as (errors & -> & Hlen); [lia|].
    cbn [bind]. destruct errors as [|e errors]; destruct l as [|x l];
      try discriminate; eexists; (split; [reflexivity|]); split; auto.
Qed.

(** *** List subsets and membership *)





(** X5.  Membership is the subset test of a singleton.  On a list,
    [ListMembershipPredicate(x)] and [ListSubsetPredicate([x])] with the same
    strictness give the same validity, or raise the same exception. *)
Theorem ListMembership_is_singleton_subset (fuel : nat) (context : Context)
  (strict : bool) (x : value) (l : list value) :
  verdict (call (S fuel) (ListMembershipPredicate x strict) context (VList l))
  = verdict (call (S fuel) (ListSubsetPredicate (VList [x]) strict) context
               (VList l)).
Proof.
  cbn [call pred_call].
  unfold ListMembershipPredicate_call, ListSubsetPredicate_call,
    eval_context_operand.
  cbn [isinstance class_of issubclass pyclass_eqb orb negb eval violates
       bind py_iter ListSubset_elems].
  destruct (verify_elem (call fuel) strict context x (VList l)) as [ok|e|];
    cbn [bind verdict]; try reflexivity.
  destruct ok; reflexivity.
Qed.

(** *** [EquivalentPredicate] and [DifferentPredicate] *)

(** X6.  On a value that is not a list, [Equivalent] and [Different] with
    the same operand never agree on a comparison: either the operand is of
    the wrong type for the value and both return the same
    [TypeMismatchError], or both compare and their validities are opposite,
    or the value's class is unsupported and both raise
    [NotImplementedError]. *)
Theorem Equivalent_Different_opposite (fuel : nat) (context : Context)
  (operand val : value) :
  isinstance val (TClass Clist) = false ->
  let e := call (S (S fuel)) (EquivalentPredicate operand) context val in
  let d := call (S (S fuel)) (DifferentPredicate operand) context val in
  (exists t g, e = Ret (TypeMismatchError t g (Some val) "" None) /\ d = e)
  \/ (exists pe pd b,
         e = Ret (PathValueResult pe val "" (mkPathValue "" val) b)
         /\ d = Ret (PathValueResult pd val "" (mkPathValue "" val) (negb b)))
  \/ (e = Raise NotImplementedError /\ d = Raise NotImplementedError).
Proof.
  intros Hlist e d. subst e d. cbn [call pred_call].
  unfold EquivalentPredicate_call, DifferentPredicate_call,
    check_operand_and_call.
  destruct val; try discriminate Hlist;
    cbn [isinstance class_of issubclass pyclass_eqb orb existsb
         int_or_long_or_float py_or type_truthy numeric_types];
    try (right; right; split; reflexivity);
    cbv zeta; destruct (eval context operand) eqn:Ho;
    cbn -[py_eq py_ne]; unfold py_ne;
    first [ left; do 2 eexists; split; reflexivity
          | right; left; do 3 eexists; split; reflexivity ].
Qed.

(** X7.  On lists the two are not opposite: [Equivalent] compares without
    regard to order ([LIST_SIMILAR]) while [Different] compares in order
    ([LIST_NE]), so two lists of integers that are permutations of each
    other without being equal satisfy both predicates. *)
Theorem Equivalent_Different_both_valid (fuel : nat) (context : Context)
  (xs ys : list Z) :
  Permutation xs ys -> xs <> ys ->
  let val := VList (map VInt xs) in
  let operand := VList (map VInt ys) in
  (exists pe,
      call (S (S fuel)) (EquivalentPredicate operand) context val
      = Ret (PathValueResult pe val "" (mkPathValue "" val) true))
  /\ (exists pd,
         call (S (S fuel)) (DifferentPredicate operand) context val
         = Ret (PathValueResult pd val "" (mkPathValue "" val) true)).
Proof.
  intros Hp Hne val operand. subst val operand. cbn [call pred_call].
  unfold EquivalentPredicate_call, DifferentPredicate_call,
    check_operand_and_call.
  cbn -[py_eq py_ne lists_equivalent]. split.
  - rewrite lists_equivalent_spec, py_eq_VList, !sorted_ints, !length_map.
    rewrite (Permutation_length Hp), Nat.eqb_refl.
    rewrite (sort_Z_perm_eq _ _ Hp), py_eq_list_ints_refl.
    eexists; reflexivity.
  - unfold py_ne. rewrite py_eq_VList.
    destruct (py_eq_list (map VInt xs) (map VInt ys)) eqn:E.
    + apply py_eq_list_ints in E. contradiction.
    + eexists; reflexivity.
Qed.

(** X8.  [Equivalent] and [Different] support strings, objects, lists,
    [int] and [bool] only: the call raises [NotImplementedError] exactly when
    the value is of another class ([None], [long], [float], a function),
    whatever the operand.  The test [isinstance(value, int or long or float)]
    only recognises [int]. *)
Theorem Equivalent_Different_unsupported (fuel : nat) (context : Context)
  (operand val : value) :
  let supported :=
    isinstance val (TTuple [Cbasestring; Cdict; Clist; Cint]) in
  (call (S (S fuel)) (EquivalentPredicate operand) context val
   = Raise NotImplementedError <-> supported = false)
  /\ (call (S (S fuel)) (DifferentPredicate operand) context val
      = Raise NotImplementedError <-> supported = false).
Proof.
  cbv zeta. cbn [call pred_call].
  unfold EquivalentPredicate_call, DifferentPredicate_call,
    check_operand_and_call.
  destruct val;
    cbn [isinstance class_of issubclass pyclass_eqb orb existsb
         int_or_long_or_float py_or type_truthy numeric_types];
    try (split; split; reflexivity);
    cbv zeta; destruct (eval context operand) eqn:Ho;
    cbn -[py_eq py_ne lists_equivalent];
    split; split; intros H; try discriminate H;
    rewrite lists_equivalent_spec in H; discriminate H.
Qed.

(** *** The search of [ContainsPredicate] *)

Lemma Contains_search_exists
  (invoke : pred -> Context -> value -> outcome result) (self : pred)
  (context : Context) (val : value) (g : value -> bool)
  (elems : list value) :
  Forall (fun e => exists r, invoke self context e = Ret r
                             /\ valid r = g e) elems ->
  forall bad_values,
  exists r,
    Contains_search invoke self context val elems bad_values = Ret r
    /\ valid r = existsb g elems.
Proof.
  induction 1 as [|x elems (r & Hr & Hv) _ IH]; intros bad;
    cbn [Contains_search existsb].
  - eexists; split; reflexivity.
  - rewrite Hr. cbn [bind]. rewrite <- Hv. destruct (valid r) eqn:E.
    + exists r. now split.
    + apply IH.
Qed.

Lemma Contains_search_raises
  (invoke : pred -> Context -> value -> outcome result) (self : pred)
  (context : Context) (val : value) (pre post : list value) (x : value)
  (e : exn) :
  Forall (fun y => exists r, invoke self context y = Ret r
                             /\ valid r = false) pre ->
  invoke self context x = Raise e ->
  forall bad_values,
    Contains_search invoke self context val (pre ++ x :: post) bad_values
    = Raise e.
Proof.
  intros Hpre Hx. induction Hpre as [|y pre (r & Hr & Hv) _ IH]; intros bad;
    cbn [app Contains_search].
  - now rewrite Hx.
  - rewrite Hr. cbn [bind]. rewrite Hv. apply IH.
Qed.

(** X9.  The search of [ContainsPredicate] reaches every depth.  On a value
    made of integers and lists of them, [Contains(n)] for an integer [n]
    returns a result, which is valid exactly when [n] occurs somewhere in the
    value. *)
Theorem Contains_finds_nested (n : Z) (context : Context) (v : value) :
  int_tree v = true ->
  forall fuel, 2 * depth v + 2 <= fuel ->
    exists r,
      call fuel (ContainsPredicate (VInt n)) context v = Ret r
      /\ valid r = occurs n v.
Proof.
  induction v as [| | m | | | | l IH | |] using value_nested_ind;
    intros Htree fuel Hfuel; try discriminate Htree.
  - destruct fuel as [|[|fuel]]; cbn [depth] in Hfuel; try lia.
    eexists; split; [reflexivity|].
    cbn [valid eval py_eq num_of occurs]. unfold num_eqb.
    cbn [num_compare]. symmetry. apply Z.eqb_compare.
  - destruct fuel as [|fuel]; [lia|].
    cbn [call pred_call]. unfold ContainsPredicate_call.
    cbn [isinstance class_of issubclass pyclass_eqb orb
         int_or_long_or_float py_or type_truthy].
    cbn [occurs]. apply Contains_search_exists.
    cbn [int_tree] in Htree. rewrite forallb_forall in Htree.
    rewrite Forall_forall in IH |- *. intros x Hin.
    apply (IH x Hin (Htree x Hin)).
    pose proof (depth_elem x l Hin). lia.
Qed.

(** X10.  An operand that does not fit the value makes [ContainsPredicate]
    raise, not report.  On a string, an object or an [int], an operand that
    resolves to another type raises [TypeError] (where [Equivalent] returns a
    [TypeMismatchError]); and the search through a list stops with the
    exception raised by the first element that raises, when the elements
    before it did not match. *)
Theorem Contains_mismatch_raises (fuel : nat) (context : Context)
  (operand : value) :
  let self := ContainsPredicate operand in
  (forall s,
      isinstance (eval context operand) (TClass Cbasestring) = false ->
      call (S (S fuel)) self context (VStr s) = Raise TypeError)
  /\ (forall d,
         isinstance (eval context operand) (TClass Cdict) = false ->
         call (S (S fuel)) self context (VDict d) = Raise TypeError)
  /\ (forall n,
         isinstance (eval context operand) numeric_types = false ->
         call (S (S fuel)) self context (VInt n) = Raise TypeError)
  /\ (forall pre x post e,
         isinstance operand (TClass Clist) = false ->
         Forall (fun y => exists r, call (S fuel) self context y = Ret r
                                    /\ valid r = false) pre ->
         call (S fuel) self context x = Raise e ->
         call (S (S fuel)) self context (VList (pre ++ x :: post))
         = Raise e).
Proof.
  cbv zeta. repeat split.
  - intros s H. destruct operand; cbn [eval] in H; cbn;
      try discriminate H; try reflexivity;
      unfold StandardBinaryPredicate_call, DictSubsetPredicate_call,
        eval_context_operand, violates;
      cbn in H; cbn; rewrite H; reflexivity.
  - intros d H. destruct operand; cbn [eval] in H; cbn;
      try discriminate H; try reflexivity;
      unfold StandardBinaryPredicate_call, DictSubsetPredicate_call,
        eval_context_operand, violates;
      cbn in H; cbn; rewrite H; reflexivity.
  - intros n H. destruct operand; cbn [eval] in H; cbn;
      try discriminate H; try reflexivity;
      unfold StandardBinaryPredicate_call, DictSubsetPredicate_call,
        eval_context_operand, violates;
      cbn in H; cbn; rewrite H; reflexivity.
  - intros pre x post e Hl Hpre Hx.
    change (ContainsPredicate_call (call (S fuel)) (ContainsPredicate operand)
              operand context (VList (pre ++ x :: post)) = Raise e).
    unfold ContainsPredicate_call.
    cbn [isinstance class_of issubclass pyclass_eqb orb
         int_or_long_or_float py_or type_truthy] in Hl |- *.
    rewrite Hl. now apply Contains_search_raises.
Qed.

(** *** [DictSubsetPredicate]: what the verdict depends on *)

Lemma verdict_seq (m k : outcome result) :
  verdict (r <- m ;; if valid r then k else Ret r)
  = b <- verdict m ;; if b then verdict k else Ret false.
Proof.
  destruct m as [r| |]; cbn; try reflexivity.
  destruct (valid r) eqn:E; cbn; [reflexivity|now rewrite E].
Qed.

Lemma verdict_pass (m : outcome result) (F : result -> result) (D : result) :
  (forall r, valid (F r) = valid r) -> valid D = true ->
  verdict (r <- m ;; if negb (valid r) then Ret (F r) else Ret D)
  = verdict m.
Proof.
  intros HF HD. destruct m as [r| |]; cbn; try reflexivity.
  destruct (valid r) eqn:E; cbn; [now rewrite HD|now rewrite HF, E].
Qed.

Lemma is_subset_verdict_agree
  (invoke : pred -> Context -> value -> outcome result) (context : Context)
  (a : value) :
  forall self self' source source' path b_items b_items',
    (forall name, In name (field_names a) ->
       dict_get name b_items' = dict_get name b_items) ->
    verdict (is_subset invoke self' context source' path a (VDict b_items'))
    = verdict (is_subset invoke self context source path a (VDict b_items)).
Proof.
  induction a as [| | | | | | |a_items IH|] using value_nested_ind;
    try (intros; reflexivity).
  induction a_items as [|[name a_value] items IHitems];
    intros self self' source source' path b_items b_items' Hagree.
  - reflexivity.
  - inversion IH as [|? ? IHa IHrest]; subst. cbn [snd] in IHa.
    rewrite (is_subset_cons invoke context self' source' path name a_value
               items b_items').
    rewrite (is_subset_cons invoke context self source path name a_value
               items b_items).
    rewrite verdict_seq, verdict_seq.
    rewrite (IHitems IHrest self self' source source' path b_items b_items')
      by (intros n Hn; apply Hagree; now right).
    f_equal.
    rewrite !is_subset_single. cbv zeta.
    rewrite (Hagree name) by (now left).
    destruct (dict_get name b_items) as [b_value|]; [|reflexivity].
    destruct (isinstance b_value (TClass Cdict)) eqn:Ed.
    { destruct (isinstance_dict_inv _ Ed) as [bd ->].
      rewrite !(verdict_pass _ (fun r => r)) by reflexivity.
      apply IHa. reflexivity. }
    destruct (isinstance b_value (TClass Clist)).
    { destruct (if isinstance a_value (TClass Clist) then _ else _)
        as [elem_pred| |]; cbn [bind]; try reflexivity.
      rewrite !(verdict_pass _ (fun r => clone_with_source r _ _ _));
        try reflexivity; intros; apply clone_with_source_valid. }
    destruct (py_ne (eval context a_value) b_value); [|reflexivity].
    destruct (is_subset_mismatch_invalid source path (namepath_of path name)
                (eval context a_value) (VDict b_items) b_value)
      as (r & -> & Hr & _).
    destruct (is_subset_mismatch_invalid source' path (namepath_of path name)
                (eval context a_value) (VDict b_items') b_value)
      as (r' & -> & Hr' & _).
    cbn. now rewrite Hr, Hr'.
Qed.

(** X11.  Only the fields named in the operand count.  Two objects that
    hold the same values under the operand's field names get the same
    verdict from [DictSubsetPredicate] (valid, invalid, or the same
    exception), whatever other fields they have and in whatever order. *)
Theorem DictSubset_ignores_other_fields (fuel : nat) (context : Context)
  (operand : value) (B B' : list (string * value)) :
  (forall name, In name (field_names (eval context operand)) ->
     dict_get name B' = dict_get name B) ->
  verdict (call (S fuel) (DictSubsetPredicate operand) context (VDict B'))
  = verdict (call (S fuel) (DictSubsetPredicate operand) context (VDict B)).
Proof.
  intros Hagree. cbn [call pred_call].
  unfold DictSubsetPredicate_call, eval_context_operand.
  cbn [isinstance class_of issubclass pyclass_eqb orb negb]. cbv zeta.
  destruct (violates _ _); cbn [bind]; [reflexivity|].
  now apply is_subset_verdict_agree.
Qed.

(** *** [DictSubsetPredicate]: paths and type confusion *)

Lemma append_assoc (s t u : string) :
  ((s ++ t) ++ u = s ++ t ++ u)%string.
Proof. induction s as [|c s IH]; cbn; [reflexivity|now rewrite IH]. Qed.

Lemma append_nonempty (s t : string) : s <> "" -> (s ++ t)%string <> "".
Proof. destruct s; [congruence|discriminate]. Qed.

Lemma namepath_fold (ks : list string) :
  forall p, p <> "" -> fold_left namepath_of ks p = String.concat "/" (p :: ks).
Proof.
  induction ks as [|k ks IH]; intros p Hp; [reflexivity|].
  cbn [fold_left]. unfold namepath_of at 2.
  destruct (String.eqb_spec p ""); [contradiction|].
  rewrite IH by (now apply append_nonempty).
  destruct ks as [|k2 ks]; [reflexivity|].
  cbn [String.concat]. now rewrite !append_assoc.
Qed.

Lemma dict_get_head {A : Type} (k : string) (x : A) (d : list (string * A)) :
  dict_get k ((k, x) :: d) = Some x.
Proof. cbn. now rewrite String.eqb_refl. Qed.

Lemma is_subset_nest
  (invoke : pred -> Context -> value -> outcome result) (context : Context)
  (self : pred) (source a b : value) (ks : list string) :
  isinstance b (TClass Cdict) = false ->
  isinstance b (TClass Clist) = false ->
  py_ne (eval context a) b = true ->
  forall k path,
  exists r,
    is_subset invoke self context source path (nest (k :: ks) a)
      (nest (k :: ks) b) = Ret r
    /\ valid r = false
    /\ target_path r = fold_left namepath_of (k :: ks) path.
Proof.
  intros Hd Hl Hne. induction ks as [|k2 ks IH]; intros k path;
    cbn [nest fold_left]; rewrite is_subset_single; cbv zeta;
    rewrite dict_get_head.
  - cbn [nest]. rewrite Hd, Hl, Hne. apply is_subset_mismatch_invalid.
  - change (VDict [(k2, nest ks b)]) with (nest (k2 :: ks) b).
    change (VDict [(k2, nest ks a)]) with (nest (k2 :: ks) a).
    change (isinstance (nest (k2 :: ks) b) (TClass Cdict)) with true.
    cbv iota.
    destruct (IH k2 (namepath_of path k)) as (r & -> & Hr & Hp).
    cbn [bind]. rewrite Hr. cbn [negb]. exists r. auto.
Qed.

(** X12.  A failure deep inside nested objects is reported at the path of
    its field: the field names from the root, joined by ["/"]. *)
Theorem DictSubset_nested_path (fuel : nat) (context : Context)
  (k : string) (ks : list string) (a b : value) :
  k <> "" ->
  isinstance b (TClass Cdict) = false ->
  isinstance b (TClass Clist) = false ->
  py_ne (eval context a) b = true ->
  exists r,
    call (S fuel) (DictSubsetPredicate (nest (k :: ks) a)) context
      (nest (k :: ks) b) = Ret r
    /\ valid r = false
    /\ target_path r = String.concat "/" (k :: ks).
Proof.
  intros Hk Hd Hl Hne. cbn [call pred_call].
  unfold DictSubsetPredicate_call, eval_context_operand.
  change (isinstance (nest (k :: ks) b) (TClass Cdict)) with true.
  cbn [negb eval nest violates type_truthy isinstance class_of issubclass
       pyclass_eqb orb andb bind].
  destruct (is_subset_nest (call fuel) context
              (DictSubsetPredicate (nest (k :: ks) a)) (nest (k :: ks) b)
              a b ks Hd Hl Hne k "") as (r & Hr & Hv & Hp).
  exists r. split; [exact Hr|]. split; [exact Hv|].
  rewrite Hp. cbn [fold_left]. unfold namepath_of at 2. cbn [String.eqb].
  now apply namepath_fold.
Qed.

(** X13.  Type confusion between the operand and the value.  Where the
    value holds an object and the operand holds anything else under the same
    name, [_is_subset] raises [AttributeError] (it iterates the operand's
    field as an object).  The other way round, where the value holds a
    string or a number and the operand an object, the result is a
    [TypeMismatchError] at the field. *)
Theorem DictSubset_type_confusion (fuel : nat) (context : Context)
  (pre post B : list (string * value)) (k : string) (a : value)
  (r0 : result) :
  call (S fuel) (DictSubsetPredicate (VDict pre)) context (VDict B)
  = Ret r0 ->
  valid r0 = true ->
  let p := DictSubsetPredicate (VDict (pre ++ (k, a) :: post)) in
  (forall d,
      dict_get k B = Some (VDict d) ->
      isinstance a (TClass Cdict) = false ->
      call (S fuel) p context (VDict B) = Raise AttributeError)
  /\ (forall b d,
         dict_get k B = Some b ->
         a = VDict d ->
         scalar b = true ->
         exists t,
           call (S fuel) p context (VDict B)
           = Ret (TypeMismatchError t Cdict (Some (VDict B)) k
                    (Some (mkPathValue "" (VDict B))))).
Proof.
  intros H0 Hv0 p. subst p. cbn [call pred_call] in H0 |- *.
  unfold DictSubsetPredicate_call, eval_context_operand in H0 |- *.
  cbn [negb eval violates type_truthy isinstance class_of issubclass
       pyclass_eqb orb andb bind] in H0 |- *.
  pose proof (is_subset_pass_transfer (call fuel) context (VDict pre)
                _ (DictSubsetPredicate (VDict (pre ++ (k, a) :: post)))
                _ (VDict B) "" B B r0 (fun _ _ => eq_refl) H0 Hv0) as Hpre.
  rewrite is_subset_app, Hpre. cbn [bind valid].
  rewrite is_subset_cons, is_subset_single. cbv zeta.
  split.
  - intros d Hget Ha. rewrite Hget.
    cbn [isinstance class_of issubclass pyclass_eqb orb].
    destruct a; try discriminate Ha; reflexivity.
  - intros b d Hget -> Hb. rewrite Hget.
    destruct b; try discriminate Hb; cbn; eexists; reflexivity.
Qed.

(** *** The predicates of the standard factories *)

(** X14.  The predicates built by the module's standard factories
    ([NUM_*], [STR_*], [DICT_*], [LIST_*]) never raise from their
    comparison.  If the operand resolves to a value outside the factory's
    type the call raises [TypeError]; otherwise a value outside that type is
    reported as a [TypeMismatchError] carrying the type, the value's class
    and the value, and a value of the type is compared and yields a
    [PathValueResult] on the value itself. *)
Theorem standard_predicates_guarded (factory : StandardBinaryPredicateFactory)
  (operand : value) (p : pred) :
  In factory standard_factories ->
  factory_call factory operand = Ret p ->
  exists t,
    factory_operand_type factory = Some t
    /\ forall fuel context val,
         (isinstance (eval context operand) t = false ->
          call (S fuel) p context val = Raise TypeError)
         /\ (isinstance (eval context operand) t = true ->
             isinstance val t = false ->
             call (S fuel) p context val
             = Ret (TypeMismatchError t (class_of val) (Some val) "" None))
         /\ (isinstance (eval context operand) t = true ->
             isinstance val t = true ->
             exists ok,
               call (S fuel) p context val
               = Ret (PathValueResult p val "" (mkPathValue "" val) ok)).
Proof.
  intros Hin Hp.
  assert (exists t, factory_operand_type factory = Some t
                    /\ type_truthy t = true
                    /\ forall a b, isinstance a t = true ->
                         isinstance b t = true ->
                         exists ok, factory_comparison_op factory a b = Ret ok)
    as (t & Ht & Htruthy & Hop).
  { unfold standard_factories in Hin.
    repeat (destruct Hin as [<-|Hin]; [eexists; split; [reflexivity|];
      split; [reflexivity|]; intros a b Ha Hb; cbn;
      try (eexists; reflexivity)|]); try contradiction.
    - destruct a; try discriminate Ha. destruct b; try discriminate Hb.
      eexists; reflexivity.
    - destruct a; try discriminate Ha. destruct b; try discriminate Hb.
      cbn. rewrite lists_equivalent_spec. eexists; reflexivity. }
  exists t. split; [exact Ht|].
  unfold factory_call in Hp. rewrite Ht in Hp.
  destruct (BinaryPredicate_init operand (Some t)); cbn [bind] in Hp;
    try discriminate Hp.
  inversion Hp as [Hp']. clear Hp.
  intros fuel context val. cbn [call pred_call].
  unfold StandardBinaryPredicate_call, eval_context_operand, violates.
  rewrite Htruthy. cbn [andb]. repeat split.
  - intros Ho. rewrite Ho. reflexivity.
  - intros Ho Hv. rewrite Ho, Hv. reflexivity.
  - intros Ho Hv. rewrite Ho, Hv. cbn [negb bind].
    destruct (Hop val (eval context operand) Hv Ho) as (ok & ->).
    exists ok. reflexivity.
Qed.

(** X15.  The container predicates look at the class of the value before
    anything else: applied to a value that is not of their container class
    they return a [TypeMismatchError] carrying the class expected, the class
    found and the value, whatever the operand. *)
Theorem container_value_type_checked_first (fuel : nat) (context : Context)
  (val : value) :
  (isinstance val (TClass Cdict) = false ->
   (forall d strict,
       call (S fuel) (DictMatchesPredicate d strict) context val
       = Ret (TypeMismatchError (TClass Cdict) (class_of val) (Some val) ""
                None))
   /\ (forall operand,
          call (S fuel) (DictSubsetPredicate operand) context val
          = Ret (TypeMismatchError (TClass Cdict) (class_of val) (Some val)
                   "" None)))
  /\ (isinstance val (TClass Clist) = false ->
      (forall l strict unique,
          call (S fuel) (ListMatchesPredicate l strict unique) context val
          = Ret (TypeMismatchError (TClass Clist) (class_of val) (Some val)
                   "" None))
      /\ (forall operand strict,
             call (S fuel) (ListSubsetPredicate operand strict) context val
             = Ret (TypeMismatchError (TClass Clist) (class_of val)
                      (Some val) "" None))).
Proof.
  split; intros H; split; intros; cbn [call pred_call];
    unfold DictSubsetPredicate_call, ListSubsetPredicate_call;
    try rewrite H; try reflexivity;
    destruct val; try discriminate H; reflexivity.
Qed.

(** *** Deferred operands *)

(** X16.  A deferred operand stands for the value it resolves to.  A
    standard predicate bound to a function object gives, in a context, the
    verdict of the same predicate bound to what the function returns there;
    and a field of a [DictSubsetPredicate] operand that is a function object
    is compared as the value it returns, when the value's field is neither
    an object nor a list. *)
Theorem deferred_operand_resolved (fuel : nat) (context : Context)
  (addr : nat) (f : Context -> value) :
  callable (f context) = false ->
  (forall n op t val,
      verdict (call (S fuel)
                 (StandardBinaryPredicate n op (VCallable addr f) t)
                 context val)
      = verdict (call (S fuel) (StandardBinaryPredicate n op (f context) t)
                   context val))
  /\ (forall pre post B k b,
         dict_get k B = Some b ->
         isinstance b (TClass Cdict) = false ->
         isinstance b (TClass Clist) = false ->
         verdict (call (S fuel)
                    (DictSubsetPredicate
                       (VDict (pre ++ (k, VCallable addr f) :: post)))
                    context (VDict B))
         = verdict (call (S fuel)
                      (DictSubsetPredicate
                         (VDict (pre ++ (k, f context) :: post)))
                      context (VDict B))).
Proof.
  intros Hf.
  assert (eval context (f context) = f context) as Hev
    by (destruct (f context); try discriminate Hf; reflexivity).
  split.
  - intros n op t val. cbn [call pred_call].
    unfold StandardBinaryPredicate_call, eval_context_operand.
    rewrite Hev. cbn [eval].
    destruct (violates t (f context)); cbn [bind]; [reflexivity|].
    destruct t as [t|];
      [destruct (type_truthy t && negb (isinstance val t)); [reflexivity|]|];
      destruct (op val (f context)); reflexivity.
  - intros pre post B k b Hget Hd Hl. cbn [call pred_call].
    unfold DictSubsetPredicate_call, eval_context_operand.
    cbn [negb eval violates type_truthy isinstance class_of issubclass
         pyclass_eqb orb andb bind].
    rewrite (is_subset_verdict_agree (call fuel) context
               (VDict (pre ++ (k, VCallable addr f) :: post))
               (DictSubsetPredicate (VDict (pre ++ (k, f context) :: post)))
               (DictSubsetPredicate
                  (VDict (pre ++ (k, VCallable addr f) :: post)))
               (VDict B) (VDict B) "" B B (fun _ _ => eq_refl)).
    f_equal. rewrite !is_subset_app. f_equal.
    rewrite (is_subset_cons _ _ _ _ _ k (VCallable addr f)).
    rewrite (is_subset_cons _ _ _ _ _ k (f context)).
    f_equal. rewrite !is_subset_single. cbv zeta.
    rewrite Hget, Hd, Hl, Hev. reflexivity.
Qed.

(** *** [ContainsPredicate] on a value and itself *)

Lemma prefix_refl (s : string) : prefix s s = true.
Proof.
  induction s as [|c s IH]; [reflexivity|].
  cbn. destruct (ascii_dec c c); [exact IH|contradiction].
Qed.

Lemma str_find_refl (s : string) : str_find s s = 0%Z.
Proof.
  unfold str_find. destruct s as [|c s]; [reflexivity|].
  cbn [index]. now rewrite prefix_refl.
Qed.

(** X17.  Every supported value contains itself.  For a JSON value whose
    arrays hold strings and numbers, of a class [ContainsPredicate] handles
    (string, object, list, [int], [bool]), [Contains(v)] applied to [v]
    returns a valid result. *)
Theorem Contains_reflexive (fuel : nat) (context : Context) (v : value) :
  json v = true -> flat_arrays v = true ->
  isinstance v (TTuple [Cbasestring; Cdict; Clist; Cint]) = true ->
  exists r,
    call (S (S (S fuel))) (ContainsPredicate v) context v = Ret r
    /\ valid r = true.
Proof.
  intros Hj Hf Hc.
  destruct v as [| b | n | | | s | l | d |]; try discriminate Hc.
  - eexists; split; [reflexivity|]. destruct b; reflexivity.
  - eexists; split; [reflexivity|].
    cbn [valid eval py_eq num_of]. unfold num_eqb. cbn [num_compare].
    now rewrite Z.compare_refl.
  - eexists; split; [reflexivity|].
    cbn [valid eval]. now rewrite str_find_refl.
  - cbn [flat_arrays json] in Hf, Hj.
    change (call (S (S (S fuel))) (ContainsPredicate (VList l)) context
              (VList l))
      with (call (S (S fuel)) (ListSubsetPredicate (VList l) false) context
              (VList l)).
    rewrite (ListSubset_flat context (S fuel) l Hf Hj).
    eexists; split; reflexivity.
  - change (call (S (S (S fuel))) (ContainsPredicate (VDict d)) context
              (VDict d))
      with (is_subset (call (S fuel)) (DictSubsetPredicate (VDict d)) context
              (VDict d) "" (VDict d) (VDict d)).
    rewrite (subset_reflexive_total context (VDict d) Hj Hf fuel _ _ _
               eq_refl).
    eexists; split; reflexivity.
Qed.

(** *** Elements [_verify_elem] does not handle *)

(** X18.  Without [strict], [_verify_elem] handles numbers, strings, lists
    and objects only.  A membership test for anything else ([None], a
    function) raises [TypeError] on every value, and a subset test raises it
    on reaching such an element of the operand, when the elements before it
    are numbers or strings found in the list. *)
Theorem verify_elem_unhandled (fuel : nat) (context : Context) (x : value) :
  isinstance x (TTuple [Cint; Clong; Cfloat; Cbasestring; Clist; Cdict])
  = false ->
  (forall val,
      call (S fuel) (ListMembershipPredicate x false) context val
      = Raise TypeError)
  /\ (forall pre post l,
         Forall (fun e => scalar e = true /\ py_in e l = true) pre ->
         call (S fuel) (ListSubsetPredicate (VList (pre ++ x :: post)) false)
           context (VList l)
         = Raise TypeError).
Proof.
  intros Hx.
  assert (forall the_list,
             verify_elem (call fuel) false context x the_list
             = Raise TypeError) as Hv.
  { intros the_list. destruct x; try discriminate Hx; reflexivity. }
  split.
  - intros val. cbn [call pred_call]. unfold ListMembershipPredicate_call.
    now rewrite Hv.
  - intros pre post l Hpre. cbn [call pred_call].
    unfold ListSubsetPredicate_call, eval_context_operand.
    cbn [isinstance class_of issubclass pyclass_eqb orb negb eval violates
         bind py_iter].
    generalize (ListSubsetPredicate (VList (pre ++ x :: post)) false).
    intros self.
    induction Hpre as [|e pre [He Hin] _ IH]; cbn [app ListSubset_elems].
    + now rewrite Hv.
    + unfold verify_elem at 1. unfold scalar in He. rewrite He.
      cbn [orb eval py_contains bind]. rewrite Hin. exact IH.
Qed.

(** *** The comparisons of the standard factories *)

Lemma substring_prefix (t s : string) :
  substring 0 (String.length t) s = t ->
  exists post, s = (t ++ post)%string.
Proof.
  revert s. induction t as [|c t IH]; intros s H.
  - now exists s.
  - destruct s as [|c' s]; [discriminate H|].
    cbn in H. inversion H as [[Hc Ht]]. rewrite Ht.
    destruct (IH s Ht) as (post & ->). now exists post.
Qed.

Lemma substring_occurs (m : nat) :
  forall s t,
    substring m (String.length t) s = t ->
    exists pre post, s = (pre ++ t ++ post)%string.
Proof.
  induction m as [|m IH]; intros s t H.
  - destruct (substring_prefix t s H) as (post & ->). now exists "", post.
  - destruct s as [|c s].
    + destruct t; [|discriminate H]. now exists "", "".
    + cbn in H. destruct (IH s t H) as (pre & post & ->).
      now exists (String c pre), post.
Qed.

Lemma occurs_substring (pre t post : string) :
  substring (String.length pre) (String.length t) (pre ++ t ++ post) = t.
Proof.
  induction pre as [|c pre IH]; [|exact IH].
  cbn [String.length append]. induction t as [|c t IHt].
  - destruct post; reflexivity.
  - cbn. now rewrite IHt.
Qed.

Lemma str_find_occurs (s t : string) :
  (0 <=? str_find s t)%Z = true <->
  exists pre post, s = (pre ++ t ++ post)%string.
Proof.
  unfold str_find. split.
  - destruct (index 0 t s) as [m|] eqn:E; [|discriminate].
    intros _. apply index_correct1 in E. now apply (substring_occurs m).
  - intros (pre & post & ->).
    destruct (index 0 t (pre ++ t ++ post)) as [m|] eqn:E.
    + apply Z.leb_le. lia.
    + destruct t as [|c t].
      * destruct (pre ++ "" ++ post)%string; discriminate E.
      * exfalso.
        apply (index_correct3 0 (String.length pre) _ _ E);
          [discriminate|lia|apply occurs_substring].
Qed.

(** X19.  [STR_SUBSTR] tests that the operand occurs in the value, not the
    reverse: the predicate built for the string [t] returns, on the string
    [s], a result that is valid exactly when [s] is [t] with some text
    before and after it. *)
Theorem STR_SUBSTR_occurrence (fuel : nat) (context : Context)
  (t s : string) :
  exists p ok,
    factory_call STR_SUBSTR (VStr t) = Ret p
    /\ call (S fuel) p context (VStr s)
       = Ret (PathValueResult p (VStr s) "" (mkPathValue "" (VStr s)) ok)
    /\ (ok = true <-> exists pre post, s = (pre ++ t ++ post)%string).
Proof.
  eexists. exists (0 <=? str_find s t)%Z.
  split; [reflexivity|]. split; [reflexivity|]. apply str_find_occurs.
Qed.

(** X20.  The numeric factories compare the value with the operand, in
    this order: on integers, the predicate built by [NUM_LE] for [o] is
    valid on [v] exactly when [v <= o]; [NUM_GE] when [v >= o]; [NUM_EQ]
    when [v = o]; [NUM_NE] when they differ. *)
Theorem NUM_comparators_on_ints (fuel : nat) (context : Context) (o v : Z) :
  let holds factory ok :=
    exists p,
      factory_call factory (VInt o) = Ret p
      /\ call (S fuel) p context (VInt v)
         = Ret (PathValueResult p (VInt v) "" (mkPathValue "" (VInt v)) ok) in
  holds NUM_LE (v <=? o)%Z
  /\ holds NUM_GE (v >=? o)%Z
  /\ holds NUM_EQ (v =? o)%Z
  /\ holds NUM_NE (negb (v =? o)%Z).
Proof.
  cbv zeta.
  assert (py_eq (VInt v) (VInt o) = (v =? o)%Z) as Heq.
  { cbn [py_eq num_of]. unfold num_eqb. cbn [num_compare].
    symmetry. apply Z.eqb_compare. }
  assert (py_lt (VInt v) (VInt o) = (v <? o)%Z) as Hlt by reflexivity.
  assert (py_lt (VInt o) (VInt v) = (o <? v)%Z) as Hgt by reflexivity.
  repeat split; eexists; (split; [reflexivity|]);
    cbn [call pred_call]; unfold StandardBinaryPredicate_call;
    cbn -[py_le py_ge py_eq py_ne Z.leb Z.geb Z.eqb];
    do 2 f_equal; unfold py_le, py_ge, py_ne;
    rewrite ?Heq, ?Hlt, ?Hgt; try reflexivity; lia.
Qed.

(** *** Lists of lists *)




(** *** Membership in values that are not lists *)

(** X22.  [ListMembershipPredicate] does not check that the value is a
    list: it applies [in] to whatever it is given.  For a string operand, a
    string value is searched for the operand as a substring and an object
    for the operand as a key; for a number or string operand, a value that
    is [None] or a number raises [TypeError]. *)
Theorem ListMembership_untyped (fuel : nat) (context : Context)
  (strict : bool) :
  (forall t s,
      let p := ListMembershipPredicate (VStr t) strict in
      exists ok,
        call (S fuel) p context (VStr s)
        = Ret (PathValueResult p (VStr s) "" (mkPathValue "" (VStr s)) ok)
        /\ (ok = true <-> exists pre post, s = (pre ++ t ++ post)%string))
  /\ (forall k d,
         let p := ListMembershipPredicate (VStr k) strict in
         call (S fuel) p context (VDict d)
         = Ret (PathValueResult p (VDict d) "" (mkPathValue "" (VDict d))
                  (existsb (String.eqb k) (keys d))))
  /\ (forall x val,
         scalar x = true ->
         isinstance val (TTuple [CNoneType; Cint; Clong; Cfloat]) = true ->
         call (S fuel) (ListMembershipPredicate x strict) context val
         = Raise TypeError).
Proof.
  repeat split.
  - intros t s p. exists (0 <=? str_find s t)%Z. split.
    + subst p. destruct strict; reflexivity.
    + apply str_find_occurs.
  - intros k d p. subst p. destruct strict; reflexivity.
  - intros x val Hx Hv. cbn [call pred_call].
    unfold ListMembershipPredicate_call, verify_elem.
    unfold scalar in Hx. rewrite Hx, orb_true_r.
    destruct val; try discriminate Hv; reflexivity.
Qed.

End Engine.

(** * Instances at concrete inputs *)

Lemma lists_equivalent_order_independent_witness :
  (forallb (unique_keys unit) [VDict unit [("k", VInt unit 1)]; VInt unit 2]
   = true
   /\ lists_equivalent unit
        [VDict unit [("k", VInt unit 1)]; VInt unit 2]
        [VInt unit 2; VDict unit [("k", VInt unit 1)]]
      = lists_equivalent unit
          [VInt unit 2; VDict unit [("k", VInt unit 1)]]
          [VDict unit [("k", VInt unit 1)]; VInt unit 2])
  /\ (Permutation [4; 7; 5]%Z [5; 4; 7]%Z
      /\ lists_equivalent unit (map (VInt unit) [4; 7; 5]%Z)
           (map (VInt unit) [5; 4; 7]%Z) = Ret true)
  /\ (length [VNone unit] <> length (@nil (value unit))
      /\ lists_equivalent unit [VNone unit] [] = Ret false).
Proof.
  pose proof (lists_equivalent_order_independent unit)
    as (_ & Hcomm & Hperm & _ & Hlen & _).
  assert (Permutation [4; 7; 5]%Z [5; 4; 7]%Z) as Hp.
  { apply Permutation_sym, (Permutation_cons_app [4; 7]%Z [] 5%Z).
    apply Permutation_refl. }
  split; [split; [reflexivity|apply Hcomm; reflexivity]|].
  split; [split; [exact Hp|apply Hperm; exact Hp]|].
  split; [discriminate|apply Hlen; discriminate].
Defined.

Lemma pred_eq_flags_counterexample :
  ~ (pred_eq unit (ListMatchesPredicate unit [] true false)
       (ListMatchesPredicate unit [] false false) = true
     <-> pred_class_of unit (ListMatchesPredicate unit [] true false)
         = pred_class_of unit (ListMatchesPredicate unit [] false false)
         /\ name unit (ListMatchesPredicate unit [] true false)
            = name unit (ListMatchesPredicate unit [] false false)
         /\ operand_eq unit
              (operand unit (ListMatchesPredicate unit [] true false))
              (operand unit (ListMatchesPredicate unit [] false false))
            = true
         /\ operand_type unit (ListMatchesPredicate unit [] true false)
            = operand_type unit (ListMatchesPredicate unit [] false false)).
Proof.
  intros [_ H].
  assert (pred_eq unit (ListMatchesPredicate unit [] true false)
            (ListMatchesPredicate unit [] false false) = true) as E
    by (apply H; repeat split; reflexivity).
  discriminate E.
Qed.

Lemma pred_eq_iff_witness :
  let one := VInt unit 1 in
  let one_float := VFloat unit (S754_finite false 4503599627370496 (-52)) in
  let eq_op := fun a b => Ret (py_eq unit a b) in
  factory_call unit (NUM_EQ unit) one
  = Ret (StandardBinaryPredicate unit "==" eq_op one (Some numeric_types))
  /\ factory_call unit (NUM_EQ unit) one_float
     = Ret (StandardBinaryPredicate unit "==" eq_op one_float
              (Some numeric_types))
  /\ py_eq unit one one_float = true
  /\ pred_eq unit
       (StandardBinaryPredicate unit "==" eq_op one (Some numeric_types))
       (StandardBinaryPredicate unit "==" eq_op one_float
          (Some numeric_types)) = true
  /\ pred_eq unit (DictMatchesPredicate unit [] true)
       (DictMatchesPredicate unit [] true) = true.
Proof.
  intros one one_float eq_op.
  split; [reflexivity|]. split; [reflexivity|]. split; [reflexivity|].
  split.
  - apply (proj2 (pred_eq_iff unit) (NUM_EQ unit) one one_float); reflexivity.
  - apply (proj1 (pred_eq_iff unit)). repeat split.
Defined.

Lemma operand_type_enforced_witness :
  let deferred := VCallable unit 0 (fun _ => VInt unit 3) in
  factory_operand_type unit (STR_EQ unit) = Some (TClass Cbasestring)
  /\ factory_call unit (STR_EQ unit) (VInt unit 3) = Raise TypeError
  /\ factory_call unit (STR_EQ unit) (VStr unit "x")
     = Ret (StandardBinaryPredicate unit "==" (fun a b => Ret (py_eq unit a b))
              (VStr unit "x") (Some (TClass Cbasestring)))
  /\ factory_call unit (STR_EQ unit) deferred
     = Ret (StandardBinaryPredicate unit "==" (fun a b => Ret (py_eq unit a b))
              deferred (Some (TClass Cbasestring)))
  /\ call unit 1
       (StandardBinaryPredicate unit "==" (fun a b => Ret (py_eq unit a b))
          deferred (Some (TClass Cbasestring)))
       tt (VStr unit "x") = Raise TypeError
  /\ DICT_SUBSET unit (VInt unit 3) = Raise TypeError
  /\ DICT_SUBSET unit deferred = Ret (DictSubsetPredicate unit deferred)
  /\ call unit 1 (DictSubsetPredicate unit deferred) tt (VDict unit [])
     = Raise TypeError.
Proof.
  intros deferred.
  pose proof (operand_type_enforced unit (STR_EQ unit) (TClass Cbasestring))
    as H.
  destruct (H (VInt unit 3) eq_refl) as (Hbad & _ & _ & _ & Hbad_dict & _).
  destruct (H (VStr unit "x") eq_refl) as (_ & Hgood & _).
  destruct (H deferred eq_refl) as (_ & _ & Hlater & Hcheck & _ & Hd).
  destruct (Hcheck eq_refl 0 tt (VStr unit "x")) as [Hraise _].
  destruct (Hd eq_refl) as [Hmk Hcall].
  split; [reflexivity|].
  split; [apply Hbad; reflexivity|].
  split; [apply Hgood; reflexivity|].
  split; [apply Hlater; reflexivity|].
  split; [apply Hraise; reflexivity|].
  split; [apply Hbad_dict; reflexivity|].
  split; [exact Hmk|]. apply Hcall. reflexivity.
Defined.

Lemma DictMatches_strictness_witness :
  let p := EquivalentPredicate unit (VInt unit 1) in
  let d := [("a", VInt unit 1); ("b", VInt unit 2)] in
  (exists entries,
      call unit 3 (DictMatchesPredicate unit [(VStr unit "a", p)] true) tt
        (VDict unit d)
      = Ret (KeyedPredicateResult unit
               (DictMatchesPredicate unit [(VStr unit "a", p)] true)
               entries false)
      /\ assoc_get unit (VStr unit "b") entries
         = Some (UnexpectedPathError unit (VDict unit d) "b"
                   (mkPathValue unit "b" (VInt unit 2))))
  /\ (exists entries,
         call unit 3 (DictMatchesPredicate unit [(VStr unit "a", p)] false) tt
           (VDict unit d)
         = Ret (KeyedPredicateResult unit
                  (DictMatchesPredicate unit [(VStr unit "a", p)] false)
                  entries true))
  /\ (exists entries,
         call unit 3 (DictMatchesPredicate unit [(VStr unit "a", p)] true) tt
           (VDict unit [("a", VInt unit 1)])
         = Ret (KeyedPredicateResult unit
                  (DictMatchesPredicate unit [(VStr unit "a", p)] true)
                  entries true)).
Proof.
  intros p d.
  destruct (DictMatches_strictness unit 2 [(VStr unit "a", p)] tt d _ _
              eq_refl) as ((Hloose & _) & Hstrict & _).
  { repeat constructor; simpl; intuition discriminate. }
  split; [|split].
  - destruct Hstrict as (entries & Hcall & Hget).
    { exists "b". split; [right; now left|reflexivity]. }
    exists entries. split; [exact Hcall|].
    apply Hget; [right; now left|reflexivity].
  - eexists. exact Hloose.
  - destruct (DictMatches_strictness unit 2 [(VStr unit "a", p)] tt
                [("a", VInt unit 1)] _ _ eq_refl) as (_ & _ & Hnone).
    { repeat constructor; simpl; intuition. }
    eexists. apply Hnone.
    intros k [[<-|[]] Hk]. discriminate Hk.
Defined.

Lemma ListMatches_strict_unmatched_witness :
  let p1 := EquivalentPredicate unit (VInt unit 1) in
  let eq1 := StandardBinaryPredicate unit "=="
               (fun a b => Ret (py_eq unit a b)) (VInt unit 1)
               (Some numeric_types) in
  let x := VInt unit 1 in
  let y := VInt unit 2 in
  (exists entries errors,
      call unit 3 (ListMatchesPredicate unit [p1] true true) tt
        (VList unit [x; y])
      = Ret (SequencedPredicateResult unit
               (ListMatchesPredicate unit [p1] true true)
               (entries ++ errors) false)
      /\ In (UnexpectedPathError unit (VList unit [x; y]) "[1]"
               (mkPathValue unit "[1]" y)) errors)
  /\ call unit 3 (ListMatchesPredicate unit [p1] true false) tt
       (VList unit [x; y])
     = Ret (SequencedPredicateResult unit
              (ListMatchesPredicate unit [p1] true false)
              [MapPredicateResult unit p1
                 [PathValueResult unit eq1 x "" (mkPathValue unit "" x) true;
                  PathValueResult unit eq1 y "" (mkPathValue unit "" y) false]
                 true;
               UnexpectedPathError unit (VList unit [x; y]) "[1]"
                 (mkPathValue unit "[1]" y)]
              false).
Proof.
  intros p1 eq1 x y. split.
  - destruct (proj1 (ListMatches_strict_unmatched unit 2 tt true)
                [p1] [x; y] _ _ _ eq_refl)
      as (errors & Hcall & _ & Herr).
    destruct (Herr 1 eq_refl) as (Hne & elem & Hnth & Hin).
    inversion Hnth; subst elem.
    eexists. exists errors. split; [|exact Hin].
    rewrite Hcall. destruct errors; [contradiction|reflexivity].
  - apply (proj2 (ListMatches_strict_unmatched unit 2 tt false) p1 x y);
      reflexivity.
Defined.

Lemma ListMatches_unique_per_pattern_witness :
  let p := EquivalentPredicate unit (VInt unit 1) in
  (exists rs,
      map_results unit (call unit 2) p tt [VInt unit 1; VInt unit 1] = Ret rs
      /\ 2 <= count_valid unit rs)
  /\ (forall r,
         call unit 3 (ListMatchesPredicate unit [p] true true) tt
           (VList unit [VInt unit 1; VInt unit 1]) = Ret r ->
         valid unit r = false)
  /\ (exists entries,
         call unit 3 (ListMatchesPredicate unit [p; p] false true) tt
           (VList unit [VInt unit 1; VInt unit 2])
         = Ret (SequencedPredicateResult unit
                  (ListMatchesPredicate unit [p; p] false true) entries true)).
Proof.
  intros p.
  destruct (ListMatches_unique_per_pattern unit 2 tt) as (Hmany & Hone & _).
  split; [eexists; split; [reflexivity|cbn; lia]|].
  split.
  - intros r Hr.
    eapply (Hmany [p] true [VInt unit 1; VInt unit 1] r Hr p);
      [now left|reflexivity|cbn; lia].
  - apply (Hone [p; p] [VInt unit 1; VInt unit 2]).
    intros q [<-|[<-|[]]]; eexists; split; reflexivity.
Defined.

Lemma DictSubset_first_failure_witness :
  let B := [("a", VInt unit 1); ("k", VStr unit "x")] in
  let self := DictSubsetPredicate unit (VDict unit []) in
  is_subset unit (call unit 0) self tt (VDict unit B) ""
    (VDict unit ([("a", VInt unit 2)] ++ [("z", VNone unit)])) (VDict unit B)
  = is_subset unit (call unit 0) self tt (VDict unit B) ""
      (VDict unit [("a", VInt unit 2)]) (VDict unit B)
  /\ is_subset unit (call unit 0) self tt (VDict unit B) ""
       (VDict unit ([("a", VInt unit 1)] ++ ("z", VNone unit)
                      :: [("k", VInt unit 0)]))
       (VDict unit B)
     = Ret (MissingPathError unit (VDict unit B) "z"
              (mkPathValue unit "" (VDict unit B)))
  /\ (exists r,
         call unit 1
           (DictSubsetPredicate unit
              (VDict unit [("a", VInt unit 1); ("k", VInt unit 7)]))
           tt (VDict unit B) = Ret r
         /\ valid unit r = false /\ target_path unit r = "k")
  /\ call unit 1
       (DictSubsetPredicate unit
          (VDict unit [("a", VInt unit 1); ("k", VStr unit "x")]))
       tt (VDict unit (dict_remove "k" B))
     = Ret (MissingPathError unit (VDict unit (dict_remove "k" B)) "k"
              (mkPathValue unit "" (VDict unit (dict_remove "k" B)))).
Proof.
  intros B self.
  destruct (DictSubset_first_failure unit 0 tt) as (Hfirst & Hmissing & H).
  split; [|split].
  - eapply (Hfirst self (VDict unit B) "" [("a", VInt unit 2)]
              [("z", VNone unit)] B); reflexivity.
  - eapply (Hmissing self (VDict unit B) "" [("a", VInt unit 1)] "z"
              (VNone unit) [("k", VInt unit 0)] B); reflexivity.
  - destruct (H [("a", VInt unit 1)] "k" (VStr unit "x") [] B _
                eq_refl eq_refl) as [Hmut Hdel].
    split.
    + apply (Hmut (VInt unit 7) (VStr unit "x")); reflexivity.
    + apply Hdel. repeat constructor; simpl; intuition discriminate.
Defined.

Lemma DictSubset_null_in_array_counterexample :
  let B := [("k", VList unit [VNone unit]); ("j", VInt unit 2)] in
  let A := [("k", VList unit [VNone unit])] in
  (forall k v, In (k, v) A -> dict_get k B = Some v)
  /\ call unit 2 (DictSubsetPredicate unit (VDict unit A)) tt (VDict unit B)
     = Raise TypeError
  /\ ~ (exists fuel r,
           call unit fuel (DictSubsetPredicate unit (VDict unit A)) tt
             (VDict unit B) = Ret r
           /\ valid unit r = true).
Proof.
  intros B A. split.
  { intros k v [E|[]]. now inversion E. }
  split; [reflexivity|].
  intros (fuel & r & H & _).
  destruct fuel as [|[|n]]; discriminate H.
Qed.

Lemma DictSubset_of_copy_witness :
  let B := [("name", VStr unit "web");
            ("ports", VList unit [VInt unit 80; VInt unit 443]);
            ("meta", VDict unit [("zone", VStr unit "a"); ("up", VBool unit true)])] in
  let A := [("meta", VDict unit [("zone", VStr unit "a"); ("up", VBool unit true)]);
            ("ports", VList unit [VInt unit 80; VInt unit 443])] in
  let ok := PathValueResult unit (DictSubsetPredicate unit (VDict unit A))
              (VDict unit B) "" (mkPathValue unit "" (VDict unit B)) true in
  (forall k v, In (k, v) A -> dict_get k B = Some v /\ json unit v = true)
  /\ (forall k v, In (k, v) A -> flat_arrays unit v = true)
  /\ call unit 2 (DictSubsetPredicate unit (VDict unit A)) tt (VDict unit B)
     = Ret ok
  /\ (forall r,
         call unit 5 (DictSubsetPredicate unit (VDict unit A)) tt
           (VDict unit B) = Ret r -> r = ok)
  /\ (call unit 7 (DictSubsetPredicate unit (VDict unit A)) tt (VDict unit B)
      = Ret ok
      \/ exists e,
           call unit 7 (DictSubsetPredicate unit (VDict unit A)) tt
             (VDict unit B) = Raise e).
Proof.
  intros B A ok.
  assert (forall k v, In (k, v) A -> dict_get k B = Some v /\ json unit v = true)
    as Hcopy.
  { intros k v [E|[E|[]]]; inversion E; subst; split; reflexivity. }
  assert (forall k v, In (k, v) A -> flat_arrays unit v = true) as Hflat.
  { intros k v [E|[E|[]]]; inversion E; subst; reflexivity. }
  split; [exact Hcopy|]. split; [exact Hflat|].
  destruct (DictSubset_of_copy unit tt A B Hcopy) as (Hvalid & Htotal & Hends).
  split; [apply (Htotal Hflat 2); lia|].
  split; [intros r; apply (Hvalid 5 r)|].
  apply (Hends 7). simpl. lia.
Defined.

Lemma call_terminates_witness :
  let p := ListMatchesPredicate unit [ContainsPredicate unit (VInt unit 1)]
             true false in
  let v := VList unit [VList unit [VInt unit 1; VInt unit 2]; VInt unit 5] in
  ops_complete unit p
  /\ exists o,
       ((exists r, o = Ret r) \/ (exists e, o = Raise e))
       /\ forall fuel, 2 * depth unit v + 3 <= fuel -> call unit fuel p tt v = o.
Proof.
  intros p v.
  assert (ops_complete unit p) as H by (simpl; auto).
  split; [exact H|]. exact (call_terminates unit p tt v H).
Defined.


Lemma Equivalent_Different_opposite_witness :
  let val := VDict unit [("a", VInt unit 1)] in
  let operand := VDict unit [("a", VInt unit 2)] in
  let e := call unit 2 (EquivalentPredicate unit operand) tt val in
  let d := call unit 2 (DifferentPredicate unit operand) tt val in
  isinstance unit val (TClass Clist) = false
  /\ ((exists t g, e = Ret (TypeMismatchError unit t g (Some val) "" None)
                   /\ d = e)
      \/ (exists pe pd b,
             e = Ret (PathValueResult unit pe val "" (mkPathValue unit "" val) b)
             /\ d = Ret (PathValueResult unit pd val ""
                           (mkPathValue unit "" val) (negb b)))
      \/ (e = Raise NotImplementedError /\ d = Raise NotImplementedError)).
Proof.
  intros val operand e d. split; [reflexivity|].
  exact (Equivalent_Different_opposite unit 0 tt operand val eq_refl).
Defined.

Lemma Equivalent_Different_both_valid_witness :
  let val := VList unit (map (VInt unit) [1; 2; 2]%Z) in
  let operand := VList unit (map (VInt unit) [2; 1; 2]%Z) in
  Permutation [1; 2; 2]%Z [2; 1; 2]%Z
  /\ [1; 2; 2]%Z <> [2; 1; 2]%Z
  /\ (exists pe,
         call unit 2 (EquivalentPredicate unit operand) tt val
         = Ret (PathValueResult unit pe val "" (mkPathValue unit "" val) true))
  /\ (exists pd,
         call unit 2 (DifferentPredicate unit operand) tt val
         = Ret (PathValueResult unit pd val "" (mkPathValue unit "" val) true)).
Proof.
  intros val operand.
  assert (Permutation [1; 2; 2]%Z [2; 1; 2]%Z) as Hp by apply perm_swap.
  assert ([1; 2; 2]%Z <> [2; 1; 2]%Z) as Hne by discriminate.
  split; [exact Hp|]. split; [exact Hne|].
  exact (Equivalent_Different_both_valid unit 0 tt _ _ Hp Hne).
Defined.

Lemma Contains_finds_nested_witness :
  let v := VList unit [VList unit [VInt unit 1; VInt unit 2]; VInt unit 5] in
  int_tree unit v = true
  /\ 2 * depth unit v + 2 <= 6
  /\ exists r,
       call unit 6 (ContainsPredicate unit (VInt unit 2)) tt v = Ret r
       /\ valid unit r = occurs unit 2 v.
Proof.
  intros v.
  assert (2 * depth unit v + 2 <= 6) as Hfuel by (simpl; lia).
  split; [reflexivity|]. split; [exact Hfuel|].
  exact (Contains_finds_nested unit 2 tt v eq_refl 6 Hfuel).
Defined.

Lemma Contains_mismatch_raises_witness :
  let self := ContainsPredicate unit (VInt unit 1) in
  call unit 2 self tt (VStr unit "a1") = Raise TypeError
  /\ call unit 2 self tt (VDict unit [("k", VInt unit 1)]) = Raise TypeError
  /\ call unit 2 (ContainsPredicate unit (VStr unit "a")) tt (VInt unit 1)
     = Raise TypeError
  /\ call unit 3 self tt
       (VList unit [VInt unit 0; VStr unit "a1"; VInt unit 1])
     = Raise TypeError.
Proof.
  intros self.
  destruct (Contains_mismatch_raises unit 0 tt (VInt unit 1))
    as (Hs & Hd & _ & _).
  destruct (Contains_mismatch_raises unit 0 tt (VStr unit "a"))
    as (_ & _ & Hn & _).
  destruct (Contains_mismatch_raises unit 1 tt (VInt unit 1))
    as (_ & _ & _ & Hl).
  split; [apply Hs; reflexivity|].
  split; [apply Hd; reflexivity|].
  split; [apply Hn; reflexivity|].
  apply (Hl [VInt unit 0] (VStr unit "a1") [VInt unit 1] TypeError);
    [reflexivity| |reflexivity].
  constructor; [|constructor]. eexists; split; reflexivity.
Defined.

Lemma DictSubset_ignores_other_fields_witness :
  let operand := VDict unit [("a", VInt unit 1)] in
  let B := [("a", VInt unit 1)] in
  let B' := [("z", VNone unit); ("a", VInt unit 1); ("y", VList unit [])] in
  (forall name, In name (field_names unit (eval unit tt operand)) ->
     dict_get name B' = dict_get name B)
  /\ verdict unit (call unit 1 (DictSubsetPredicate unit operand) tt
                     (VDict unit B'))
     = verdict unit (call unit 1 (DictSubsetPredicate unit operand) tt
                       (VDict unit B)).
Proof.
  intros operand B B'.
  assert (forall name, In name (field_names unit (eval unit tt operand)) ->
            dict_get name B' = dict_get name B) as H.
  { intros name [<-|[]]. reflexivity. }
  split; [exact H|].
  exact (DictSubset_ignores_other_fields unit 0 tt operand B B' H).
Defined.

Lemma DictSubset_nested_path_witness :
  let a := VInt unit 1 in
  let b := VInt unit 2 in
  "spec" <> ""
  /\ isinstance unit b (TClass Cdict) = false
  /\ isinstance unit b (TClass Clist) = false
  /\ py_ne unit (eval unit tt a) b = true
  /\ exists r,
       call unit 1
         (DictSubsetPredicate unit (nest unit ["spec"; "limits"; "cpu"] a))
         tt (nest unit ["spec"; "limits"; "cpu"] b) = Ret r
       /\ valid unit r = false
       /\ target_path unit r = "spec/limits/cpu".
Proof.
  intros a b.
  assert ("spec" <> "") as Hk by discriminate.
  split; [exact Hk|]. repeat (split; [reflexivity|]).
  exact (DictSubset_nested_path unit 0 tt "spec" ["limits"; "cpu"] a b Hk
           eq_refl eq_refl eq_refl).
Defined.

Lemma DictSubset_type_confusion_witness :
  let B := [("n", VInt unit 1); ("o", VDict unit []); ("s", VStr unit "x")] in
  let pre := [("n", VInt unit 1)] in
  let r0 := PathValueResult unit (DictSubsetPredicate unit (VDict unit pre))
              (VDict unit B) "" (mkPathValue unit "" (VDict unit B)) true in
  call unit 1 (DictSubsetPredicate unit (VDict unit pre)) tt (VDict unit B)
  = Ret r0
  /\ valid unit r0 = true
  /\ call unit 1
       (DictSubsetPredicate unit (VDict unit (pre ++ [("o", VInt unit 3)])))
       tt (VDict unit B)
     = Raise AttributeError
  /\ exists t,
       call unit 1
         (DictSubsetPredicate unit
            (VDict unit (pre ++ [("s", VDict unit [])])))
         tt (VDict unit B)
       = Ret (TypeMismatchError unit t Cdict (Some (VDict unit B)) "s"
                (Some (mkPathValue unit "" (VDict unit B)))).
Proof.
  intros B pre r0.
  assert (call unit 1 (DictSubsetPredicate unit (VDict unit pre)) tt
            (VDict unit B) = Ret r0) as H0 by reflexivity.
  split; [exact H0|]. split; [reflexivity|]. split.
  - destruct (DictSubset_type_confusion unit 0 tt pre [] B "o" (VInt unit 3)
                r0 H0 eq_refl) as [Hraise _].
    exact (Hraise [] eq_refl eq_refl).
  - destruct (DictSubset_type_confusion unit 0 tt pre [] B "s" (VDict unit [])
                r0 H0 eq_refl) as [_ Hmis].
    exact (Hmis (VStr unit "x") [] eq_refl eq_refl eq_refl).
Defined.

Lemma standard_predicates_guarded_witness :
  let p := StandardBinaryPredicate unit "has-substring" (has_substring unit)
             (VStr unit "ab") (Some (TClass Cbasestring)) in
  let deferred := VCallable unit 0 (fun _ => VInt unit 1) in
  let q := StandardBinaryPredicate unit "has-substring" (has_substring unit)
             deferred (Some (TClass Cbasestring)) in
  In (STR_SUBSTR unit) (standard_factories unit)
  /\ factory_call unit (STR_SUBSTR unit) (VStr unit "ab") = Ret p
  /\ factory_call unit (STR_SUBSTR unit) deferred = Ret q
  /\ call unit 1 q tt (VStr unit "xaby") = Raise TypeError
  /\ call unit 1 p tt (VInt unit 3)
     = Ret (TypeMismatchError unit (TClass Cbasestring) Cint
              (Some (VInt unit 3)) "" None)
  /\ exists ok,
       call unit 1 p tt (VStr unit "xaby")
       = Ret (PathValueResult unit p (VStr unit "xaby") ""
                (mkPathValue unit "" (VStr unit "xaby")) ok).
Proof.
  intros p deferred q.
  assert (In (STR_SUBSTR unit) (standard_factories unit)) as Hin
    by (simpl; tauto).
  assert (factory_call unit (STR_SUBSTR unit) (VStr unit "ab") = Ret p)
    as Hp by reflexivity.
  assert (factory_call unit (STR_SUBSTR unit) deferred = Ret q)
    as Hq by reflexivity.
  split; [exact Hin|]. split; [exact Hp|]. split; [exact Hq|].
  destruct (standard_predicates_guarded unit (STR_SUBSTR unit)
              (VStr unit "ab") p Hin Hp) as (t & Ht & H).
  destruct (standard_predicates_guarded unit (STR_SUBSTR unit)
              deferred q Hin Hq) as (t' & Ht' & H').
  inversion Ht; subst t. inversion Ht'; subst t'.
  split.
  { destruct (H' 0 tt (VStr unit "xaby")) as (Hraise & _ & _).
    apply Hraise; reflexivity. }
  split.
  - destruct (H 0 tt (VInt unit 3)) as (_ & Hmis & _).
    apply Hmis; reflexivity.
  - destruct (H 0 tt (VStr unit "xaby")) as (_ & _ & Hok).
    apply Hok; reflexivity.
Defined.

Lemma container_value_type_checked_first_witness :
  call unit 1 (DictSubsetPredicate unit (VDict unit [])) tt (VList unit [])
  = Ret (TypeMismatchError unit (TClass Cdict) Clist (Some (VList unit []))
           "" None)
  /\ call unit 1 (ListSubsetPredicate unit (VList unit []) true) tt
       (VStr unit "ab")
     = Ret (TypeMismatchError unit (TClass Clist) Cstr
              (Some (VStr unit "ab")) "" None).
Proof.
  split.
  - destruct (container_value_type_checked_first unit 0 tt (VList unit []))
      as [Hd _].
    destruct (Hd eq_refl) as [_ Hs]. apply Hs.
  - destruct (container_value_type_checked_first unit 0 tt (VStr unit "ab"))
      as [_ Hl].
    destruct (Hl eq_refl) as [_ Hs]. apply Hs.
Defined.

Lemma deferred_operand_resolved_witness :
  let f := fun _ : unit => VInt unit 10 in
  callable unit (f tt) = false
  /\ verdict unit
       (call unit 1
          (StandardBinaryPredicate unit "<=" (fun a b => Ret (py_le unit a b))
             (VCallable unit 0 f) (Some numeric_types)) tt (VInt unit 5))
     = Ret true
  /\ verdict unit
       (call unit 1
          (DictSubsetPredicate unit
             (VDict unit [("a", VStr unit "x"); ("n", VCallable unit 0 f)]))
          tt (VDict unit [("n", VInt unit 10); ("a", VStr unit "x")]))
     = Ret true.
Proof.
  intros f.
  destruct (deferred_operand_resolved unit 0 tt 0 f eq_refl) as [Hstd Hsub].
  split; [reflexivity|]. split.
  - rewrite Hstd. reflexivity.
  - refine (eq_trans
              (Hsub [("a", VStr unit "x")] []
                 [("n", VInt unit 10); ("a", VStr unit "x")] "n"
                 (VInt unit 10) eq_refl eq_refl eq_refl) _).
    reflexivity.
Defined.

Lemma Contains_reflexive_witness :
  let v := VDict unit [("name", VStr unit "web");
                       ("ports", VList unit [VInt unit 80; VInt unit 443]);
                       ("meta", VDict unit [("up", VBool unit true)])] in
  json unit v = true
  /\ flat_arrays unit v = true
  /\ isinstance unit v (TTuple [Cbasestring; Cdict; Clist; Cint]) = true
  /\ exists r,
       call unit 3 (ContainsPredicate unit v) tt v = Ret r
       /\ valid unit r = true.
Proof.
  intros v. repeat (split; [reflexivity|]).
  exact (Contains_reflexive unit 0 tt v eq_refl eq_refl eq_refl).
Defined.

Lemma verify_elem_unhandled_witness :
  isinstance unit (VNone unit)
    (TTuple [Cint; Clong; Cfloat; Cbasestring; Clist; Cdict]) = false
  /\ call unit 1 (ListMembershipPredicate unit (VNone unit) false) tt
       (VList unit [VNone unit])
     = Raise TypeError
  /\ call unit 1
       (ListSubsetPredicate unit (VList unit [VInt unit 1; VNone unit])
          false) tt (VList unit [VNone unit; VInt unit 1])
     = Raise TypeError.
Proof.
  destruct (verify_elem_unhandled unit 0 tt (VNone unit) eq_refl)
    as [Hmem Hsub].
  split; [reflexivity|]. split; [apply Hmem|].
  apply (Hsub [VInt unit 1] [] [VNone unit; VInt unit 1]).
  constructor; [split; reflexivity|constructor].
Defined.


Lemma ListMembership_untyped_witness :
  scalar unit (VInt unit 1) = true
  /\ isinstance unit (VInt unit 5) (TTuple [CNoneType; Cint; Clong; Cfloat])
     = true
  /\ call unit 1 (ListMembershipPredicate unit (VInt unit 1) false) tt
       (VInt unit 5)
     = Raise TypeError.
Proof.
  destruct (ListMembership_untyped unit 0 tt false) as (_ & _ & Hraise).
  split; [reflexivity|]. split; [reflexivity|].
  apply Hraise; reflexivity.
Defined.
